(** * Reverse delay for the Daisy Seed: a model of [ReverseDelay.cpp]

    The audio callback of [ReverseDelay.cpp] is embedded as a function on
    an explicit record of the program's globals.  Floating-point values
    are IEEE-754 binary32 (and binary64 where C++ promotes to [double]),
    taken from the parameterised operations of [SpecFloat]; [size_t] is
    the 32-bit unsigned type of the Cortex-M7 target, modelled as [Z]
    with its wrap-around written out.  Undefined behaviour of the C++
    program (an out-of-range buffer access, an out-of-range conversion of
    a float to [size_t]) is the result [None]. *)

From Stdlib Require Import ZArith Bool Lia.
From Stdlib Require Import Floats.SpecFloat.
From stdpp Require Import base option list.

Open Scope Z_scope.

(** ** Binary32 and binary64 arithmetic *)

Module F32.
Definition prec : Z := 24.
Definition emax : Z := 128.

Definition add : spec_float -> spec_float -> spec_float := SFadd prec emax.
Definition sub : spec_float -> spec_float -> spec_float := SFsub prec emax.
Definition mul : spec_float -> spec_float -> spec_float := SFmul prec emax.
Definition div : spec_float -> spec_float -> spec_float := SFdiv prec emax.

(** [lit m e] is the binary32 value nearest to [m * 2^e]. *)
Definition lit (m e : Z) : spec_float := binary_normalize prec emax m e false.

(** [float(n)] for an integer [n]. *)
Definition of_Z (n : Z) : spec_float := lit n 0.

Definition zero : spec_float := S754_zero false.
Definition one : spec_float := of_Z 1.
Definition half : spec_float := lit 1 (-1).

Definition is_finite (x : spec_float) : bool :=
  match x with
  | S754_zero _ | S754_finite _ _ _ => true
  | _ => false
  end.

Definition ltb : spec_float -> spec_float -> bool := SFltb.
Definition eqb : spec_float -> spec_float -> bool := SFeqb.
End F32.

Module F64.
Definition prec : Z := 53.
Definition emax : Z := 1024.

Definition add : spec_float -> spec_float -> spec_float := SFadd prec emax.
Definition mul : spec_float -> spec_float -> spec_float := SFmul prec emax.

Definition half : spec_float := binary_normalize prec emax 1 (-1) false.

(** Promotion of a [float] to [double] (exact). *)
Definition of_f32 (x : spec_float) : spec_float :=
  match x with
  | S754_finite s m e =>
      binary_normalize prec emax (if s then Z.neg m else Z.pos m) e s
  | _ => x
  end.

(** Conversion of a [double] to [float], rounding to nearest even. *)
Definition to_f32 (x : spec_float) : spec_float :=
  match x with
  | S754_finite s m e =>
      binary_normalize F32.prec F32.emax (if s then Z.neg m else Z.pos m) e s
  | _ => x
  end.
End F64.

Abbreviation f32 := spec_float.

(** ** [size_t] *)

Definition size_bits : Z := 32.
Definition size_wrap (z : Z) : Z := z mod 2 ^ size_bits.

(** Conversion of a [float] to [size_t]: truncation toward zero; the
    conversion is undefined when the truncated value is not representable. *)
Definition f32_to_size (x : f32) : option Z :=
  match x with
  | S754_zero _ => Some 0
  | S754_finite s m e =>
      let t := if 0 <=? e then Z.pos m * 2 ^ e else Z.pos m / 2 ^ (- e) in
      if s then (if t =? 0 then Some 0 else None)
      else if t <? 2 ^ size_bits then Some t else None
  | _ => None
  end.

(** ** Constants *)

Definition kSampleRate : f32 := F32.of_Z 48000.

Definition kBufferSize : Z :=
  Eval vm_compute in
    default 0 (f32_to_size (F32.mul (F32.of_Z 2) kSampleRate)).

Definition kFadeTime : Z := Eval vm_compute in 4800 * 2.
Definition kFadeStep : f32 := F32.div F32.one (F32.of_Z kFadeTime).

Definition kMinDelaySamps : Z := Eval vm_compute in kFadeTime + 480.
Definition kMaxDelaySamps : Z := Eval vm_compute in kBufferSize - 480.

Definition kMinDelaySec : f32 := F32.div (F32.of_Z kMinDelaySamps) kSampleRate.
Definition kMaxDelaySec : f32 := F32.div (F32.of_Z kMaxDelaySamps) kSampleRate.

(** ** Helpers *)

Definition wrapDec (x : Z) : Z :=
  if x =? 0 then kBufferSize - 1 else x - 1.

Definition wrapAdd (a b : Z) : Z := size_wrap (a + b) mod kBufferSize.

Definition clampSize (v lo hi : Z) : Z :=
  if v <? lo then lo else if v >? hi then hi else v.

(** ** The globals *)

Record Segment := mkSegment {
  head : Z;
  start : Z;
  len : Z;
  played : Z;
  active : bool
}.

Inductive seg_id := SegA | SegB.

Record engine := mkEngine {
  delayTimeSec : f32;
  feedback : f32;
  wetMix : f32;
  delayBuffer : list f32;
  writePos : Z;
  xfade_pos : f32;
  fade : f32;
  fadeCount : Z;
  fading : bool;
  fadeSwap : bool;
  segA : Segment;
  segB : Segment;
  aLag : bool;
  startup : bool
}.

(** Assignment to one global. *)

Definition set_delayTimeSec (v : f32) (e : engine) : engine :=
  mkEngine v (feedback e) (wetMix e) (delayBuffer e) (writePos e) (xfade_pos e) (fade e) (fadeCount e) (fading e) (fadeSwap e) (segA e) (segB e) (aLag e) (startup e).

Definition set_feedback (v : f32) (e : engine) : engine :=
  mkEngine (delayTimeSec e) v (wetMix e) (delayBuffer e) (writePos e) (xfade_pos e) (fade e) (fadeCount e) (fading e) (fadeSwap e) (segA e) (segB e) (aLag e) (startup e).

Definition set_wetMix (v : f32) (e : engine) : engine :=
  mkEngine (delayTimeSec e) (feedback e) v (delayBuffer e) (writePos e) (xfade_pos e) (fade e) (fadeCount e) (fading e) (fadeSwap e) (segA e) (segB e) (aLag e) (startup e).

Definition set_delayBuffer (v : list f32) (e : engine) : engine :=
  mkEngine (delayTimeSec e) (feedback e) (wetMix e) v (writePos e) (xfade_pos e) (fade e) (fadeCount e) (fading e) (fadeSwap e) (segA e) (segB e) (aLag e) (startup e).

Definition set_writePos (v : Z) (e : engine) : engine :=
  mkEngine (delayTimeSec e) (feedback e) (wetMix e) (delayBuffer e) v (xfade_pos e) (fade e) (fadeCount e) (fading e) (fadeSwap e) (segA e) (segB e) (aLag e) (startup e).

Definition set_xfade_pos (v : f32) (e : engine) : engine :=
  mkEngine (delayTimeSec e) (feedback e) (wetMix e) (delayBuffer e) (writePos e) v (fade e) (fadeCount e) (fading e) (fadeSwap e) (segA e) (segB e) (aLag e) (startup e).

Definition set_fade (v : f32) (e : engine) : engine :=
  mkEngine (delayTimeSec e) (feedback e) (wetMix e) (delayBuffer e) (writePos e) (xfade_pos e) v (fadeCount e) (fading e) (fadeSwap e) (segA e) (segB e) (aLag e) (startup e).

Definition set_fadeCount (v : Z) (e : engine) : engine :=
  mkEngine (delayTimeSec e) (feedback e) (wetMix e) (delayBuffer e) (writePos e) (xfade_pos e) (fade e) v (fading e) (fadeSwap e) (segA e) (segB e) (aLag e) (startup e).

Definition set_fading (v : bool) (e : engine) : engine :=
  mkEngine (delayTimeSec e) (feedback e) (wetMix e) (delayBuffer e) (writePos e) (xfade_pos e) (fade e) (fadeCount e) v (fadeSwap e) (segA e) (segB e) (aLag e) (startup e).

Definition set_fadeSwap (v : bool) (e : engine) : engine :=
  mkEngine (delayTimeSec e) (feedback e) (wetMix e) (delayBuffer e) (writePos e) (xfade_pos e) (fade e) (fadeCount e) (fading e) v (segA e) (segB e) (aLag e) (startup e).

Definition set_segA (v : Segment) (e : engine) : engine :=
  mkEngine (delayTimeSec e) (feedback e) (wetMix e) (delayBuffer e) (writePos e) (xfade_pos e) (fade e) (fadeCount e) (fading e) (fadeSwap e) v (segB e) (aLag e) (startup e).

Definition set_segB (v : Segment) (e : engine) : engine :=
  mkEngine (delayTimeSec e) (feedback e) (wetMix e) (delayBuffer e) (writePos e) (xfade_pos e) (fade e) (fadeCount e) (fading e) (fadeSwap e) (segA e) v (aLag e) (startup e).

Definition set_aLag (v : bool) (e : engine) : engine :=
  mkEngine (delayTimeSec e) (feedback e) (wetMix e) (delayBuffer e) (writePos e) (xfade_pos e) (fade e) (fadeCount e) (fading e) (fadeSwap e) (segA e) (segB e) v (startup e).

Definition set_startup (v : bool) (e : engine) : engine :=
  mkEngine (delayTimeSec e) (feedback e) (wetMix e) (delayBuffer e) (writePos e) (xfade_pos e) (fade e) (fadeCount e) (fading e) (fadeSwap e) (segA e) (segB e) (aLag e) v.

(** A [Segment&] parameter is a reference to one of the two globals. *)

Definition seg (w : seg_id) (e : engine) : Segment :=
  match w with SegA => segA e | SegB => segB e end.

Definition set_seg (w : seg_id) (s : Segment) (e : engine) : engine :=
  match w with SegA => set_segA s e | SegB => set_segB s e end.

Definition other_seg (w : seg_id) : seg_id :=
  match w with SegA => SegB | SegB => SegA end.

(** ** Instrumentation

    Every call that a claim speaks about leaves an event, in program
    order; [site] is the place of the call in the loop body. *)

Inductive site := AtStartup | AtHandoff | AtRetire.

Inductive event :=
| EvDeactivate (k : site) (w : seg_id)
| EvStart (k : site) (w : seg_id) (currentWrite length : Z)
| EvStep (w : seg_id) (index : Z)
| EvWrite (index : Z).

(** ** Buffer accesses *)

Definition buf_read (buf : list f32) (i : Z) : option f32 :=
  if 0 <=? i then buf !! Z.to_nat i else None.

Definition buf_write (buf : list f32) (i : Z) (x : f32) : option (list f32) :=
  _ ← buf_read buf i;
  Some (<[Z.to_nat i := x]> buf).

(** ** Segment engine *)

Definition StartSegment (w : seg_id) (currentWrite length : Z) (e : engine)
  : engine :=
  set_aLag (negb (aLag e))
    (set_seg w (mkSegment currentWrite currentWrite length 0 true) e).

Definition DeactivateSegment (w : seg_id) (e : engine) : engine :=
  set_seg w (mkSegment 0 0 0 0 false) e.

Definition StepSegment (w : seg_id) (e : engine) : option (f32 * engine) :=
  let s := seg w e in
  y ← buf_read (delayBuffer e) (head s);
  Some (y, set_seg w (mkSegment (wrapDec (head s)) (start s) (len s)
                        (size_wrap (played s + 1)) (active s)) e).

(** Modelled from the spec: the [CrossFade] object [xfade] belongs to the
    DaisySP library, which is not part of the repository.  Its state is
    the mix position [xfade_pos]; [SetPos] stores the position, [Init]
    selects the linear curve and the centre position, and [Process] is the
    linear blend the source states at its call, (1-fade) * yA + fade * yB. *)
Definition xfade_Process (pos yA yB : f32) : f32 :=
  F32.add (F32.mul yA (F32.sub F32.one pos)) (F32.mul yB pos).

Definition xfade_Init_pos : f32 := F32.half.

(** ** The loop body of [AudioCallback], block by block *)

Definition startup_phase (delayTimeSamp : f32) (e : engine)
  : option (engine * list event) :=
  if startup e then
    length ← f32_to_size delayTimeSamp;
    Some (set_startup false
            (StartSegment SegA (writePos e) length
               (DeactivateSegment SegB (DeactivateSegment SegA e))),
          [EvDeactivate AtStartup SegA; EvDeactivate AtStartup SegB;
           EvStart AtStartup SegA (writePos e) length])
  else Some (e, []).

Definition read_phase (e : engine)
  : option (f32 * f32 * engine * list event) :=
  '(yA, yB, e, t1) ←
    (if active (segA e) && negb (active (segB e)) then
       '(y, e') ← StepSegment SegA e;
       Some (y, F32.zero, e', [EvStep SegA (head (segA e))])
     else Some (F32.zero, F32.zero, e, []));
  '(yA, yB, e, t2) ←
    (if active (segB e) && negb (active (segA e)) then
       '(y, e') ← StepSegment SegB e;
       Some (F32.zero, y, e', [EvStep SegB (head (segB e))])
     else Some (yA, yB, e, []));
  '(yA, yB, e, t3) ←
    (if active (segA e) && active (segB e) then
       '(y1, e1) ← StepSegment SegA e;
       '(y2, e2) ← StepSegment SegB e1;
       Some (y1, y2, e2,
             [EvStep SegA (head (segA e)); EvStep SegB (head (segB e1))])
     else Some (yA, yB, e, []));
  '(yA, yB) ←
    (if negb (active (segA e)) && negb (active (segB e))
     then Some (F32.zero, F32.zero) else Some (yA, yB));
  Some (yA, yB, e, t1 ++ t2 ++ t3).

Definition fade_phase (e : engine) : engine :=
  if fading e then
    let e := set_xfade_pos (fade e) e in
    if fadeCount e <? kFadeTime then
      let e :=
        if negb (fadeSwap e)
        then set_fade (F32.add (fade e) kFadeStep) e
        else set_fade (F32.sub (fade e) kFadeStep) e in
      set_fadeCount (size_wrap (fadeCount e + 1)) e
    else
      set_fadeSwap (negb (fadeSwap e)) (set_fadeCount 0 (set_fading false e))
  else e.

(** [out[0][i] = in[0][i] + (0.5 * output)]: the literal is a [double]. *)
Definition output_sample (x output : f32) : f32 :=
  F64.to_f32 (F64.add (F64.of_f32 x) (F64.mul F64.half (F64.of_f32 output))).

Definition write_phase (x : f32) (e : engine) : option (engine * list event) :=
  buf ← buf_write (delayBuffer e) (writePos e) x;
  Some (set_delayBuffer buf e, [EvWrite (writePos e)]).

Definition trigger_phase (delayTimeSamp : f32) (e : engine)
  : option (engine * list event) :=
  if aLag e then
    if negb (fading e)
       && (len (segB e) <=? size_wrap (played (segB e) + kFadeTime)) then
      length ← f32_to_size delayTimeSamp;
      Some (StartSegment SegA (writePos e) length
              (set_fade F32.one (set_fading true e)),
            [EvStart AtHandoff SegA (writePos e) length])
    else Some (e, [])
  else
    if negb (fading e)
       && (len (segA e) <=? size_wrap (played (segA e) + kFadeTime)) then
      length ← f32_to_size delayTimeSamp;
      Some (StartSegment SegB (writePos e) length
              (set_fade F32.zero (set_fading true e)),
            [EvStart AtHandoff SegB (writePos e) length])
    else Some (e, []).

Definition retire (w : seg_id) (e : engine) : engine * list event :=
  if len (seg w e) <=? played (seg w e)
  then (DeactivateSegment w e, [EvDeactivate AtRetire w])
  else (e, []).

Definition retire_phase (e : engine) : engine * list event :=
  let '(e, t1) := retire SegA e in
  let '(e, t2) := retire SegB e in
  (e, t1 ++ t2).

Definition advance_phase (e : engine) : engine :=
  set_writePos (size_wrap (writePos e + 1) mod kBufferSize) e.

(** Lines 106 to 194, for a given value of [delayTimeSamp]. *)
Definition AudioCallback_body (delayTimeSamp x : f32) (e : engine)
  : option (engine * f32 * list event) :=
  '(e, t1) ← startup_phase delayTimeSamp e;
  '(yA, yB, e, t2) ← read_phase e;
  let e := fade_phase e in
  let output := xfade_Process (xfade_pos e) yA yB in
  let out := output_sample x output in
  '(e, t3) ← write_phase x e;
  '(e, t4) ← trigger_phase delayTimeSamp e;
  let '(e, t5) := retire_phase e in
  Some (advance_phase e, out, t1 ++ t2 ++ t3 ++ t4 ++ t5).

(** Line 103: the expression assigned to [delayTimeSec] on every sample. *)
Definition delayTimeSec_now : f32 :=
  F32.mul (F32.add kMinDelaySec (F32.sub kMaxDelaySec kMinDelaySec)) F32.half.

(** One iteration of the loop of [AudioCallback] (lines 103 to 194), for a
    given value of the expression line 103 assigns to [delayTimeSec]. *)
Definition AudioCallback_with (seconds x : f32) (e : engine)
  : option (engine * f32 * list event) :=
  let e := set_delayTimeSec seconds e in
  let delayTimeSamp := F32.mul (delayTimeSec e) kSampleRate in
  AudioCallback_body delayTimeSamp x e.

(** One iteration of the loop of [AudioCallback]. *)
Definition AudioCallback_sample (x : f32) (e : engine)
  : option (engine * f32 * list event) :=
  AudioCallback_with delayTimeSec_now x e.

(** The loop over a block of input samples; the result carries the output
    block and the events of each sample. *)
Fixpoint run (step : f32 -> engine -> option (engine * f32 * list event))
    (xs : list f32) (e : engine)
  : option (engine * list f32 * list (list event)) :=
  match xs with
  | [] => Some (e, [], [])
  | x :: xs' =>
      '(e1, o, t) ← step x e;
      '(e2, os, ts) ← run step xs' e1;
      Some (e2, o :: os, t :: ts)
  end.

Definition AudioCallback (inp : list f32) (e : engine)
  : option (engine * list f32 * list (list event)) :=
  run AudioCallback_sample inp e.

(** The globals as the program initialises them, and the state in which
    [main] starts the audio stream (after [xfade.Init()]). *)
Definition zero_segment : Segment := mkSegment 0 0 0 0 false.

Definition init : engine :=
  {| delayTimeSec := F32.lit 1 (-2);
     feedback := F32.zero;
     wetMix := F32.half;
     delayBuffer := replicate (Z.to_nat kBufferSize) F32.zero;
     writePos := 0;
     xfade_pos := xfade_Init_pos;
     fade := F32.zero;
     fadeCount := 0;
     fading := false;
     fadeSwap := false;
     segA := zero_segment;
     segB := zero_segment;
     aLag := true;
     startup := true |}.


(** The value line 104 computes from it. *)
Definition delayTimeSamp_now : f32 := F32.mul delayTimeSec_now kSampleRate.

(** Its value as a [size_t]: the delay length of the program, in samples. *)
Definition L_now : Z := 47760.

(** One iteration of the loop of [main] (lines 220 to 226): the three
    controls are overwritten from the converter readings. *)
Definition main_loop_store (adc0 adc1 adc2 : Z) (e : engine) : engine :=
  set_feedback (F32.div (F32.of_Z adc2) (F32.of_Z 65536))
    (set_wetMix (F32.div (F32.of_Z adc1) (F32.of_Z 65536))
       (set_delayTimeSec (F32.div (F32.of_Z adc0) (F32.of_Z 65536)) e)).

(** The states the program can be in between two samples: [main] may
    store new control values at any time, the callback processes any
    input sample. *)
Inductive reach (step : f32 -> engine -> option (engine * f32 * list event))
  : engine -> Prop :=
| reach_init : reach step init
| reach_main e adc0 adc1 adc2 :
    reach step e -> reach step (main_loop_store adc0 adc1 adc2 e)
| reach_step e x e' o t :
    reach step e -> step x e = Some (e', o, t) -> reach step e'.

(** The two contexts interleaved: before sample [k] the loop of [main] runs
    the iterations [sched k], each with its own converter readings. *)
Definition main_loop (readings : list (Z * Z * Z)) (e : engine) : engine :=
  fold_left (fun e '(adc0, adc1, adc2) => main_loop_store adc0 adc1 adc2 e)
    readings e.

Fixpoint run_sched (sched : nat -> list (Z * Z * Z)) (k : nat)
    (xs : list f32) (e : engine)
  : option (engine * list f32 * list (list event)) :=
  match xs with
  | [] => Some (e, [], [])
  | x :: xs' =>
      '(e1, o, t) ← AudioCallback_sample x (main_loop (sched k) e);
      '(e2, os, ts) ← run_sched sched (S k) xs' e1;
      Some (e2, o :: os, t :: ts)
  end.

(** What is heard and what the core does: the output block and the events. *)
Definition observed (r : option (engine * list f32 * list (list event)))
  : option (list f32 * list (list event)) :=
  match r with
  | Some (_, os, ts) => Some (os, ts)
  | None => None
  end.

(** Arbitrary values of the three control globals. *)
Definition set_controls (dt wm fb : f32) (e : engine) : engine :=
  set_feedback fb (set_wetMix wm (set_delayTimeSec dt e)).

(** ** Predicates used in the verification *)

Definition stepped (s : Segment) : Segment :=
  mkSegment (wrapDec (head s)) (start s) (len s) (size_wrap (played s + 1))
    (active s).

Definition step_if_active (s : Segment) : Segment :=
  if active s then stepped s else s.

(** The state, samples and events the read block produces. *)
Definition read_state (e : engine) : engine :=
  set_segB (step_if_active (segB e)) (set_segA (step_if_active (segA e)) e).

Definition read_of (w : seg_id) (e : engine) : f32 :=
  if active (seg w e)
  then default F32.zero (buf_read (delayBuffer e) (head (seg w e)))
  else F32.zero.

Definition read_events (e : engine) : list event :=
  (if active (segA e) then [EvStep SegA (head (segA e))] else []) ++
  (if active (segB e) then [EvStep SegB (head (segB e))] else []).

(** Every index the program holds is inside the buffer. *)
Definition idx_ok (e : engine) : Prop :=
  length (delayBuffer e) = Z.to_nat kBufferSize /\
  0 <= writePos e < kBufferSize /\
  0 <= head (segA e) < kBufferSize /\
  0 <= head (segB e) < kBufferSize.

(** The segment the handoff test looks at: the flag selects it. *)
Definition lead (e : engine) : seg_id := if aLag e then SegB else SegA.

Definition trigger_cond (e : engine) : bool :=
  negb (fading e)
  && (len (seg (lead e) e) <=? size_wrap (played (seg (lead e) e) + kFadeTime)).

Definition handoff (L : Z) (e : engine) : engine :=
  StartSegment (other_seg (lead e)) (writePos e) L
    (set_fade (if aLag e then F32.one else F32.zero) (set_fading true e)).

Definition trigger_state (L : Z) (e : engine) : engine :=
  if trigger_cond e then handoff L e else e.

Definition trigger_events (L : Z) (e : engine) : list event :=
  if trigger_cond e
  then [EvStart AtHandoff (other_seg (lead e)) (writePos e) L] else [].

Definition startup_state (L : Z) (e : engine) : engine :=
  set_startup false
    (StartSegment SegA (writePos e) L
       (DeactivateSegment SegB (DeactivateSegment SegA e))).

Definition startup_events (L : Z) (e : engine) : list event :=
  [EvDeactivate AtStartup SegA; EvDeactivate AtStartup SegB;
   EvStart AtStartup SegA (writePos e) L].

Definition write_state (x : f32) (e : engine) : engine :=
  set_delayBuffer (<[Z.to_nat (writePos e) := x]> (delayBuffer e)) e.

(** One sample once Startup has run, as a total function: the state before
    the scheduler, the next state, the output and the events. *)
Definition mixed_state (x : f32) (e : engine) : engine :=
  write_state x (fade_phase (read_state e)).

Definition next_state (L : Z) (x : f32) (e : engine) : engine :=
  advance_phase (fst (retire_phase (trigger_state L (mixed_state x e)))).

Definition next_out (x : f32) (e : engine) : f32 :=
  output_sample x
    (xfade_Process (xfade_pos (fade_phase (read_state e)))
       (read_of SegA e) (read_of SegB e)).

Definition next_events (L : Z) (x : f32) (e : engine) : list event :=
  read_events e ++ [EvWrite (writePos e)] ++
  trigger_events L (mixed_state x e) ++
  snd (retire_phase (trigger_state L (mixed_state x e))).

Definition event_in_range (ev : event) : Prop :=
  match ev with
  | EvStep _ i | EvWrite i | EvStart _ _ i _ => 0 <= i < kBufferSize
  | EvDeactivate _ _ => True
  end.

(** The ramp of one crossfade: [ramp sw k] is the position [k] steps after
    a handoff made with direction flag [sw]. *)
Definition ramp_start (sw : bool) : f32 := if sw then F32.one else F32.zero.

Definition ramp_step (sw : bool) (f : f32) : f32 :=
  if negb sw then F32.add f kFadeStep else F32.sub f kFadeStep.

Fixpoint ramp (sw : bool) (k : nat) : f32 :=
  match k with
  | O => ramp_start sw
  | S k' => ramp_step sw (ramp sw k')
  end.

Definition ramp_value (f : f32) : Prop :=
  exists sw k, (k <= Z.to_nat kFadeTime)%nat /\ f = ramp sw k.

(** Invariant of the fade logic. *)
Definition fade_inv (e : engine) : Prop :=
  0 <= fadeCount e <= kFadeTime /\
  (fading e = false -> fadeCount e = 0) /\
  (fading e = true -> fade e = ramp (fadeSwap e) (Z.to_nat (fadeCount e))) /\
  aLag e = xorb (xorb (fadeSwap e) (fading e)) (startup e) /\
  (startup e = true -> fading e = false /\ fadeSwap e = false) /\
  ramp_value (fade e) /\
  (xfade_pos e = xfade_Init_pos \/ ramp_value (xfade_pos e)).

(** Invariant of the segment pair for a delay length [L], once Startup has
    run: the segment the flag selects is playing; the other one is either
    idle or playing out its last samples under the crossfade. *)
Definition seg_rel (L : Z) (fg : bool) (fc : Z) (ld ot : Segment) : Prop :=
  active ld = true /\ len ld = L /\ 0 <= played ld /\
  (fg = true -> played ld = fc) /\
  (fg = false -> played ld + kFadeTime < L) /\
  (ot = zero_segment \/
   (fg = true /\ active ot = true /\ len ot = L /\
    L - kFadeTime + fc <= played ot < L)).

Definition seg_inv (L : Z) (e : engine) : Prop :=
  seg_rel L (fading e) (fadeCount e)
    (seg (lead e) e) (seg (other_seg (lead e)) e).

Definition inv (L : Z) (e : engine) : Prop :=
  idx_ok e /\ fade_inv e /\ (startup e = false -> seg_inv L e).

(** The retire test on one segment. *)
Definition retire_seg (s : Segment) : Segment :=
  if len s <=? played s then zero_segment else s.

Definition seg_id_eqb (a b : seg_id) : bool :=
  match a, b with
  | SegA, SegA | SegB, SegB => true
  | _, _ => false
  end.

Definition is_start (ev : event) : bool :=
  match ev with EvStart _ _ _ _ => true | _ => false end.

Definition is_handoff_start (ev : event) : bool :=
  match ev with EvStart AtHandoff _ _ _ => true | _ => false end.

Definition is_step (ev : event) : bool :=
  match ev with EvStep _ _ => true | _ => false end.

Definition is_write (ev : event) : bool :=
  match ev with EvWrite _ => true | _ => false end.

Definition is_deactivate (ev : event) : bool :=
  match ev with EvDeactivate _ _ => true | _ => false end.

(** The state of the first sample once its Startup block has run. *)
Definition started : engine :=
  startup_state L_now (set_delayTimeSec delayTimeSec_now init).

(** A state with its control globals blanked. *)
Definition erase (e : engine) : engine :=
  set_controls F32.zero F32.zero F32.zero e.

Definition observed1 (r : option (engine * f32 * list event))
  : option (engine * f32 * list event) :=
  (fun r => (erase (fst (fst r)), snd (fst r), snd r)) <$> r.

(** Number of segment starts among the events of a sample. *)
Definition starts (t : list event) : nat := length (filter (fun ev => is_start ev = true) t).

(** [precedes P Q t]: in the event list [t] every [P] event comes strictly
    before every [Q] event. *)
Definition precedes (P Q : event -> bool) (t : list event) : Prop :=
  forall i j a b,
    t !! i = Some a -> t !! j = Some b -> P a = true -> Q b = true ->
    (i < j)%nat.

(** The state after the first sample of the program on a zero input. *)
Definition after_first : engine := next_state L_now F32.zero started.

Definition has_handoff (t : list event) : Prop :=
  exists w cw n, In (EvStart AtHandoff w cw n) t.

(** The state of the first sample after its Startup block, for any delay
    time, and the events of a run with the Startup events put back in front
    of the first sample. *)
Definition started_with (seconds : f32) (L : Z) : engine :=
  startup_state L (set_delayTimeSec seconds init).

Definition prefix_first (p : list event) (ts : list (list event))
  : list (list event) :=
  match ts with
  | [] => []
  | t :: ts' => (p ++ t) :: ts'
  end.

(** The binary32 values the position holds after kFadeTime steps of an
    upward and of a downward crossfade: 1.0000974 and -0.0000973. *)
Definition up_end : f32 := S754_finite false 8389425 (-23).
Definition down_end : f32 := S754_finite true 13378872 (-37).

(** The history buffer holds zero everywhere, or in the [k] slots written
    last. *)
Definition all_zero (e : engine) : Prop :=
  forall i, 0 <= i < kBufferSize -> delayBuffer e !! Z.to_nat i = Some F32.zero.

Definition zeros_behind (k : Z) (e : engine) : Prop :=
  forall j, 0 <= j < k ->
    delayBuffer e !! Z.to_nat ((writePos e - 1 - j) mod kBufferSize)
    = Some F32.zero.

(** The output sample is +0 when the input and both segment samples are. *)
Definition out_zero (pos : f32) : bool :=
  match output_sample F32.zero (xfade_Process pos F32.zero F32.zero) with
  | S754_zero false => true
  | _ => false
  end.

(** [ramp_all P sw n x]: [P] holds of [x] and of the [n] values that follow
    it on the ramp of direction [sw]. *)
Fixpoint ramp_all (P : f32 -> bool) (sw : bool) (n : nat) (x : f32) : bool :=
  P x && match n with
         | O => true
         | S n' => ramp_all P sw n' (ramp_step sw x)
         end.

(** A step of the ramp moves the position strictly towards the far
    endpoint. *)
Definition ramp_rising (x : f32) : bool := F32.ltb x (ramp_step false x).
Definition ramp_falling (x : f32) : bool := F32.ltb (ramp_step true x) x.

(** [k] successive calls of [StepSegment] on one segment, with the samples
    they return. *)
Fixpoint StepSegment_n (k : nat) (w : seg_id) (e : engine)
  : option (list f32 * engine) :=
  match k with
  | O => Some ([], e)
  | S k' =>
      '(y, e1) ← StepSegment w e;
      '(ys, e2) ← StepSegment_n k' w e1;
      Some (y :: ys, e2)
  end.

(** The state in which the steady part of a sample of the program begins:
    line 103 has stored the delay time and the Startup block has run if it
    was due. *)
Definition entered (e : engine) : engine :=
  if startup e
  then startup_state L_now (set_delayTimeSec delayTimeSec_now e)
  else set_delayTimeSec delayTimeSec_now e.

(** The content of the history buffer [j] slots behind the last slot
    written. *)
Definition behind (e : engine) (j : nat) : option f32 :=
  delayBuffer e !! Z.to_nat ((writePos e - 1 - Z.of_nat j) mod kBufferSize).

(** Where the read heads stand once [n] samples have been processed.  The
    segment that Startup started has been stepped on every sample, the
    first one included; a segment started by a handoff is first stepped on
    the sample after its start.  Both move one slot back per sample while
    the write cursor moves one slot forward. *)
Definition head_inv (n : Z) (e : engine) : Prop :=
  forall w, active (seg w e) = true ->
    (played (seg w e) = n /\
     head (seg w e) = (writePos e - 2 * played (seg w e)) mod kBufferSize) \/
    (played (seg w e) < n /\
     head (seg w e) = (writePos e - 1 - 2 * played (seg w e)) mod kBufferSize).

(** The place of a state in the cycle of handoffs for a delay length [L]:
    [q] handoffs have been made and [m] samples processed since the last
    one (since Startup when [q = 0]).  The flag-selected segment is the one
    started last; a crossfade runs during the first samples of every cycle
    but the first, and the segment started before is still playing for the
    first kFadeTime of them.  The direction flag of the crossfade is
    flipped when the crossfade ends; afterwards the crossfader keeps the
    last position it was given. *)
Definition phase (L q m : Z) (e : engine) : Prop :=
  0 <= q /\ 0 <= m < L - kFadeTime /\
  lead e = (if Z.even q then SegA else SegB) /\
  active (seg (lead e) e) = true /\
  played (seg (lead e) e) = m /\
  fading e = (0 <? q) && (m <=? kFadeTime) /\
  fadeCount e = (if fading e then m else 0) /\
  active (seg (other_seg (lead e)) e) = (0 <? q) && (m <? kFadeTime) /\
  (active (seg (other_seg (lead e)) e) = true ->
   played (seg (other_seg (lead e)) e) = L - kFadeTime + m) /\
  fadeSwap e = (0 <? q) && xorb (Z.even q) (kFadeTime <? m) /\
  (fading e = false ->
   xfade_pos e = if 0 <? q then ramp (Z.even q) (Z.to_nat kFadeTime)
                 else xfade_Init_pos).

(** A state without the content of its history buffer. *)
Definition control_state (e : engine) : engine := set_delayBuffer [] e.

(** The mix position the crossfader applies on the next sample: the fade
    logic passes [fade] to the crossfader while a crossfade is active. *)
Definition mix_pos (e : engine) : f32 :=
  if fading e then fade e else xfade_pos e.

(** The record of an active segment is consistent: the head is [played]
    slots behind the slot the segment started at. *)
Definition start_inv (e : engine) : Prop :=
  forall w, active (seg w e) = true ->
    0 <= start (seg w e) < kBufferSize /\
    head (seg w e) = (start (seg w e) - played (seg w e)) mod kBufferSize.

(** * Verification *)

(** ** Constants and machine arithmetic *)

Lemma kBufferSize_val : kBufferSize = 96000.
Proof. reflexivity. Qed.

Lemma kFadeTime_val : kFadeTime = 9600.
Proof. reflexivity. Qed.

Lemma size_wrap_small z : 0 <= z < 2 ^ size_bits -> size_wrap z = z.
Proof. intros H. unfold size_wrap. apply Z.mod_small. exact H. Qed.

Lemma f32_to_size_range x n : f32_to_size x = Some n -> 0 <= n < 2 ^ size_bits.
Proof.
  destruct x as [s|s| |s m e]; simpl; try discriminate.
  - intros [= <-]. split; [lia | apply Z.pow_pos_nonneg; unfold size_bits; lia].
  - assert (Hs : 0 < 2 ^ size_bits) by (apply Z.pow_pos_nonneg; unfold size_bits; lia).
    destruct s.
    + destruct (_ =? 0); [|discriminate]. intros [= <-]. lia.
    + destruct (Z.ltb_spec (if 0 <=? e then Z.pos m * 2 ^ e else Z.pos m / 2 ^ (- e))
                  (2 ^ size_bits)) as [Hlt|]; [|discriminate].
      intros [= <-]. split; [|exact Hlt].
      destruct (Z.leb_spec 0 e).
      * apply Z.mul_nonneg_nonneg; [lia | apply Z.pow_nonneg; lia].
      * apply Z.div_pos; [lia | apply Z.pow_pos_nonneg; lia].
Qed.

(** ** Inversion of the loop body *)

Lemma body_inv d x e e' o t :
  AudioCallback_body d x e = Some (e', o, t) ->
  exists e1 t1 yA yB e2 t2 e3 t3 e4 t4,
    startup_phase d e = Some (e1, t1) /\
    read_phase e1 = Some (yA, yB, e2, t2) /\
    write_phase x (fade_phase e2) = Some (e3, t3) /\
    trigger_phase d e3 = Some (e4, t4) /\
    e' = advance_phase (fst (retire_phase e4)) /\
    o = output_sample x (xfade_Process (xfade_pos (fade_phase e2)) yA yB) /\
    t = t1 ++ t2 ++ t3 ++ t4 ++ snd (retire_phase e4).
Proof.
  unfold AudioCallback_body. intros H.
  destruct (startup_phase d e) as [[e1 t1]|] eqn:H1; [simpl in H|discriminate].
  destruct (read_phase e1) as [[[[yA yB] e2] t2]|] eqn:H2; [simpl in H|discriminate].
  destruct (write_phase x (fade_phase e2)) as [[e3 t3]|] eqn:H3;
    [simpl in H|discriminate].
  destruct (trigger_phase d e3) as [[e4 t4]|] eqn:H4; [simpl in H|discriminate].
  destruct (retire_phase e4) as [e5 t5] eqn:Hr.
  injection H as <- <- <-.
  exists e1, t1, yA, yB, e2, t2, e3, t3, e4, t4.
  rewrite Hr. simpl. auto 10.
Qed.

Lemma body_intro d x e e1 t1 yA yB e2 t2 e3 t3 e4 t4 :
  startup_phase d e = Some (e1, t1) ->
  read_phase e1 = Some (yA, yB, e2, t2) ->
  write_phase x (fade_phase e2) = Some (e3, t3) ->
  trigger_phase d e3 = Some (e4, t4) ->
  AudioCallback_body d x e =
    Some (advance_phase (fst (retire_phase e4)),
          output_sample x (xfade_Process (xfade_pos (fade_phase e2)) yA yB),
          t1 ++ t2 ++ t3 ++ t4 ++ snd (retire_phase e4)).
Proof.
  intros H1 H2 H3 H4. unfold AudioCallback_body.
  rewrite H1. simpl. rewrite H2. simpl. rewrite H3. simpl. rewrite H4. simpl.
  destruct (retire_phase e4). reflexivity.
Qed.

(** ** The read block *)

Lemma buf_read_in_range buf i :
  length buf = Z.to_nat kBufferSize -> 0 <= i < kBufferSize ->
  is_Some (buf_read buf i).
Proof.
  intros Hl Hi. unfold buf_read.
  destruct (Z.leb_spec 0 i); [|lia].
  apply lookup_lt_is_Some. rewrite Hl. lia.
Qed.

Lemma buf_read_Some_range buf i y :
  length buf = Z.to_nat kBufferSize -> buf_read buf i = Some y ->
  0 <= i < kBufferSize.
Proof.
  unfold buf_read. intros Hl H.
  destruct (Z.leb_spec 0 i); [|discriminate].
  apply lookup_lt_Some in H. rewrite Hl in H. lia.
Qed.

Lemma read_phase_inv e yA yB e' t :
  read_phase e = Some (yA, yB, e', t) ->
  e' = read_state e /\ yA = read_of SegA e /\ yB = read_of SegB e /\
  t = read_events e.
Proof.
  destruct e as [dt fb wm buf wp pos fd fc fg fs [hA sA lA pA aA] [hB sB lB pB aB] lag su].
  unfold read_phase, read_state, read_of, read_events, step_if_active, StepSegment.
  simpl.
  destruct aA, aB; simpl;
    repeat (match goal with
            | |- context [buf_read ?b ?i] => destruct (buf_read b i); simpl
            end);
    intros H; try discriminate; injection H as <- <- <- <-; auto.
Qed.

Lemma read_phase_total e :
  idx_ok e ->
  read_phase e = Some (read_of SegA e, read_of SegB e, read_state e, read_events e).
Proof.
  intros (Hl & _ & HA & HB).
  destruct (buf_read_in_range _ _ Hl HA) as [ya Hya].
  destruct (buf_read_in_range _ _ Hl HB) as [yb Hyb].
  destruct e as [dt fb wm buf wp pos fd fc fg fs [hA sA lA pA aA] [hB sB lB pB aB] lag su].
  unfold read_phase, read_state, read_of, read_events, step_if_active, StepSegment.
  simpl in *.
  destruct aA, aB; simpl; rewrite ?Hya, ?Hyb; simpl; rewrite ?Hyb; reflexivity.
Qed.

(** ** The other blocks *)

Ltac destruct_engine e :=
  destruct e as [?dt ?fb ?wm ?buf ?wp ?pos ?fd ?fc ?fg ?fs
                   [?hA ?sA ?lA ?pA ?aA] [?hB ?sB ?lB ?pB ?aB] ?lag ?su].

Lemma write_phase_inv x e e' t :
  write_phase x e = Some (e', t) ->
  e' = write_state x e /\ t = [EvWrite (writePos e)] /\
  is_Some (buf_read (delayBuffer e) (writePos e)).
Proof.
  unfold write_phase, buf_write, write_state.
  destruct (buf_read (delayBuffer e) (writePos e)) as [y|]; simpl; [|discriminate].
  intros [= <- <-]. eauto.
Qed.

Lemma write_phase_total x e :
  idx_ok e -> write_phase x e = Some (write_state x e, [EvWrite (writePos e)]).
Proof.
  intros (Hl & Hw & _). unfold write_phase, buf_write, write_state.
  destruct (buf_read_in_range _ _ Hl Hw) as [y ->]. reflexivity.
Qed.

Lemma trigger_phase_inv d e e' t :
  trigger_phase d e = Some (e', t) ->
  (trigger_cond e = false /\ e' = e /\ t = []) \/
  (trigger_cond e = true /\
   exists L, f32_to_size d = Some L /\ e' = handoff L e /\
             t = [EvStart AtHandoff (other_seg (lead e)) (writePos e) L]).
Proof.
  unfold trigger_phase, trigger_cond, handoff, lead.
  destruct (aLag e); simpl;
    match goal with |- context [negb ?a && ?b] => destruct (negb a && b) end;
    try (intros [= <- <-]; left; auto);
    destruct (f32_to_size d) as [L|]; simpl; try discriminate;
    intros [= <- <-]; right; eauto.
Qed.

Lemma trigger_phase_total d L e :
  f32_to_size d = Some L ->
  trigger_phase d e = Some (trigger_state L e, trigger_events L e).
Proof.
  intros HL.
  unfold trigger_phase, trigger_state, trigger_events, trigger_cond, handoff, lead.
  destruct (aLag e); simpl;
    match goal with |- context [negb ?a && ?b] => destruct (negb a && b) end;
    rewrite ?HL; reflexivity.
Qed.

Lemma startup_phase_inv d e e' t :
  startup_phase d e = Some (e', t) ->
  (startup e = false /\ e' = e /\ t = []) \/
  (startup e = true /\
   exists L, f32_to_size d = Some L /\ e' = startup_state L e /\
             t = startup_events L e).
Proof.
  unfold startup_phase. destruct (startup e).
  - destruct (f32_to_size d) as [L|]; simpl; [|discriminate].
    intros [= <- <-]. right. eauto.
  - intros [= <- <-]. left. auto.
Qed.

Lemma startup_phase_total d L e :
  f32_to_size d = Some L ->
  startup_phase d e =
    Some (if startup e then (startup_state L e, startup_events L e) else (e, [])).
Proof.
  intros HL. unfold startup_phase. destruct (startup e); [|reflexivity].
  rewrite HL. reflexivity.
Qed.

(** ** Index safety of every block *)

Lemma wrapDec_range x : 0 <= x < kBufferSize -> 0 <= wrapDec x < kBufferSize.
Proof.
  unfold wrapDec. rewrite kBufferSize_val. destruct (Z.eqb_spec x 0); lia.
Qed.

Lemma idx_ok_read e : idx_ok e -> idx_ok (read_state e).
Proof.
  destruct_engine e. unfold idx_ok, read_state, step_if_active. simpl.
  intros (Hl & Hw & HA & HB).
  destruct aA, aB; simpl; auto using wrapDec_range.
Qed.

Lemma idx_ok_fade e : idx_ok e -> idx_ok (fade_phase e).
Proof.
  destruct_engine e. unfold idx_ok, fade_phase. simpl.
  destruct fg; simpl; [|auto].
  destruct (fc <? kFadeTime); simpl; [|auto].
  destruct fs; simpl; auto.
Qed.

Lemma idx_ok_write x e : idx_ok e -> idx_ok (write_state x e).
Proof.
  destruct_engine e. unfold idx_ok, write_state. simpl.
  rewrite length_insert. auto.
Qed.

Lemma idx_ok_trigger L e : idx_ok e -> idx_ok (trigger_state L e).
Proof.
  destruct_engine e.
  unfold idx_ok, trigger_state, trigger_cond, handoff, lead, StartSegment. simpl.
  intros (Hl & Hw & HA & HB).
  destruct lag; simpl;
    match goal with |- context [negb ?a && ?b] => destruct (negb a && b) end;
    simpl; auto.
Qed.

Lemma idx_ok_retire e : idx_ok e -> idx_ok (fst (retire_phase e)).
Proof.
  destruct_engine e. unfold idx_ok, retire_phase, retire. simpl.
  intros (Hl & Hw & HA & HB). rewrite kBufferSize_val in *.
  destruct (lA <=? pA); simpl; destruct (lB <=? pB); simpl; intuition lia.
Qed.

Lemma idx_ok_advance e : idx_ok e -> idx_ok (advance_phase e).
Proof.
  destruct_engine e. unfold idx_ok, advance_phase. simpl.
  intros (Hl & Hw & HA & HB).
  split; [exact Hl|]. split; [|split; assumption].
  apply Z.mod_pos_bound. rewrite kBufferSize_val. lia.
Qed.

Lemma idx_ok_startup L e : idx_ok e -> idx_ok (startup_state L e).
Proof.
  destruct_engine e. unfold idx_ok, startup_state. simpl.
  intros (Hl & Hw & HA & HB). rewrite kBufferSize_val in *. intuition lia.
Qed.

Lemma idx_ok_mixed x e : idx_ok e -> idx_ok (mixed_state x e).
Proof.
  intros H. unfold mixed_state. auto using idx_ok_write, idx_ok_fade, idx_ok_read.
Qed.

Lemma idx_ok_next L x e : idx_ok e -> idx_ok (next_state L x e).
Proof.
  intros H. unfold next_state.
  auto using idx_ok_advance, idx_ok_retire, idx_ok_trigger, idx_ok_mixed.
Qed.

Lemma writePos_fade_read e : writePos (fade_phase (read_state e)) = writePos e.
Proof.
  destruct_engine e. unfold fade_phase, read_state. simpl.
  destruct fg; simpl; [|reflexivity].
  destruct (fc <? kFadeTime); simpl; [|reflexivity].
  destruct fs; reflexivity.
Qed.

Lemma writePos_mixed x e : writePos (mixed_state x e) = writePos e.
Proof. unfold mixed_state, write_state. simpl. apply writePos_fade_read. Qed.

(** ** The loop body as a total function *)

Lemma body_steady d L x e :
  f32_to_size d = Some L -> startup e = false -> idx_ok e ->
  AudioCallback_body d x e
  = Some (next_state L x e, next_out x e, next_events L x e).
Proof.
  intros HL Hs Hi.
  rewrite (body_intro d x e e [] (read_of SegA e) (read_of SegB e) (read_state e)
             (read_events e) (mixed_state x e) [EvWrite (writePos e)]
             (trigger_state L (mixed_state x e))
             (trigger_events L (mixed_state x e))).
  - reflexivity.
  - rewrite (startup_phase_total d L e HL), Hs. reflexivity.
  - apply read_phase_total, Hi.
  - rewrite write_phase_total by auto using idx_ok_fade, idx_ok_read.
    rewrite writePos_fade_read. reflexivity.
  - apply trigger_phase_total, HL.
Qed.

Lemma startup_state_startup L e : startup (startup_state L e) = false.
Proof. reflexivity. Qed.

Lemma body_startup d L x e :
  f32_to_size d = Some L -> startup e = true -> idx_ok e ->
  AudioCallback_body d x e
  = Some (next_state L x (startup_state L e), next_out x (startup_state L e),
          startup_events L e ++ next_events L x (startup_state L e)).
Proof.
  intros HL Hs Hi.
  pose proof (idx_ok_startup L e Hi) as Hi'.
  pose proof (body_steady d L x (startup_state L e) HL eq_refl Hi') as Hb.
  apply body_inv in Hb.
  destruct Hb as (e1 & t1 & yA & yB & e2 & t2 & e3 & t3 & e4 & t4 &
                  H1 & H2 & H3 & H4 & H5 & H6 & H7).
  rewrite (startup_phase_total d L _ HL) in H1. simpl in H1.
  injection H1 as <- <-.
  rewrite (body_intro d x e (startup_state L e) (startup_events L e)
             yA yB e2 t2 e3 t3 e4 t4); auto.
  - rewrite <- H5, <- H6. simpl in H7. rewrite <- H7. reflexivity.
  - rewrite (startup_phase_total d L e HL), Hs. reflexivity.
Qed.

(** ** General inversion: what one sample does from any state *)

Lemma body_cases d x e e' o t :
  AudioCallback_body d x e = Some (e', o, t) ->
  exists e1 t1 e4 t4,
    ((startup e = false /\ e1 = e /\ t1 = []) \/
     (startup e = true /\
      exists L, f32_to_size d = Some L /\ e1 = startup_state L e /\
                t1 = startup_events L e)) /\
    ((trigger_cond (mixed_state x e1) = false /\ e4 = mixed_state x e1 /\ t4 = []) \/
     (trigger_cond (mixed_state x e1) = true /\
      exists L, f32_to_size d = Some L /\ e4 = handoff L (mixed_state x e1) /\
                t4 = [EvStart AtHandoff (other_seg (lead (mixed_state x e1)))
                        (writePos e1) L])) /\
    e' = advance_phase (fst (retire_phase e4)) /\
    o = next_out x e1 /\
    t = t1 ++ read_events e1 ++ [EvWrite (writePos e1)] ++ t4
           ++ snd (retire_phase e4).
Proof.
  intros H. apply body_inv in H.
  destruct H as (e1 & t1 & yA & yB & e2 & t2 & e3 & t3 & e4 & t4 &
                 H1 & H2 & H3 & H4 & -> & -> & ->).
  apply startup_phase_inv in H1. apply read_phase_inv in H2.
  destruct H2 as (-> & -> & -> & ->).
  apply write_phase_inv in H3. destruct H3 as (-> & -> & _).
  apply trigger_phase_inv in H4.
  rewrite writePos_fade_read.
  exists e1, t1, e4, t4. split; [exact H1|]. split; [|auto].
  fold (mixed_state x e1) in H4.
  rewrite <- (writePos_mixed x e1). exact H4.
Qed.

(** ** The fade invariant *)

Lemma fade_inv_ext e e' :
  fadeCount e' = fadeCount e -> fading e' = fading e -> fade e' = fade e ->
  fadeSwap e' = fadeSwap e -> aLag e' = aLag e -> startup e' = startup e ->
  xfade_pos e' = xfade_pos e ->
  fade_inv e -> fade_inv e'.
Proof.
  unfold fade_inv. intros -> -> -> -> -> -> ->. auto.
Qed.

Lemma fade_inv_read e : fade_inv e -> fade_inv (read_state e).
Proof. apply fade_inv_ext; reflexivity. Qed.

Lemma fade_inv_write x e : fade_inv e -> fade_inv (write_state x e).
Proof. apply fade_inv_ext; reflexivity. Qed.

Lemma fade_inv_advance e : fade_inv e -> fade_inv (advance_phase e).
Proof. apply fade_inv_ext; reflexivity. Qed.

Lemma fade_inv_retire e : fade_inv e -> fade_inv (fst (retire_phase e)).
Proof.
  apply fade_inv_ext; unfold retire_phase, retire;
    destruct (len (seg SegA e) <=? played (seg SegA e)); simpl;
    match goal with |- context [if ?c then _ else _] => destruct c end;
    reflexivity.
Qed.

Lemma fade_inv_main a0 a1 a2 e : fade_inv e -> fade_inv (main_loop_store a0 a1 a2 e).
Proof. apply fade_inv_ext; reflexivity. Qed.

Lemma fade_inv_set_delayTimeSec v e : fade_inv e -> fade_inv (set_delayTimeSec v e).
Proof. apply fade_inv_ext; reflexivity. Qed.

Lemma ramp_value_start sw : ramp_value (ramp_start sw).
Proof. exists sw, O. split; [lia | reflexivity]. Qed.

Lemma fade_inv_fade e : fade_inv e -> fade_inv (fade_phase e).
Proof.
  destruct_engine e. unfold fade_inv, fade_phase. simpl.
  intros (Hc & H0 & Hr & Hl & Hs & Hv & Hp).
  destruct fg; simpl; [|tauto].
  specialize (Hr eq_refl).
  assert (Hsu : su = false) by (destruct su; [destruct (Hs eq_refl); discriminate | reflexivity]).
  subst su.
  destruct (Z.ltb_spec fc kFadeTime) as [Hlt|Hge]; simpl.
  - assert (Hw : size_wrap (fc + 1) = fc + 1).
    { apply size_wrap_small. rewrite kFadeTime_val in *. unfold size_bits. lia. }
    assert (Hn : Z.to_nat (fc + 1) = S (Z.to_nat fc)).
    { rewrite <- Z2Nat.inj_succ by lia. reflexivity. }
    assert (Hnew : (if negb fs then F32.add fd kFadeStep else F32.sub fd kFadeStep)
                   = ramp fs (Z.to_nat (fc + 1))).
    { rewrite Hn. simpl. unfold ramp_step. rewrite Hr. reflexivity. }
    destruct fs; simpl in *; rewrite Hw; rewrite Hnew;
      (split; [lia|]); (split; [discriminate|]); (split; [reflexivity|]);
      (split; [assumption|]); (split; [discriminate|]);
      (split; [eexists _, _; split; [|reflexivity]; lia | right; assumption]).
  - assert (fc = kFadeTime) by lia. subst fc.
    split; [rewrite kFadeTime_val; lia|]. split; [reflexivity|].
    split; [discriminate|]. split; [destruct fs, lag; simpl in *; congruence|].
    split; [discriminate|]. split; [assumption | right; assumption].
Qed.

Lemma fade_inv_trigger L e :
  startup e = false -> fade_inv e -> fade_inv (trigger_state L e).
Proof.
  destruct_engine e. unfold trigger_state, trigger_cond.
  simpl. intros ->.
  destruct fg; simpl; [auto|].
  match goal with |- context [if ?c then _ else _] => destruct c end; [|auto].
  unfold fade_inv, handoff, lead. simpl.
  intros (Hc & H0 & Hr & Hl & Hs & Hv & Hp).
  assert (lag = fs) by (destruct lag, fs; simpl in Hl; congruence). subst lag.
  rewrite (H0 eq_refl).
  destruct fs; simpl;
    (split; [rewrite kFadeTime_val; lia|]); (split; [discriminate|]);
    (split; [reflexivity|]); (split; [reflexivity|]); (split; [discriminate|]);
    (split; [|assumption]).
  - apply (ramp_value_start true).
  - apply (ramp_value_start false).
Qed.

Lemma fade_inv_startup L e :
  startup e = true -> fade_inv e -> fade_inv (startup_state L e).
Proof.
  destruct_engine e. unfold fade_inv, startup_state. simpl. intros ->.
  intros (Hc & H0 & Hr & Hl & Hs & Hv & Hp).
  destruct (Hs eq_refl) as [-> ->]. simpl in *. subst lag.
  repeat (split; [first [assumption | discriminate | reflexivity]|]). assumption.
Qed.

Lemma fade_inv_next L x e :
  startup e = false -> fade_inv e -> fade_inv (next_state L x e).
Proof.
  intros Hs H. unfold next_state, mixed_state.
  apply fade_inv_advance, fade_inv_retire, fade_inv_trigger.
  - destruct_engine e. unfold write_state, fade_phase, read_state. simpl in *.
    destruct fg; simpl; [|assumption].
    destruct (fc <? kFadeTime); simpl; [|assumption]. destruct fs; assumption.
  - apply fade_inv_write, fade_inv_fade, fade_inv_read, H.
Qed.

Lemma fade_inv_init : fade_inv init.
Proof.
  unfold fade_inv. simpl. rewrite kFadeTime_val.
  split; [lia|]. split; [reflexivity|]. split; [discriminate|].
  split; [reflexivity|]. split; [auto|].
  split; [apply (ramp_value_start false) | left; reflexivity].
Qed.

(** ** Projections of the state after each block *)

Lemma seg_read w e : seg w (read_state e) = step_if_active (seg w e).
Proof. destruct w; reflexivity. Qed.

Lemma fade_phase_proj e :
  segA (fade_phase e) = segA e /\ segB (fade_phase e) = segB e /\
  aLag (fade_phase e) = aLag e /\ startup (fade_phase e) = startup e /\
  delayBuffer (fade_phase e) = delayBuffer e /\
  fading (fade_phase e) = fading e && (fadeCount e <? kFadeTime) /\
  fadeCount (fade_phase e)
  = (if fading e
     then if fadeCount e <? kFadeTime then size_wrap (fadeCount e + 1) else 0
     else fadeCount e) /\
  fadeSwap (fade_phase e)
  = (if fading e && negb (fadeCount e <? kFadeTime)
     then negb (fadeSwap e) else fadeSwap e) /\
  xfade_pos (fade_phase e) = (if fading e then fade e else xfade_pos e) /\
  fade (fade_phase e)
  = (if fading e && (fadeCount e <? kFadeTime)
     then ramp_step (fadeSwap e) (fade e) else fade e).
Proof.
  destruct_engine e. unfold fade_phase, ramp_step. simpl.
  destruct fg; simpl; [|tauto].
  destruct (fc <? kFadeTime); simpl; [|tauto].
  destruct fs; simpl; tauto.
Qed.

Lemma seg_fade w e : seg w (fade_phase e) = seg w e.
Proof. destruct w; apply fade_phase_proj. Qed.

Lemma mixed_proj x e :
  (forall w, seg w (mixed_state x e) = step_if_active (seg w e)) /\
  aLag (mixed_state x e) = aLag e /\
  startup (mixed_state x e) = startup e /\
  fading (mixed_state x e) = fading e && (fadeCount e <? kFadeTime) /\
  fadeCount (mixed_state x e)
  = (if fading e
     then if fadeCount e <? kFadeTime then size_wrap (fadeCount e + 1) else 0
     else fadeCount e) /\
  fadeSwap (mixed_state x e)
  = (if fading e && negb (fadeCount e <? kFadeTime)
     then negb (fadeSwap e) else fadeSwap e).
Proof.
  pose proof (fade_phase_proj (read_state e)) as (HA & HB & Hl & Hs & _ & Hf & Hc & Hw & _).
  unfold mixed_state, write_state.
  split; [intros w; destruct w; simpl; [rewrite HA | rewrite HB]; reflexivity|].
  simpl. rewrite Hl, Hs, Hf, Hc, Hw. tauto.
Qed.

Lemma trigger_proj L e :
  (forall w, seg w (trigger_state L e)
             = if trigger_cond e && seg_id_eqb w (other_seg (lead e))
               then mkSegment (writePos e) (writePos e) L 0 true
               else seg w e) /\
  aLag (trigger_state L e) = xorb (aLag e) (trigger_cond e) /\
  startup (trigger_state L e) = startup e /\
  fading (trigger_state L e) = fading e || trigger_cond e /\
  fadeCount (trigger_state L e) = fadeCount e /\
  fadeSwap (trigger_state L e) = fadeSwap e /\
  writePos (trigger_state L e) = writePos e.
Proof.
  unfold trigger_state. destruct (trigger_cond e); simpl.
  - rewrite orb_true_r. unfold handoff, lead. destruct_engine e. simpl.
    destruct lag; simpl;
      (split; [intros w; destruct w; reflexivity|]); tauto.
  - rewrite xorb_false_r, orb_false_r.
    split; [intros w; destruct w; reflexivity | tauto].
Qed.

Lemma retire_proj e :
  (forall w, seg w (fst (retire_phase e)) = retire_seg (seg w e)) /\
  aLag (fst (retire_phase e)) = aLag e /\
  startup (fst (retire_phase e)) = startup e /\
  fading (fst (retire_phase e)) = fading e /\
  fadeCount (fst (retire_phase e)) = fadeCount e /\
  fadeSwap (fst (retire_phase e)) = fadeSwap e /\
  writePos (fst (retire_phase e)) = writePos e.
Proof.
  destruct_engine e. unfold retire_phase, retire, retire_seg. simpl.
  destruct (lA <=? pA) eqn:EA; simpl; destruct (lB <=? pB) eqn:EB; simpl;
    (split; [intros w; destruct w; simpl; rewrite ?EA, ?EB; reflexivity|]); tauto.
Qed.

(** The handoff test of a sample, in terms of the state before it. *)
Lemma trigger_cond_mixed x e :
  trigger_cond (mixed_state x e)
  = negb (fading e && (fadeCount e <? kFadeTime))
    && (len (step_if_active (seg (lead e) e))
        <=? size_wrap (played (step_if_active (seg (lead e) e)) + kFadeTime)).
Proof.
  pose proof (mixed_proj x e) as (Hs & Hl & _ & Hf & _).
  unfold trigger_cond, lead. rewrite Hs, Hl, Hf. reflexivity.
Qed.

Lemma next_proj L x e :
  let c := trigger_cond (mixed_state x e) in
  (forall w, seg w (next_state L x e)
             = retire_seg (if c && seg_id_eqb w (other_seg (lead e))
                           then mkSegment (writePos e) (writePos e) L 0 true
                           else step_if_active (seg w e))) /\
  aLag (next_state L x e) = xorb (aLag e) c /\
  startup (next_state L x e) = startup e /\
  fading (next_state L x e) = (fading e && (fadeCount e <? kFadeTime)) || c /\
  fadeCount (next_state L x e)
  = (if fading e
     then if fadeCount e <? kFadeTime then size_wrap (fadeCount e + 1) else 0
     else fadeCount e) /\
  fadeSwap (next_state L x e)
  = (if fading e && negb (fadeCount e <? kFadeTime)
     then negb (fadeSwap e) else fadeSwap e) /\
  writePos (next_state L x e) = size_wrap (writePos e + 1) mod kBufferSize.
Proof.
  intros c.
  pose proof (mixed_proj x e) as (Ms & Ml & Mu & Mf & Mc & Mw).
  pose proof (trigger_proj L (mixed_state x e)) as (Ts & Tl & Tu & Tf & Tc & Tw & Tp).
  pose proof (retire_proj (trigger_state L (mixed_state x e)))
    as (Rs & Rl & Ru & Rf & Rc & Rw & Rp).
  unfold next_state, advance_phase.
  split.
  { intros w. transitivity (seg w (fst (retire_phase (trigger_state L (mixed_state x e))))).
    - destruct w; reflexivity.
    - rewrite Rs, Ts, Ms. unfold lead. rewrite Ml, writePos_mixed. reflexivity. }
  simpl. rewrite Rl, Tl, Ml, Ru, Tu, Mu, Rf, Tf, Mf, Rc, Tc, Mc, Rw, Tw, Mw, Rp, Tp,
    writePos_mixed.
  tauto.
Qed.
Lemma seg_rel_step L fg fc ld ot wp :
  kFadeTime < L < 2 ^ size_bits -> 0 <= fc <= kFadeTime -> (fg = false -> fc = 0) ->
  seg_rel L fg fc ld ot ->
  let c := negb (fg && (fc <? kFadeTime))
           && (len (step_if_active ld)
               <=? size_wrap (played (step_if_active ld) + kFadeTime)) in
  let ld' := retire_seg (step_if_active ld) in
  let ot' := retire_seg (if c then mkSegment wp wp L 0 true else step_if_active ot) in
  let fg' := (fg && (fc <? kFadeTime)) || c in
  let fc' := if fg then if fc <? kFadeTime then size_wrap (fc + 1) else 0 else fc in
  seg_rel L fg' fc' (if c then ot' else ld') (if c then ld' else ot').
Proof.
  intros HL Hc H0 (Ha & Hlen & Hp & Hf & Hnf & Ho).
  unfold seg_rel, step_if_active, stepped, retire_seg, zero_segment in *.
  rewrite kFadeTime_val in *. unfold size_bits in *.
  assert (H32 : 2 ^ 32 = 4294967296) by reflexivity. rewrite H32 in *.
  destruct ld as [hA sA lA pA aA], ot as [hB sB lB pB aB]. simpl in *. subst aA lA.
  destruct fg;
    (destruct Ho as [Ho | (Hfg & Hoa & Hol & Hop)];
     [injection Ho as -> -> -> -> -> | try discriminate; subst aB lB]);
    simpl in *;
    try specialize (Hf eq_refl); try specialize (Hnf eq_refl);
    try specialize (H0 eq_refl).
  all: repeat match goal with
              | |- context [size_wrap ?z] =>
                  rewrite (size_wrap_small z) by (unfold size_bits; lia)
              end.
  all: (repeat (match goal with
            | |- context [?a <? ?b] => destruct (Z.ltb_spec a b); simpl
            end);
    repeat (match goal with
            | |- context [?a <=? ?b] => destruct (Z.leb_spec a b); simpl
            end);
    try lia; intuition (try discriminate; try lia; auto)).
Qed.

Lemma seg_inv_next L x e :
  kFadeTime < L < 2 ^ size_bits ->
  fade_inv e -> seg_inv L e -> seg_inv L (next_state L x e).
Proof.
  intros HL (Hc & H0 & _) Hs.
  pose proof (seg_rel_step L _ _ _ _ (writePos e) HL Hc H0 Hs) as H.
  pose proof (next_proj L x e) as (Ns & Nl & _ & Nf & Nc & _).
  rewrite trigger_cond_mixed in *.
  unfold seg_inv, lead in *. rewrite Nl, Nf, Nc, !Ns.
  cbv zeta in H.
  match goal with
  | |- context [xorb (aLag e) ?c] => destruct c
  end; destruct (aLag e); simpl in *; exact H.
Qed.

Lemma seg_inv_startup L e :
  kFadeTime < L -> startup e = true -> fade_inv e -> seg_inv L (startup_state L e).
Proof.
  intros HL Hs (Hc & H0 & _ & Hl & Hsu & _).
  destruct (Hsu Hs) as [Hf Hw].
  destruct_engine e. simpl in *. subst su fg fs. simpl in Hl. subst lag.
  unfold seg_inv, seg_rel, startup_state, lead. simpl.
  rewrite (H0 eq_refl).
  split; [reflexivity|]. split; [reflexivity|]. split; [lia|].
  split; [discriminate|]. split; [intros _; lia|]. left. reflexivity.
Qed.

(** ** The invariant holds in every reachable state *)

Lemma inv_init L : inv L init.
Proof.
  split; [|split; [apply fade_inv_init | discriminate]].
  split; [exact (length_replicate _ _)|].
  change (0 <= 0 < kBufferSize /\ 0 <= 0 < kBufferSize /\ 0 <= 0 < kBufferSize).
  rewrite kBufferSize_val. lia.
Qed.

Lemma inv_ext L e e' :
  delayBuffer e' = delayBuffer e -> writePos e' = writePos e ->
  segA e' = segA e -> segB e' = segB e ->
  fadeCount e' = fadeCount e -> fading e' = fading e -> fade e' = fade e ->
  fadeSwap e' = fadeSwap e -> aLag e' = aLag e -> startup e' = startup e ->
  xfade_pos e' = xfade_pos e ->
  inv L e -> inv L e'.
Proof.
  intros Hb Hw HA HB Hc Hf Hd Hs Hl Hu Hp (Hi & Hfi & Hsi).
  split; [|split].
  - unfold idx_ok in *. rewrite Hb, Hw, HA, HB. exact Hi.
  - exact (fade_inv_ext e e' Hc Hf Hd Hs Hl Hu Hp Hfi).
  - rewrite Hu. intros H. specialize (Hsi H).
    unfold seg_inv, lead, seg in *. rewrite Hl, Hf, Hc, HA, HB. exact Hsi.
Qed.

Lemma inv_main L a0 a1 a2 e : inv L e -> inv L (main_loop_store a0 a1 a2 e).
Proof. apply inv_ext; reflexivity. Qed.

Lemma inv_set_delayTimeSec L v e : inv L e -> inv L (set_delayTimeSec v e).
Proof. apply inv_ext; reflexivity. Qed.

Lemma inv_next L x e :
  kFadeTime < L < 2 ^ size_bits -> startup e = false ->
  inv L e -> inv L (next_state L x e).
Proof.
  intros HL Hs (Hi & Hf & Hsi).
  split; [apply idx_ok_next, Hi|]. split; [apply fade_inv_next; assumption|].
  intros _. apply seg_inv_next; auto.
Qed.

Lemma inv_startup L e :
  kFadeTime < L -> startup e = true -> inv L e -> inv L (startup_state L e).
Proof.
  intros HL Hs (Hi & Hf & _).
  split; [apply idx_ok_startup, Hi|]. split; [apply fade_inv_startup; assumption|].
  intros _. apply seg_inv_startup; assumption.
Qed.

(** The state in which the steady part of a sample begins. *)
Lemma body_total d L x e :
  f32_to_size d = Some L -> idx_ok e ->
  let e1 := if startup e then startup_state L e else e in
  AudioCallback_body d x e
  = Some (next_state L x e1, next_out x e1,
          (if startup e then startup_events L e else []) ++ next_events L x e1).
Proof.
  intros HL Hi. destruct (startup e) eqn:Hs; simpl.
  - apply body_startup; assumption.
  - apply body_steady; assumption.
Qed.

Lemma inv_body d L x e e' o t :
  f32_to_size d = Some L -> kFadeTime < L -> inv L e ->
  AudioCallback_body d x e = Some (e', o, t) -> inv L e'.
Proof.
  intros HL HK Hi H.
  pose proof (f32_to_size_range _ _ HL) as HR.
  rewrite (body_total d L x e HL (proj1 Hi)) in H. injection H as <- _ _.
  destruct (startup e) eqn:Hs.
  - apply inv_next; [lia | reflexivity | apply inv_startup; assumption].
  - apply inv_next; [lia | assumption | assumption].
Qed.

Lemma with_body seconds x e :
  AudioCallback_with seconds x e
  = AudioCallback_body (F32.mul seconds kSampleRate) x (set_delayTimeSec seconds e).
Proof. reflexivity. Qed.

Lemma inv_with seconds L x e e' o t :
  f32_to_size (F32.mul seconds kSampleRate) = Some L -> kFadeTime < L -> inv L e ->
  AudioCallback_with seconds x e = Some (e', o, t) -> inv L e'.
Proof.
  intros HL HK Hi H. rewrite with_body in H.
  eapply (inv_body _ _ _ _ _ _ _ HL HK); [|exact H].
  apply inv_set_delayTimeSec. exact Hi.
Qed.

Lemma reach_with_inv seconds L e :
  f32_to_size (F32.mul seconds kSampleRate) = Some L -> kFadeTime < L ->
  reach (AudioCallback_with seconds) e -> inv L e.
Proof.
  intros HL HK H. induction H.
  - apply inv_init.
  - apply inv_main. assumption.
  - eapply inv_with; eassumption.
Qed.

Lemma delayTimeSamp_now_size : f32_to_size delayTimeSamp_now = Some L_now.
Proof. vm_compute. reflexivity. Qed.

Lemma sample_body x e :
  AudioCallback_sample x e
  = AudioCallback_body delayTimeSamp_now x (set_delayTimeSec delayTimeSec_now e).
Proof. reflexivity. Qed.

Lemma L_now_bounds : kFadeTime < L_now.
Proof. rewrite kFadeTime_val. unfold L_now. lia. Qed.

Lemma reachable_inv e : reach AudioCallback_sample e -> inv L_now e.
Proof. apply reach_with_inv; [exact delayTimeSamp_now_size | exact L_now_bounds]. Qed.

(** ** Events of one sample *)

Lemma retire_events_deactivate e :
  Forall (fun ev => is_deactivate ev = true) (snd (retire_phase e)).
Proof.
  unfold retire_phase, retire.
  destruct (len (seg SegA e) <=? played (seg SegA e)); simpl;
    match goal with |- context [if ?c then _ else _] => destruct c end;
    simpl; repeat constructor.
Qed.

Lemma next_events_in_range L x e :
  idx_ok e -> Forall event_in_range (next_events L x e).
Proof.
  intros (Hl & Hw & HA & HB). unfold next_events, read_events.
  repeat apply Forall_app_2.
  - destruct (active (segA e)); [apply Forall_singleton; exact HA | constructor].
  - destruct (active (segB e)); [apply Forall_singleton; exact HB | constructor].
  - apply Forall_singleton. exact Hw.
  - unfold trigger_events. destruct (trigger_cond _); [|constructor].
    apply Forall_singleton. unfold event_in_range. rewrite writePos_mixed. exact Hw.
  - eapply Forall_impl; [apply retire_events_deactivate|].
    intros [] ?; simpl in *; try discriminate; exact I.
Qed.

Lemma startup_events_in_range L e :
  idx_ok e -> Forall event_in_range (startup_events L e).
Proof.
  intros (Hl & Hw & HA & HB). unfold startup_events.
  constructor; [exact I|]. constructor; [exact I|]. apply Forall_singleton. exact Hw.
Qed.

(** C7: index safety.  In every reachable state the write cursor and both
    segment heads are valid indices of the history buffer, the buffer has
    its full capacity, and the next sample, whatever the input, runs without
    an out-of-range access: every index it reads, writes or hands to a
    segment start lies in [0, kBufferSize).  Stepping wraps the head from 0
    to capacity - 1 and the cursor advances modulo the capacity. *)
Theorem index_safety e :
  reach AudioCallback_sample e ->
  idx_ok e /\
  (forall x, exists e' o t,
      AudioCallback_sample x e = Some (e', o, t) /\
      Forall event_in_range t /\ idx_ok e' /\
      writePos e' = (writePos e + 1) mod kBufferSize) /\
  wrapDec 0 = kBufferSize - 1 /\
  (forall i, 0 < i < kBufferSize -> wrapDec i = i - 1).
Proof.
  intros Hr. pose proof (reachable_inv e Hr) as (Hi & _).
  split; [exact Hi|]. split; [|split].
  - intros x. rewrite sample_body.
    assert (Hi' : idx_ok (set_delayTimeSec delayTimeSec_now e)) by exact Hi.
    rewrite (body_total _ _ x _ delayTimeSamp_now_size Hi').
    eexists _, _, _. split; [reflexivity|].
    cbv zeta. change (startup (set_delayTimeSec delayTimeSec_now e)) with (startup e).
    assert (Hi1 : idx_ok (if startup e
                          then startup_state L_now (set_delayTimeSec delayTimeSec_now e)
                          else set_delayTimeSec delayTimeSec_now e)).
    { destruct (startup e); [apply idx_ok_startup|]; exact Hi'. }
    split; [|split].
    + apply Forall_app_2; [|apply next_events_in_range, Hi1].
      destruct (startup e); [apply startup_events_in_range, Hi' | constructor].
    + apply idx_ok_next, Hi1.
    + pose proof (next_proj L_now x
                    (if startup e
                     then startup_state L_now (set_delayTimeSec delayTimeSec_now e)
                     else set_delayTimeSec delayTimeSec_now e))
        as (_ & _ & _ & _ & _ & _ & Hp).
      rewrite Hp. destruct Hi as (_ & Hw & _).
      replace (writePos (if startup e
                         then startup_state L_now (set_delayTimeSec delayTimeSec_now e)
                         else set_delayTimeSec delayTimeSec_now e))
        with (writePos e) by (destruct (startup e); reflexivity).
      rewrite size_wrap_small; [reflexivity|].
      rewrite kBufferSize_val in Hw. unfold size_bits. lia.
  - reflexivity.
  - intros i Hi0. unfold wrapDec. destruct (Z.eqb_spec i 0); [lia | reflexivity].
Qed.

Lemma index_safety_witness :
  idx_ok init /\
  (forall x, exists e' o t,
      AudioCallback_sample x init = Some (e', o, t) /\
      Forall event_in_range t /\ idx_ok e' /\
      writePos e' = (writePos init + 1) mod kBufferSize) /\
  wrapDec 0 = kBufferSize - 1 /\
  (forall i, 0 < i < kBufferSize -> wrapDec i = i - 1).
Proof. apply (index_safety init). apply reach_init. Defined.

Lemma read_events_step e ev : In ev (read_events e) -> is_step ev = true.
Proof.
  unfold read_events. intros H. apply in_app_or in H.
  destruct H as [H|H]; [destruct (active (segA e)) | destruct (active (segB e))];
    simpl in H; intuition (subst; reflexivity).
Qed.

Lemma retire_events_In e ev :
  In ev (snd (retire_phase e)) -> is_deactivate ev = true.
Proof.
  intros H. pose proof (retire_events_deactivate e) as HF.
  rewrite Forall_forall in HF. apply HF. apply list_elem_of_In. exact H.
Qed.

(** A segment start of a sample is the Startup start or the handoff start;
    its length is the conversion of [delayTimeSamp], its position the write
    cursor. *)
Lemma body_start_event d x e e' o t k w cw n :
  AudioCallback_body d x e = Some (e', o, t) ->
  In (EvStart k w cw n) t ->
  f32_to_size d = Some n /\ cw = writePos e /\
  ((k = AtStartup /\ w = SegA /\ startup e = true) \/ k = AtHandoff).
Proof.
  intros H Hin. apply body_cases in H.
  destruct H as (e1 & t1 & e4 & t4 & H1 & H4 & _ & _ & ->).
  assert (Hw : writePos e1 = writePos e).
  { destruct H1 as [(_ & -> & _) | (_ & L & _ & -> & _)]; reflexivity. }
  apply in_app_or in Hin. destruct Hin as [Hin|Hin];
    [|apply in_app_or in Hin; destruct Hin as [Hin|Hin];
      [|apply in_app_or in Hin; destruct Hin as [Hin|Hin];
        [|apply in_app_or in Hin; destruct Hin as [Hin|Hin]]]].
  - destruct H1 as [(_ & _ & ->) | (Hs & L & HL & _ & ->)]; [destruct Hin|].
    simpl in Hin. destruct Hin as [Hin|[Hin|[Hin|[]]]]; try discriminate.
    injection Hin as <- <- <- <-. rewrite ?Hw. auto 10.
  - apply read_events_step in Hin. discriminate.
  - simpl in Hin. destruct Hin as [Hin|[]]. discriminate.
  - destruct H4 as [(_ & _ & ->) | (_ & L & HL & _ & ->)]; [destruct Hin|].
    simpl in Hin. destruct Hin as [Hin|[]].
    injection Hin as <- <- <- <-. rewrite ?Hw. auto 10.
  - apply retire_events_In in Hin. discriminate.
Qed.

(** ** The delay time is overwritten, not clamped *)

Lemma delayTimeSec_fade e : delayTimeSec (fade_phase e) = delayTimeSec e.
Proof.
  destruct_engine e. unfold fade_phase. simpl.
  destruct fg; [|reflexivity]. destruct (fc <? kFadeTime); [|reflexivity].
  destruct fs; reflexivity.
Qed.

Lemma delayTimeSec_retire e : delayTimeSec (fst (retire_phase e)) = delayTimeSec e.
Proof.
  destruct_engine e. unfold retire_phase, retire. simpl.
  destruct (lA <=? pA); simpl; destruct (lB <=? pB); reflexivity.
Qed.

Lemma delayTimeSec_handoff L e : delayTimeSec (handoff L e) = delayTimeSec e.
Proof. unfold handoff, lead. destruct (aLag e); reflexivity. Qed.

Lemma body_delayTimeSec d x e e' o t :
  AudioCallback_body d x e = Some (e', o, t) -> delayTimeSec e' = delayTimeSec e.
Proof.
  intros H. apply body_inv in H.
  destruct H as (e1 & t1 & yA & yB & e2 & t2 & e3 & t3 & e4 & t4
                 & H1 & H2 & H3 & H4 & -> & _).
  apply startup_phase_inv in H1. apply read_phase_inv in H2.
  apply write_phase_inv in H3. apply trigger_phase_inv in H4.
  destruct H2 as (-> & _). destruct H3 as (-> & _).
  assert (E1 : delayTimeSec e1 = delayTimeSec e).
  { destruct H1 as [(_ & -> & _) | (_ & L & _ & -> & _)]; reflexivity. }
  assert (E4 : delayTimeSec e4 = delayTimeSec e1).
  { destruct H4 as [(_ & -> & _) | (_ & L & _ & -> & _)];
      rewrite ?delayTimeSec_handoff;
      change (delayTimeSec (fade_phase (read_state e1)) = delayTimeSec e1);
      rewrite delayTimeSec_fade; reflexivity. }
  change (delayTimeSec (fst (retire_phase e4)) = delayTimeSec e).
  rewrite delayTimeSec_retire, E4, E1. reflexivity.
Qed.

Lemma sample_overwrites v x e :
  AudioCallback_sample x (set_delayTimeSec v e) = AudioCallback_sample x e.
Proof. destruct e. reflexivity. Qed.

(** C1: the delay length consumed by the core.  The source clamps nothing:
    [clampSize] has no caller and [main] stores the delay time it accepts
    as it is.  The core does not consume that value.  Every sample first
    overwrites [delayTimeSec] with the constant expression of the first line
    of the loop, so a sample gives the same result whatever delay time has
    been stored, leaves that constant in [delayTimeSec], and passes to every
    segment start (at Startup or at a handoff) the length 47760, the
    conversion of the constant.  This length lies between kMinDelaySamps
    and kMaxDelaySamps; the minimum is strictly greater than the fade window
    kFadeTime and the maximum is the buffer capacity less the safety margin
    of 480 samples. *)
Theorem delay_length_fixed x e e' o t :
  AudioCallback_sample x e = Some (e', o, t) ->
  (forall v, AudioCallback_sample x (set_delayTimeSec v e) = Some (e', o, t)) /\
  delayTimeSec e' = delayTimeSec_now /\
  (forall k w cw n, In (EvStart k w cw n) t -> n = L_now) /\
  f32_to_size (F32.mul delayTimeSec_now kSampleRate) = Some L_now /\
  kMinDelaySamps <= L_now <= kMaxDelaySamps /\
  kFadeTime < kMinDelaySamps /\ kMaxDelaySamps = kBufferSize - 480.
Proof.
  intros H.
  split; [intros v; rewrite sample_overwrites; exact H|].
  split.
  { rewrite sample_body in H. apply body_delayTimeSec in H. exact H. }
  split.
  { intros k w cw n Hin. rewrite sample_body in H.
    destruct (body_start_event _ _ _ _ _ _ _ _ _ _ H Hin) as (Hn & _).
    rewrite delayTimeSamp_now_size in Hn. congruence. }
  split; [exact delayTimeSamp_now_size|].
  unfold L_now. split; [|split]; [split| |]; [| | |reflexivity]; vm_compute;
    discriminate || reflexivity.
Qed.

Lemma first_sample x :
  AudioCallback_sample x init
  = Some (next_state L_now x started, next_out x started,
          startup_events L_now init ++ next_events L_now x started).
Proof.
  rewrite sample_body.
  apply (body_startup delayTimeSamp_now L_now x
           (set_delayTimeSec delayTimeSec_now init) delayTimeSamp_now_size eq_refl).
  exact (proj1 (inv_set_delayTimeSec L_now _ _ (inv_init L_now))).
Qed.

(** A sample processed right after [main] has stored the delay time of the
    converter reading 6553 (about 0.1 s, 4799 samples). *)
Lemma delay_length_fixed_witness :
  exists e' o t,
    AudioCallback_sample F32.zero (main_loop_store 6553 0 0 init) = Some (e', o, t) /\
    (forall v,
        AudioCallback_sample F32.zero
          (set_delayTimeSec v (main_loop_store 6553 0 0 init)) = Some (e', o, t)) /\
    delayTimeSec e' = delayTimeSec_now /\
    (forall k w cw n, In (EvStart k w cw n) t -> n = L_now) /\
    f32_to_size (F32.mul delayTimeSec_now kSampleRate) = Some L_now /\
    kMinDelaySamps <= L_now <= kMaxDelaySamps /\
    kFadeTime < kMinDelaySamps /\ kMaxDelaySamps = kBufferSize - 480.
Proof.
  pose proof (body_total delayTimeSamp_now L_now F32.zero
                (set_delayTimeSec delayTimeSec_now (main_loop_store 6553 0 0 init))
                delayTimeSamp_now_size
                (proj1 (inv_set_delayTimeSec L_now _ _
                          (inv_main L_now 6553 0 0 init (inv_init L_now))))) as H.
  cbv zeta in H. rewrite <- sample_body in H.
  eexists _, _, _. split; [exact H|].
  exact (delay_length_fixed _ _ _ _ _ H).
Defined.

(** The claim as stated fails: the delay time is not clamped where it is
    accepted.  The value [main] stores for the converter reading 6553 is a
    delay of 4799 samples, below kMinDelaySamps and below the fade window,
    in a reachable state; clamping would have given kMinDelaySamps. *)
Lemma delay_time_stored_unclamped :
  reach AudioCallback_sample (main_loop_store 6553 0 0 init) /\
  f32_to_size
    (F32.mul (delayTimeSec (main_loop_store 6553 0 0 init)) kSampleRate)
  = Some 4799 /\
  4799 < kMinDelaySamps /\ 4799 < kFadeTime /\
  clampSize 4799 kMinDelaySamps kMaxDelaySamps = kMinDelaySamps.
Proof.
  split; [apply reach_main, reach_init|].
  split.
  { change (f32_to_size
              (F32.mul (F32.div (F32.of_Z 6553) (F32.of_Z 65536)) kSampleRate)
            = Some 4799).
    vm_compute. reflexivity. }
  repeat split; reflexivity.
Qed.

(** ** The control globals do not reach the core *)

Section Controls.
Variables wm fb : f32.

(** Overwriting [wetMix] and [feedback] commutes with every block. *)
Let g (e : engine) : engine := set_feedback fb (set_wetMix wm e).

Lemma startup_phase_ctl d e :
  startup_phase d (g e) = (fun r => (g (fst r), snd r)) <$> startup_phase d e.
Proof.
  unfold startup_phase. destruct_engine e. simpl.
  destruct su; [|reflexivity]. destruct (f32_to_size d); reflexivity.
Qed.

Lemma read_phase_ctl e :
  read_phase (g e)
  = (fun r => (fst (fst r), g (snd (fst r)), snd r)) <$> read_phase e.
Proof.
  destruct_engine e. unfold read_phase, StepSegment. simpl.
  destruct aA, aB; simpl;
    repeat (match goal with
            | |- context [buf_read ?b ?i] => destruct (buf_read b i); simpl
            end); reflexivity.
Qed.

Lemma fade_phase_ctl e : fade_phase (g e) = g (fade_phase e).
Proof.
  destruct_engine e. unfold fade_phase. simpl.
  destruct fg; [|reflexivity]. simpl.
  destruct (fc <? kFadeTime); [|reflexivity]. destruct fs; reflexivity.
Qed.

Lemma write_phase_ctl x e :
  write_phase x (g e) = (fun r => (g (fst r), snd r)) <$> write_phase x e.
Proof.
  destruct_engine e. unfold write_phase, buf_write. simpl.
  destruct (buf_read buf wp); reflexivity.
Qed.

Lemma trigger_phase_ctl d e :
  trigger_phase d (g e) = (fun r => (g (fst r), snd r)) <$> trigger_phase d e.
Proof.
  destruct_engine e. unfold trigger_phase. simpl.
  destruct lag; simpl;
    match goal with |- context [negb ?a && ?b] => destruct (negb a && b) end;
    try reflexivity; destruct (f32_to_size d); reflexivity.
Qed.

Lemma retire_phase_ctl e :
  retire_phase (g e) = (g (fst (retire_phase e)), snd (retire_phase e)).
Proof.
  destruct_engine e. unfold retire_phase, retire. simpl.
  destruct (lA <=? pA); simpl; destruct (lB <=? pB); reflexivity.
Qed.

Lemma body_ctl d x e :
  AudioCallback_body d x (g e)
  = (fun r => (g (fst (fst r)), snd (fst r), snd r)) <$> AudioCallback_body d x e.
Proof.
  unfold AudioCallback_body.
  rewrite startup_phase_ctl.
  destruct (startup_phase d e) as [[e1 t1]|]; [simpl|reflexivity].
  rewrite read_phase_ctl.
  destruct (read_phase e1) as [[[[yA yB] e2] t2]|]; [simpl|reflexivity].
  rewrite fade_phase_ctl, write_phase_ctl.
  replace (xfade_pos (g (fade_phase e2))) with (xfade_pos (fade_phase e2))
    by reflexivity.
  destruct (write_phase x (fade_phase e2)) as [[e3 t3]|]; [simpl|reflexivity].
  rewrite trigger_phase_ctl.
  destruct (trigger_phase d e3) as [[e4 t4]|]; [simpl|reflexivity].
  rewrite retire_phase_ctl.
  destruct (retire_phase e4) as [e5 t5]. reflexivity.
Qed.

Lemma sample_ctl dt x e :
  AudioCallback_sample x (set_controls dt wm fb e)
  = (fun r => (g (fst (fst r)), snd (fst r), snd r)) <$> AudioCallback_sample x e.
Proof.
  rewrite !sample_body. rewrite <- body_ctl. reflexivity.
Qed.

End Controls.

Lemma erase_set_controls dt wm fb e : erase (set_controls dt wm fb e) = erase e.
Proof. reflexivity. Qed.

Lemma erase_main_loop rs e : erase (main_loop rs e) = erase e.
Proof.
  unfold main_loop. revert e.
  induction rs as [|[[a0 a1] a2] rs IH]; intros e; [reflexivity|].
  simpl. rewrite IH. reflexivity.
Qed.

Lemma sample_erase x e :
  observed1 (AudioCallback_sample x (erase e)) = observed1 (AudioCallback_sample x e).
Proof.
  unfold erase at 1. rewrite sample_ctl.
  destruct (AudioCallback_sample x e) as [[[e' o] t]|]; reflexivity.
Qed.

Lemma sample_same_core x e1 e2 :
  erase e1 = erase e2 ->
  observed1 (AudioCallback_sample x e1) = observed1 (AudioCallback_sample x e2).
Proof.
  intros H. rewrite <- (sample_erase x e1), <- (sample_erase x e2), H. reflexivity.
Qed.

Lemma run_sched_same_core s1 s2 xs :
  forall k1 k2 e1 e2,
    erase e1 = erase e2 ->
    observed (run_sched s1 k1 xs e1) = observed (run_sched s2 k2 xs e2).
Proof.
  induction xs as [|x xs IH]; intros k1 k2 e1 e2 He; [reflexivity|].
  simpl.
  assert (Hm : erase (main_loop (s1 k1) e1) = erase (main_loop (s2 k2) e2))
    by (rewrite !erase_main_loop; exact He).
  pose proof (sample_same_core x _ _ Hm) as Hs.
  destruct (AudioCallback_sample x (main_loop (s1 k1) e1)) as [[[e1' o1] t1]|];
    destruct (AudioCallback_sample x (main_loop (s2 k2) e2)) as [[[e2' o2] t2]|];
    simpl in Hs; try discriminate; [|reflexivity].
  assert (He' : erase e1' = erase e2') by congruence.
  assert (o1 = o2) by congruence. assert (t1 = t2) by congruence.
  subst o2 t2. clear Hs. simpl.
  specialize (IH (S k1) (S k2) e1' e2' He').
  destruct (run_sched s1 (S k1) xs e1') as [[[e1'' os1] ts1]|];
    destruct (run_sched s2 (S k2) xs e2') as [[[e2'' os2] ts2]|];
    simpl in *; try discriminate; [|reflexivity].
  injection IH as <- <-. reflexivity.
Qed.

Lemma run_sched_idle xs : forall k e,
  run_sched (fun _ => []) k xs e = AudioCallback xs e.
Proof.
  unfold AudioCallback. induction xs as [|x xs IH]; intros k e; [reflexivity|].
  simpl.
  destruct (AudioCallback_sample x e) as [[[e1 o] t]|]; [simpl|reflexivity].
  rewrite IH. reflexivity.
Qed.

(** C2: the control inputs have no influence on the output.  Two runs of
    the audio callback over the same input samples, from states that differ
    at most in delayTimeSec, wetMix and feedback, and with any two schedules
    of stores by the loop of [main] between the samples, produce the same
    output samples and the same events; in particular a run with control
    activity is indistinguishable from the callback run alone. *)
Theorem control_noninterference s1 s2 xs e dt wm fb :
  observed (run_sched s1 0 xs (set_controls dt wm fb e))
  = observed (run_sched s2 0 xs e) /\
  observed (run_sched s1 0 xs (set_controls dt wm fb e))
  = observed (AudioCallback xs e).
Proof.
  split.
  - apply run_sched_same_core. apply erase_set_controls.
  - rewrite <- (run_sched_idle xs 0%nat e).
    apply run_sched_same_core. apply erase_set_controls.
Qed.

(** ** Segment starts and the lead/lag flag *)

Lemma starts_app t1 t2 : starts (t1 ++ t2) = (starts t1 + starts t2)%nat.
Proof. unfold starts. rewrite filter_app, length_app. reflexivity. Qed.

Lemma starts_none t :
  Forall (fun ev => is_start ev = false) t -> starts t = 0%nat.
Proof.
  unfold starts. induction 1 as [|ev t Hev _ IH]; [reflexivity|].
  rewrite filter_cons_False; [exact IH|]. rewrite Hev. discriminate.
Qed.

Lemma read_events_no_start e : starts (read_events e) = 0%nat.
Proof.
  unfold read_events.
  destruct (active (segA e)), (active (segB e)); reflexivity.
Qed.

Lemma retire_events_no_start e : starts (snd (retire_phase e)) = 0%nat.
Proof.
  apply starts_none. eapply Forall_impl; [apply retire_events_deactivate|].
  intros [] H; simpl in *; discriminate || reflexivity.
Qed.

Lemma aLag_retire_advance e :
  aLag (advance_phase (fst (retire_phase e))) = aLag e.
Proof. exact (proj1 (proj2 (retire_proj e))). Qed.

Lemma body_flag d x e e' o t :
  AudioCallback_body d x e = Some (e', o, t) ->
  aLag e' = Nat.iter (starts t) negb (aLag e).
Proof.
  intros H. apply body_cases in H.
  destruct H as (e1 & t1 & e4 & t4 & H1 & H4 & -> & _ & ->).
  rewrite aLag_retire_advance.
  rewrite !starts_app, read_events_no_start, retire_events_no_start.
  pose proof (mixed_proj x e1) as (_ & Hl & _).
  assert (Hh : forall L, aLag (handoff L (mixed_state x e1)) = negb (aLag e1))
    by (intros L; rewrite <- Hl; reflexivity).
  destruct H1 as [(_ & -> & ->) | (_ & L & _ & -> & ->)];
    destruct H4 as [(_ & -> & ->) | (_ & L' & _ & -> & ->)];
    rewrite ?Hh, ?Hl; reflexivity.
Qed.

(** C9: segment start.  Every call StartSegment(s, at, length), also on a
    segment that is already active, leaves that segment with
    head = start = at, played = 0, active = true and the given length,
    toggles the shared lead/lag flag once and leaves the other segment as it
    was.  Over one sample the flag is toggled once for each segment start of
    that sample, so it keeps its value on a sample with no start. *)
Theorem start_segment_spec d x e e' o t :
  AudioCallback_body d x e = Some (e', o, t) ->
  (forall w cw n e0,
      seg w (StartSegment w cw n e0) = mkSegment cw cw n 0 true /\
      head (seg w (StartSegment w cw n e0)) = cw /\
      start (seg w (StartSegment w cw n e0)) = cw /\
      played (seg w (StartSegment w cw n e0)) = 0 /\
      active (seg w (StartSegment w cw n e0)) = true /\
      aLag (StartSegment w cw n e0) = negb (aLag e0) /\
      seg (other_seg w) (StartSegment w cw n e0) = seg (other_seg w) e0) /\
  aLag e' = Nat.iter (starts t) negb (aLag e) /\
  (starts t = 0%nat -> aLag e' = aLag e).
Proof.
  intros H. split; [|split].
  - intros w cw n e0. destruct w; repeat split; reflexivity.
  - exact (body_flag _ _ _ _ _ _ H).
  - intros H0. rewrite (body_flag _ _ _ _ _ _ H), H0. reflexivity.
Qed.

Lemma start_segment_spec_witness :
  exists e' o t,
    AudioCallback_body delayTimeSamp_now F32.zero
      (set_delayTimeSec delayTimeSec_now init) = Some (e', o, t) /\
    aLag e' = Nat.iter (starts t) negb (aLag (set_delayTimeSec delayTimeSec_now init)).
Proof.
  pose proof (first_sample F32.zero) as H. rewrite sample_body in H.
  eexists _, _, _. split; [exact H|].
  exact (proj1 (proj2 (start_segment_spec _ _ _ _ _ _ H))).
Defined.

(** ** Order of the events of one sample *)

Lemma precedes_no_P P Q t :
  Forall (fun ev => P ev = false) t -> precedes P Q t.
Proof.
  intros HF i j a b Hi _ Ha _. rewrite Forall_lookup in HF.
  rewrite (HF i a Hi) in Ha. discriminate.
Qed.

Lemma precedes_no_Q P Q t :
  Forall (fun ev => Q ev = false) t -> precedes P Q t.
Proof.
  intros HF i j a b _ Hj _ Hb. rewrite Forall_lookup in HF.
  rewrite (HF j b Hj) in Hb. discriminate.
Qed.

Lemma precedes_app P Q l1 l2 :
  precedes P Q l1 -> precedes P Q l2 ->
  Forall (fun ev => Q ev = false) l1 \/ Forall (fun ev => P ev = false) l2 ->
  precedes P Q (l1 ++ l2).
Proof.
  intros H1 H2 Hx i j a b Hi Hj Ha Hb.
  apply lookup_app_Some in Hi. apply lookup_app_Some in Hj.
  destruct Hi as [Hi | [Hli Hi]]; destruct Hj as [Hj | [Hlj Hj]].
  - exact (H1 i j a b Hi Hj Ha Hb).
  - apply lookup_lt_Some in Hi. lia.
  - exfalso. rewrite !Forall_lookup in Hx. destruct Hx as [Hx | Hx].
    + rewrite (Hx j b Hj) in Hb. discriminate.
    + rewrite (Hx _ a Hi) in Ha. discriminate.
  - pose proof (H2 _ _ a b Hi Hj Ha Hb). lia.
Qed.

Lemma Forall_kind (K P : event -> bool) t :
  Forall (fun ev => K ev = true) t ->
  (forall ev, K ev = true -> P ev = false) ->
  Forall (fun ev => P ev = false) t.
Proof. intros HF HK. eapply Forall_impl; [exact HF|]. exact HK. Qed.

Lemma read_events_steps e : Forall (fun ev => is_step ev = true) (read_events e).
Proof.
  unfold read_events.
  destruct (active (segA e)), (active (segB e)); repeat constructor.
Qed.

Ltac kind_false :=
  first
    [ solve [unfold startup_events; repeat constructor]
    | solve [apply (Forall_kind is_step);
             [apply read_events_steps | intros []; simpl; congruence]]
    | solve [apply (Forall_kind is_deactivate);
             [apply retire_events_deactivate | intros []; simpl; congruence]] ].

Lemma body_trace_order d x e e' o t :
  AudioCallback_body d x e = Some (e', o, t) ->
  precedes is_step is_write t /\
  precedes is_step is_handoff_start t /\
  (startup e = false -> precedes is_step is_start t).
Proof.
  intros H. apply body_cases in H.
  destruct H as (e1 & t1 & e4 & t4 & H1 & H4 & _ & _ & ->).
  assert (H1' : (startup e = false /\ t1 = []) \/
                (startup e = true /\ exists L, t1 = startup_events L e)).
  { destruct H1 as [(? & _ & ?) | (? & L & _ & _ & ?)]; eauto. }
  assert (H4' : t4 = [] \/ exists w cw L, t4 = [EvStart AtHandoff w cw L]).
  { destruct H4 as [(_ & _ & ?) | (_ & L & _ & _ & ?)]; eauto. }
  clear H1 H4.
  split; [|split].
  - destruct H1' as [(_ & ->) | (Hst & L & ->)]; destruct H4' as [-> | (w & cw & L' & ->)];
      (apply precedes_app; [apply precedes_no_P | | left]; [kind_false| |kind_false]);
      (apply precedes_app; [apply precedes_no_Q | | left]; [kind_false| |kind_false]);
      apply precedes_no_P; repeat apply Forall_app_2; kind_false.
  - destruct H1' as [(_ & ->) | (Hst & L & ->)]; destruct H4' as [-> | (w & cw & L' & ->)];
      (apply precedes_app; [apply precedes_no_P | | left]; [kind_false| |kind_false]);
      (apply precedes_app; [apply precedes_no_Q | | left]; [kind_false| |kind_false]);
      apply precedes_no_P; repeat apply Forall_app_2; kind_false.
  - intros Hs. destruct H1' as [(_ & ->) | (Hst & L & ->)].
    + destruct H4' as [-> | (w & cw & L' & ->)];
        (apply precedes_app; [apply precedes_no_P | | left]; [kind_false| |kind_false]);
        (apply precedes_app; [apply precedes_no_Q | | left]; [kind_false| |kind_false]);
        apply precedes_no_P; repeat apply Forall_app_2; kind_false.
    + congruence.
Qed.

Lemma body_startup_events d x e e' o t :
  AudioCallback_body d x e = Some (e', o, t) -> startup e = true ->
  exists n, t !! 2%nat = Some (EvStart AtStartup SegA (writePos e) n) /\
            t !! 3%nat = Some (EvStep SegA (writePos e)).
Proof.
  intros H Hs. apply body_cases in H.
  destruct H as (e1 & t1 & e4 & t4 & H1 & _ & _ & _ & ->).
  destruct H1 as [(Hf & _) | (_ & L & _ & -> & ->)]; [congruence|].
  exists L. split; [reflexivity|].
  destruct_engine e. reflexivity.
Qed.

(** C4: order of the blocks within one sample.  Among the events of a
    sample every segment step (buffer read) comes before the write of the
    input sample into the history buffer and before a segment start made by
    the scheduler's handoff test, so a segment started by a handoff is not
    stepped after its start on that sample.  The Startup block is different:
    it runs before the read block, so on the Startup sample segment A is
    started (third event) and then stepped (fourth event) on that same
    sample; on every other sample all steps precede all starts. *)
Theorem sample_event_order d x e e' o t :
  AudioCallback_body d x e = Some (e', o, t) ->
  precedes is_step is_write t /\
  precedes is_step is_handoff_start t /\
  (startup e = false -> precedes is_step is_start t) /\
  (startup e = true ->
   exists n, t !! 2%nat = Some (EvStart AtStartup SegA (writePos e) n) /\
             t !! 3%nat = Some (EvStep SegA (writePos e))).
Proof.
  intros H. destruct (body_trace_order _ _ _ _ _ _ H) as (H1 & H2 & H3).
  split; [exact H1|]. split; [exact H2|]. split; [exact H3|].
  apply (body_startup_events _ _ _ _ _ _ H).
Qed.

Lemma sample_event_order_witness :
  exists e' o t,
    AudioCallback_body delayTimeSamp_now F32.zero
      (set_delayTimeSec delayTimeSec_now init) = Some (e', o, t) /\
    precedes is_step is_write t /\ precedes is_step is_handoff_start t.
Proof.
  pose proof (first_sample F32.zero) as H. rewrite sample_body in H.
  eexists _, _, _. split; [exact H|].
  pose proof (sample_event_order _ _ _ _ _ _ H) as (H1 & H2 & _).
  split; [exact H1 | exact H2].
Defined.

(** The claim as stated, that every step of a sample precedes every
    segment start of that sample, the Startup start included, fails on the
    first sample of the program. *)
Lemma startup_start_precedes_step :
  exists e' o t,
    AudioCallback_sample F32.zero init = Some (e', o, t) /\
    ~ precedes is_step is_start t.
Proof.
  pose proof (first_sample F32.zero) as H.
  eexists _, _, _. split; [exact H|].
  rewrite sample_body in H.
  destruct (body_startup_events _ _ _ _ _ _ H eq_refl) as (n & H2 & H3).
  intros Hp.
  pose proof (Hp 3%nat 2%nat _ _ H3 H2 eq_refl eq_refl). lia.
Qed.

(** ** One sample from a state that satisfies the invariant *)

Lemma seg_rel_facts L fg fc ld ot wp :
  kFadeTime < L < 2 ^ size_bits -> 0 <= fc <= kFadeTime -> (fg = false -> fc = 0) ->
  seg_rel L fg fc ld ot ->
  let c := negb (fg && (fc <? kFadeTime))
           && (len (step_if_active ld)
               <=? size_wrap (played (step_if_active ld) + kFadeTime)) in
  c = negb (fg && (fc <? kFadeTime)) && (L <=? played ld + 1 + kFadeTime) /\
  played ld < L /\
  retire_seg (step_if_active ld)
  = (if played ld + 1 <? L
     then mkSegment (wrapDec (head ld)) (start ld) L (played ld + 1) true
     else zero_segment) /\
  (active ot = false ->
   retire_seg (if c then mkSegment wp wp L 0 true else step_if_active ot)
   = if c then mkSegment wp wp L 0 true else zero_segment) /\
  (active ot = true ->
   c = false /\ len ot = L /\ 0 <= played ot < L /\
   retire_seg (step_if_active ot)
   = (if played ot + 1 <? L
      then mkSegment (wrapDec (head ot)) (start ot) L (played ot + 1) true
      else zero_segment)).
Proof.
  intros HL Hc H0 (Ha & Hlen & Hp & Hf & Hnf & Ho).
  unfold seg_rel, step_if_active, stepped, retire_seg, zero_segment in *.
  rewrite kFadeTime_val in *. unfold size_bits in *.
  assert (H32 : 2 ^ 32 = 4294967296) by reflexivity. rewrite H32 in *.
  destruct ld as [hA sA lA pA aA], ot as [hB sB lB pB aB]. simpl in *. subst aA lA.
  destruct fg;
    (destruct Ho as [Ho | (Hfg & Hoa & Hol & Hop)];
     [injection Ho as -> -> -> -> -> | try discriminate; subst aB lB]);
    simpl in *;
    try specialize (Hf eq_refl); try specialize (Hnf eq_refl);
    try specialize (H0 eq_refl).
  all: repeat match goal with
              | |- context [size_wrap ?z] =>
                  rewrite (size_wrap_small z) by (unfold size_bits; lia)
              end.
  all: (repeat (match goal with
            | |- context [?a <? ?b] => destruct (Z.ltb_spec a b); simpl
            end);
    repeat (match goal with
            | |- context [?a <=? ?b] => destruct (Z.leb_spec a b); simpl
            end);
    try lia; intuition (try discriminate; try lia; auto)).
Qed.

Lemma next_facts L x e :
  kFadeTime < L < 2 ^ size_bits -> inv L e -> startup e = false ->
  let w := lead e in
  let c := negb (fading e && (fadeCount e <? kFadeTime))
           && (L <=? played (seg w e) + 1 + kFadeTime) in
  trigger_cond (mixed_state x e) = c /\
  aLag (next_state L x e) = xorb (aLag e) c /\
  lead (next_state L x e) = (if c then other_seg w else w) /\
  fading (next_state L x e) = (fading e && (fadeCount e <? kFadeTime)) || c /\
  fadeCount (next_state L x e)
  = (if fading e then if fadeCount e <? kFadeTime then fadeCount e + 1 else 0
     else fadeCount e) /\
  fadeSwap (next_state L x e)
  = (if fading e && negb (fadeCount e <? kFadeTime)
     then negb (fadeSwap e) else fadeSwap e) /\
  startup (next_state L x e) = false /\
  writePos (next_state L x e) = (writePos e + 1) mod kBufferSize /\
  (active (seg w e) = true /\ len (seg w e) = L /\ 0 <= played (seg w e) < L) /\
  seg w (next_state L x e)
  = (if played (seg w e) + 1 <? L
     then mkSegment (wrapDec (head (seg w e))) (start (seg w e)) L
            (played (seg w e) + 1) true
     else zero_segment) /\
  (active (seg (other_seg w) e) = false ->
   seg (other_seg w) (next_state L x e)
   = if c then mkSegment (writePos e) (writePos e) L 0 true else zero_segment) /\
  (active (seg (other_seg w) e) = true ->
   c = false /\ len (seg (other_seg w) e) = L /\
   0 <= played (seg (other_seg w) e) < L /\
   seg (other_seg w) (next_state L x e)
   = (if played (seg (other_seg w) e) + 1 <? L
      then mkSegment (wrapDec (head (seg (other_seg w) e)))
             (start (seg (other_seg w) e)) L
             (played (seg (other_seg w) e) + 1) true
      else zero_segment)).
Proof.
  intros HL (Hi & Hf & Hs) Hsu w c. specialize (Hs Hsu).
  destruct Hf as (Hc & H0 & _).
  pose proof (seg_rel_facts L _ _ _ _ (writePos e) HL Hc H0 Hs)
    as (Fc & Fp & Fl & Foi & Foa).
  cbv zeta in Fc, Foi, Foa.
  pose proof (next_proj L x e) as (Ns & Nl & Nu & Nf & Nc & Nw & Np).
  cbv zeta in Ns, Nl, Nf.
  assert (Hcm : trigger_cond (mixed_state x e) = c)
    by (rewrite trigger_cond_mixed; exact Fc).
  rewrite Hcm in Ns, Nl, Nf.
  rewrite Fc in Foi, Foa. fold w in Fp, Fl, Foi, Foa, Ns. fold c in Foi, Foa.
  clear Fc.
  destruct Hs as (Ha & Hlen & Hp & _).
  assert (Hwp : size_wrap (writePos e + 1) = writePos e + 1).
  { destruct Hi as (_ & Hw & _). rewrite kBufferSize_val in Hw.
    apply size_wrap_small. unfold size_bits. lia. }
  assert (Hfc : fading e = true -> (fadeCount e <? kFadeTime) = true ->
                size_wrap (fadeCount e + 1) = fadeCount e + 1).
  { intros _ Hlt. apply Z.ltb_lt in Hlt. rewrite kFadeTime_val in *.
    apply size_wrap_small. unfold size_bits. lia. }
  split; [exact Hcm|]. split; [exact Nl|].
  split. { unfold lead at 1. rewrite Nl. subst w. unfold lead.
           destruct (aLag e), c; reflexivity. }
  split; [exact Nf|].
  split. { rewrite Nc. destruct (fading e) eqn:Ef; [|reflexivity].
           destruct (fadeCount e <? kFadeTime) eqn:El; [|reflexivity].
           apply Hfc; reflexivity. }
  split; [exact Nw|]. split; [rewrite Nu; exact Hsu|].
  split; [rewrite Np, Hwp; reflexivity|].
  split; [auto|].
  split. { rewrite Ns. replace (seg_id_eqb w (other_seg w)) with false
             by (destruct w; reflexivity).
           rewrite andb_false_r. exact Fl. }
  split.
  - intros Hoi. rewrite Ns.
    replace (seg_id_eqb (other_seg w) (other_seg w)) with true
      by (destruct w; reflexivity).
    rewrite andb_true_r. apply Foi. exact Hoi.
  - intros Hoa. destruct (Foa Hoa) as (Hcf & Hl' & Hp' & Hr).
    split; [exact Hcf|]. split; [exact Hl'|]. split; [exact Hp'|].
    rewrite Ns, Hcf. simpl. exact Hr.
Qed.

Lemma step_active s L :
  active s = true -> len s = L -> 0 <= played s < L -> L < 2 ^ size_bits ->
  step_if_active s
  = mkSegment (wrapDec (head s)) (start s) L (played s + 1) true.
Proof.
  intros Ha Hl Hp HL. unfold step_if_active, stepped. rewrite Ha, Hl.
  rewrite size_wrap_small by lia. reflexivity.
Qed.

Lemma retire_events_iff e k w :
  In (EvDeactivate k w) (snd (retire_phase e)) <->
  k = AtRetire /\ (len (seg w e) <=? played (seg w e)) = true.
Proof.
  destruct_engine e. unfold retire_phase, retire. simpl.
  destruct (lA <=? pA) eqn:EA; destruct (lB <=? pB) eqn:EB; simpl;
    destruct w; simpl; rewrite ?EA, ?EB; simpl;
    (split; [intros H; intuition (try discriminate; try congruence)
            | intros [-> H]; try discriminate; auto]).
Qed.

Lemma trigger_events_shape L e ev :
  In ev (trigger_events L e) ->
  trigger_cond e = true /\
  ev = EvStart AtHandoff (other_seg (lead e)) (writePos e) L.
Proof.
  unfold trigger_events. destruct (trigger_cond e); simpl; [|tauto].
  intros [<-|[]]. auto.
Qed.

Lemma next_events_deactivate L x e k w :
  In (EvDeactivate k w) (next_events L x e) <->
  k = AtRetire /\
  (len (seg w (trigger_state L (mixed_state x e)))
   <=? played (seg w (trigger_state L (mixed_state x e)))) = true.
Proof.
  unfold next_events. rewrite <- retire_events_iff. split.
  - intros H.
    apply in_app_or in H. destruct H as [H|H];
      [apply read_events_step in H; discriminate|].
    apply in_app_or in H. destruct H as [H|H];
      [destruct H as [H|[]]; discriminate|].
    apply in_app_or in H. destruct H as [H|H]; [|exact H].
    apply trigger_events_shape in H. destruct H as [_ H]. discriminate.
  - intros H. apply in_or_app. right. apply in_or_app. right.
    apply in_or_app. right. exact H.
Qed.

Lemma next_events_start L x e k w cw n :
  In (EvStart k w cw n) (next_events L x e) <->
  trigger_cond (mixed_state x e) = true /\ k = AtHandoff /\
  w = other_seg (lead e) /\ cw = writePos e /\ n = L.
Proof.
  assert (Hl : lead (mixed_state x e) = lead e).
  { unfold lead. rewrite (proj1 (proj2 (mixed_proj x e))). reflexivity. }
  unfold next_events. split.
  - intros H.
    apply in_app_or in H. destruct H as [H|H];
      [apply read_events_step in H; discriminate|].
    apply in_app_or in H. destruct H as [H|H];
      [destruct H as [H|[]]; discriminate|].
    apply in_app_or in H. destruct H as [H|H];
      [|apply retire_events_In in H; discriminate].
    apply trigger_events_shape in H. destruct H as [Hc H].
    rewrite Hl, writePos_mixed in H. injection H as -> -> -> ->. auto.
  - intros (Hc & -> & -> & -> & ->).
    apply in_or_app. right. apply in_or_app. right. apply in_or_app. left.
    unfold trigger_events. rewrite Hc, Hl, writePos_mixed. left. reflexivity.
Qed.

Lemma next_events_starts L x e :
  starts (next_events L x e)
  = if trigger_cond (mixed_state x e) then 1%nat else 0%nat.
Proof.
  unfold next_events.
  rewrite !starts_app, read_events_no_start, retire_events_no_start.
  unfold trigger_events. destruct (trigger_cond (mixed_state x e)); reflexivity.
Qed.

(** One sample of [AudioCallback_with] once Startup has run. *)
Lemma with_steady seconds L x e :
  f32_to_size (F32.mul seconds kSampleRate) = Some L ->
  idx_ok e -> startup e = false ->
  AudioCallback_with seconds x e
  = Some (next_state L x (set_delayTimeSec seconds e),
          next_out x (set_delayTimeSec seconds e),
          next_events L x (set_delayTimeSec seconds e)).
Proof.
  intros HL Hi Hs. rewrite with_body. apply body_steady; assumption.
Qed.

Lemma lead_or_other e w : w = lead e \/ w = other_seg (lead e).
Proof. unfold lead. destruct w, (aLag e); auto. Qed.

Lemma active_seg_step L x e w :
  kFadeTime < L < 2 ^ size_bits -> inv L e -> startup e = false ->
  active (seg w e) = true ->
  len (seg w e) = L /\ 0 <= played (seg w e) < L /\
  seg w (trigger_state L (mixed_state x e))
  = mkSegment (wrapDec (head (seg w e))) (start (seg w e)) L
      (played (seg w e) + 1) true /\
  seg w (next_state L x e)
  = (if played (seg w e) + 1 <? L
     then mkSegment (wrapDec (head (seg w e))) (start (seg w e)) L
            (played (seg w e) + 1) true
     else zero_segment).
Proof.
  intros HL Hi Hs Ha.
  pose proof (next_facts L x e HL Hi Hs)
    as (Hc & _ & _ & _ & _ & _ & _ & _ & (Hla & Hll & Hlp) & Hln & _ & Hoa).
  cbv zeta in *.
  pose proof (trigger_proj L (mixed_state x e)) as (Ts & _).
  pose proof (mixed_proj x e) as (Ms & Ml & _).
  assert (Hlm : lead (mixed_state x e) = lead e)
    by (unfold lead; rewrite Ml; reflexivity).
  rewrite Ts, Ms, Hlm.
  destruct (lead_or_other e w) as [-> | ->].
  - replace (seg_id_eqb (lead e) (other_seg (lead e))) with false
      by (destruct (lead e); reflexivity).
    rewrite andb_false_r.
    rewrite (step_active _ L Hla Hll Hlp) by lia. auto.
  - destruct (Hoa Ha) as (Hcf & Hol & Hop & Hon).
    rewrite Hc, Hcf. simpl.
    rewrite (step_active _ L Ha Hol Hop) by lia. auto.
Qed.

(** C6: no silent gap.  For a delay length L greater than the fade window,
    in every reachable state after Startup at least one of the two segments
    is active (the code has no exception at a segment boundary), and every
    sample steps at least one segment. *)
Theorem no_silent_gap seconds L e :
  f32_to_size (F32.mul seconds kSampleRate) = Some L -> kFadeTime < L ->
  reach (AudioCallback_with seconds) e -> startup e = false ->
  (active (segA e) = true \/ active (segB e) = true) /\
  (forall x, exists e' o t,
      AudioCallback_with seconds x e = Some (e', o, t) /\
      (exists w i, In (EvStep w i) t) /\
      (active (segA e') = true \/ active (segB e') = true)).
Proof.
  intros HL HK Hr Hs.
  pose proof (reach_with_inv _ _ _ HL HK Hr) as Hi.
  assert (Hact : forall e0, inv L e0 -> startup e0 = false ->
                            active (segA e0) = true \/ active (segB e0) = true).
  { intros e0 (_ & _ & H3) H0. destruct (H3 H0) as (Ha & _).
    unfold lead in Ha. destruct (aLag e0); simpl in Ha; auto. }
  split; [exact (Hact e Hi Hs)|].
  intros x. rewrite (with_steady seconds L x e HL (proj1 Hi) Hs).
  eexists _, _, _. split; [reflexivity|]. split.
  - unfold next_events, read_events.
    change (segA (set_delayTimeSec seconds e)) with (segA e).
    change (segB (set_delayTimeSec seconds e)) with (segB e).
    destruct (Hact e Hi Hs) as [Ha | Hb].
    + exists SegA, (head (segA e)). rewrite Ha.
      apply in_or_app. left. apply in_or_app. left. left. reflexivity.
    + exists SegB, (head (segB e)). rewrite Hb.
      apply in_or_app. left. apply in_or_app. right. left. reflexivity.
  - pose proof (f32_to_size_range _ _ HL) as HR.
    apply Hact.
    + apply inv_next; [lia | exact Hs | apply inv_set_delayTimeSec; exact Hi].
    + pose proof (next_proj L x (set_delayTimeSec seconds e)) as (_ & _ & Hu & _).
      rewrite Hu. exact Hs.
Qed.

Lemma first_state_reach :
  reach (AudioCallback_with delayTimeSec_now) after_first.
Proof. exact (reach_step _ init F32.zero _ _ _ (reach_init _) (first_sample F32.zero)). Qed.

Lemma first_state_startup : startup after_first = false.
Proof.
  unfold after_first.
  pose proof (next_proj L_now F32.zero started) as (_ & _ & Hu & _).
  rewrite Hu. reflexivity.
Qed.

Lemma first_state_segA : active (seg SegA after_first) = true.
Proof.
  pose proof (inv_next L_now F32.zero started) as H.
  unfold after_first.
  pose proof (active_seg_step L_now F32.zero started SegA) as Hs.
  destruct Hs as (_ & _ & _ & Hn).
  - rewrite kFadeTime_val. unfold L_now, size_bits. lia.
  - apply inv_startup; [exact L_now_bounds | reflexivity |].
    apply inv_set_delayTimeSec, inv_init.
  - reflexivity.
  - reflexivity.
  - rewrite Hn. reflexivity.
Qed.

Lemma no_silent_gap_witness :
  reach (AudioCallback_with delayTimeSec_now) after_first /\
  startup after_first = false /\
  (active (segA after_first) = true \/
   active (segB after_first) = true).
Proof.
  split; [exact first_state_reach|]. split; [exact first_state_startup|].
  exact (proj1 (no_silent_gap delayTimeSec_now L_now _ delayTimeSamp_now_size
                  L_now_bounds first_state_reach first_state_startup)).
Defined.




(** ** Runs over several samples *)

Lemma run_app step xs ys e :
  run step (xs ++ ys) e
  = '(e1, os1, ts1) ← run step xs e;
    '(e2, os2, ts2) ← run step ys e1;
    Some (e2, os1 ++ os2, ts1 ++ ts2).
Proof.
  revert e. induction xs as [|x xs IH]; intros e; simpl.
  - destruct (run step ys e) as [[[e2 os2] ts2]|]; reflexivity.
  - destruct (step x e) as [[[e1 o] t]|]; [simpl|reflexivity].
    rewrite IH.
    destruct (run step xs e1) as [[[e2 os2] ts2]|]; [simpl|reflexivity].
    destruct (run step ys e2) as [[[e3 os3] ts3]|]; reflexivity.
Qed.

Section Tracking.
Variables (seconds : f32) (L : Z).
Hypothesis HL : f32_to_size (F32.mul seconds kSampleRate) = Some L.
Hypothesis HK : kFadeTime < L.

Lemma L_range : kFadeTime < L < 2 ^ size_bits.
Proof. pose proof (f32_to_size_range _ _ HL). lia. Qed.

(** One sample in terms of the state before it. *)
Lemma with_step x e :
  inv L e -> startup e = false ->
  let c := negb (fading e && (fadeCount e <? kFadeTime))
           && (L <=? played (seg (lead e) e) + 1 + kFadeTime) in
  exists e' o t,
    AudioCallback_with seconds x e = Some (e', o, t) /\
    inv L e' /\ startup e' = false /\
    aLag e' = xorb (aLag e) c /\
    fading e' = (fading e && (fadeCount e <? kFadeTime)) || c /\
    fadeCount e'
    = (if fading e then if fadeCount e <? kFadeTime then fadeCount e + 1 else 0
       else fadeCount e) /\
    fadeSwap e'
    = (if fading e && negb (fadeCount e <? kFadeTime)
       then negb (fadeSwap e) else fadeSwap e) /\
    writePos e' = (writePos e + 1) mod kBufferSize /\
    played (seg (lead e) e')
    = (if played (seg (lead e) e) + 1 <? L then played (seg (lead e) e) + 1 else 0) /\
    starts t = (if c then 1%nat else 0%nat) /\
    (forall k w cw n, In (EvStart k w cw n) t <->
       c = true /\ k = AtHandoff /\ w = other_seg (lead e) /\
       cw = writePos e /\ n = L).
Proof.
  intros Hi Hs c.
  pose proof (inv_set_delayTimeSec L seconds e Hi) as Hi0.
  pose proof (next_facts L x (set_delayTimeSec seconds e) L_range Hi0 Hs)
    as (Hc & Hl & _ & Hf & Hfc & Hfs & Hu & Hw & _ & Hn & _).
  cbv zeta in *.
  change (lead (set_delayTimeSec seconds e)) with (lead e) in *.
  change (seg (lead e) (set_delayTimeSec seconds e)) with (seg (lead e) e) in *.
  change (fading (set_delayTimeSec seconds e)) with (fading e) in *.
  change (fadeCount (set_delayTimeSec seconds e)) with (fadeCount e) in *.
  change (fadeSwap (set_delayTimeSec seconds e)) with (fadeSwap e) in *.
  change (aLag (set_delayTimeSec seconds e)) with (aLag e) in *.
  change (writePos (set_delayTimeSec seconds e)) with (writePos e) in *.
  fold c in Hc, Hl, Hf.
  rewrite (with_steady seconds L x e HL (proj1 Hi) Hs).
  eexists _, _, _. split; [reflexivity|].
  split; [apply inv_next; [exact L_range | exact Hs | exact Hi0]|].
  split; [exact Hu|]. split; [exact Hl|]. split; [exact Hf|].
  split; [exact Hfc|]. split; [exact Hfs|]. split; [exact Hw|].
  split. { rewrite Hn. destruct (_ <? L); reflexivity. }
  split. { rewrite next_events_starts, Hc. reflexivity. }
  intros k w cw n. rewrite next_events_start, Hc. reflexivity.
Qed.


(** A stretch without handoff: no crossfade in progress and the tested
    segment further than a fade window from its end. *)
Lemma run_quiet xs : forall e,
  inv L e -> startup e = false -> fading e = false ->
  played (seg (lead e) e) + Z.of_nat (length xs) + kFadeTime < L ->
  exists e' os ts,
    run (AudioCallback_with seconds) xs e = Some (e', os, ts) /\
    inv L e' /\ startup e' = false /\ fading e' = false /\
    aLag e' = aLag e /\ fadeSwap e' = fadeSwap e /\
    played (seg (lead e) e') = played (seg (lead e) e) + Z.of_nat (length xs) /\
    writePos e' = (writePos e + Z.of_nat (length xs)) mod kBufferSize /\
    length ts = length xs /\
    Forall (fun t => starts t = 0%nat /\ ~ has_handoff t) ts.
Proof.
  pose proof kFadeTime_val as HKv.
  induction xs as [|x xs IH]; intros e Hi Hs Hf Hp.
  - exists e, [], []. simpl. rewrite !Z.add_0_r.
    pose proof (proj1 (proj2 (proj1 Hi))) as Hw.
    rewrite (Z.mod_small _ _ Hw). repeat (split; [solve [auto]|]). constructor.
  - simpl length in *. rewrite Nat2Z.inj_succ in Hp.
    destruct (with_step x e Hi Hs)
      as (e1 & o & t & H1 & Hi1 & Hs1 & Hl1 & Hf1 & _ & Hw1 & Hp1 & Hq1 & Hst & Hin).
    cbv zeta in *. rewrite Hf in *. simpl in *.
    assert (Hc : (L <=? played (seg (lead e) e) + 1 + kFadeTime) = false)
      by (apply Z.leb_gt; clear - Hp HKv; lia).
    rewrite Hc in *. simpl in *. rewrite xorb_false_r in Hl1.
    assert (Hlead : lead e1 = lead e) by (unfold lead; rewrite Hl1; reflexivity).
    destruct (Z.ltb_spec (played (seg (lead e) e) + 1) L) as [_|];
      [|clear - Hp HKv H; lia].
    destruct (IH e1 Hi1 Hs1 Hf1) as (e' & os & ts & Hr & Hi' & Hs' & Hf' & Hl' & Hw' & Hp' & Hq' & Hn & Hall).
    { rewrite Hlead, Hq1. clear - Hp. lia. }
    exists e', (o :: os), (t :: ts). simpl. rewrite H1. simpl. rewrite Hr. simpl.
    split; [reflexivity|]. split; [exact Hi'|]. split; [exact Hs'|].
    split; [exact Hf'|]. split; [congruence|]. split; [congruence|].
    split. { rewrite Hlead in Hp'. rewrite Hp', Hq1. clear. lia. }
    split. { rewrite Hq', Hp1, Zplus_mod_idemp_l. f_equal. clear. lia. }
    split; [congruence|].
    constructor; [|exact Hall].
    split; [exact Hst|]. intros (w & cw & n & Hx). apply Hin in Hx.
    destruct Hx as [Hx _]. discriminate.
Qed.

(** A stretch inside a crossfade. *)
Lemma run_fading xs : forall e,
  inv L e -> startup e = false -> fading e = true ->
  fadeCount e + Z.of_nat (length xs) <= kFadeTime ->
  exists e' os ts,
    run (AudioCallback_with seconds) xs e = Some (e', os, ts) /\
    inv L e' /\ startup e' = false /\ fading e' = true /\
    aLag e' = aLag e /\ fadeSwap e' = fadeSwap e /\
    fadeCount e' = fadeCount e + Z.of_nat (length xs) /\
    writePos e' = (writePos e + Z.of_nat (length xs)) mod kBufferSize /\
    length ts = length xs /\
    Forall (fun t => starts t = 0%nat /\ ~ has_handoff t) ts.
Proof.
  pose proof kFadeTime_val as HKv.
  induction xs as [|x xs IH]; intros e Hi Hs Hf Hp.
  - exists e, [], []. simpl. rewrite !Z.add_0_r.
    pose proof (proj1 (proj2 (proj1 Hi))) as Hw.
    rewrite (Z.mod_small _ _ Hw). repeat (split; [solve [auto]|]). constructor.
  - simpl length in *. rewrite Nat2Z.inj_succ in Hp.
    destruct (with_step x e Hi Hs)
      as (e1 & o & t & H1 & Hi1 & Hs1 & Hl1 & Hf1 & Hc1 & Hw1 & Hp1 & _ & Hst & Hin).
    cbv zeta in *. rewrite Hf in *. simpl in *.
    assert (Hc : (fadeCount e <? kFadeTime) = true)
      by (apply Z.ltb_lt; clear - Hp; lia).
    rewrite Hc in *. simpl in *. rewrite xorb_false_r in Hl1.
    destruct (IH e1 Hi1 Hs1 Hf1) as (e' & os & ts & Hr & Hi' & Hs' & Hf' & Hl' & Hw' & Hc' & Hq' & Hn & Hall).
    { rewrite Hc1. clear - Hp. lia. }
    exists e', (o :: os), (t :: ts). simpl. rewrite H1. simpl. rewrite Hr. simpl.
    split; [reflexivity|]. split; [exact Hi'|]. split; [exact Hs'|].
    split; [exact Hf'|]. split; [congruence|]. split; [congruence|].
    split. { rewrite Hc', Hc1. clear. lia. }
    split. { rewrite Hq', Hp1, Zplus_mod_idemp_l. f_equal. clear. lia. }
    split; [congruence|].
    constructor; [|exact Hall].
    split; [exact Hst|]. intros (w & cw & n & Hx). apply Hin in Hx.
    destruct Hx as [Hx _]. discriminate.
Qed.

(** The sample on which the handoff test fires outside a crossfade. *)
Lemma step_handoff x e :
  inv L e -> startup e = false -> fading e = false ->
  played (seg (lead e) e) + 1 + kFadeTime = L ->
  exists e' o t,
    AudioCallback_with seconds x e = Some (e', o, t) /\
    inv L e' /\ startup e' = false /\ fading e' = true /\
    aLag e' = negb (aLag e) /\ fadeSwap e' = fadeSwap e /\ fadeCount e' = 0 /\
    writePos e' = (writePos e + 1) mod kBufferSize /\
    starts t = 1%nat /\
    In (EvStart AtHandoff (other_seg (lead e)) (writePos e) L) t.
Proof.
  intros Hi Hs Hf Hp.
  destruct (with_step x e Hi Hs)
    as (e1 & o & t & H1 & Hi1 & Hs1 & Hl1 & Hf1 & Hc1 & Hw1 & Hp1 & _ & Hst & Hin).
  cbv zeta in *. rewrite Hf in *. simpl in *.
  assert (Hc : (L <=? played (seg (lead e) e) + 1 + kFadeTime) = true)
    by (apply Z.leb_le; clear - Hp; lia).
  rewrite Hc in *. rewrite xorb_true_r in Hl1.
  exists e1, o, t. split; [exact H1|]. split; [exact Hi1|]. split; [exact Hs1|].
  split; [exact Hf1|]. split; [exact Hl1|]. split; [exact Hw1|].
  split. { rewrite Hc1. destruct Hi as (_ & (_ & H0 & _) & _). auto. }
  split; [exact Hp1|]. split; [exact Hst|].
  apply Hin. auto.
Qed.


(** The first sample runs Startup and then behaves as a sample from the
    started state. *)
Lemma with_init x :
  AudioCallback_with seconds x init
  = Some (next_state L x (started_with seconds L),
          next_out x (started_with seconds L),
          startup_events L init ++ next_events L x (started_with seconds L)).
Proof.
  rewrite with_body.
  apply (body_startup _ L x (set_delayTimeSec seconds init) HL eq_refl).
  exact (proj1 (inv_set_delayTimeSec L _ _ (inv_init L))).
Qed.

Lemma inv_started : inv L (started_with seconds L).
Proof.
  apply inv_startup; [exact HK | reflexivity |].
  apply inv_set_delayTimeSec, inv_init.
Qed.

Lemma with_started x :
  AudioCallback_with seconds x (started_with seconds L)
  = Some (next_state L x (started_with seconds L),
          next_out x (started_with seconds L),
          next_events L x (started_with seconds L)).
Proof.
  exact (with_steady seconds L x (started_with seconds L) HL
           (proj1 inv_started) eq_refl).
Qed.

Lemma run_init x xs :
  run (AudioCallback_with seconds) (x :: xs) init
  = (fun r => (fst (fst r), snd (fst r),
               prefix_first (startup_events L init) (snd r)))
    <$> run (AudioCallback_with seconds) (x :: xs) (started_with seconds L).
Proof.
  simpl. rewrite with_init, with_started. simpl.
  destruct (run _ xs _) as [[[e os] ts]|]; reflexivity.
Qed.


Lemma started_facts :
  startup (started_with seconds L) = false /\
  fading (started_with seconds L) = false /\
  aLag (started_with seconds L) = false /\
  fadeSwap (started_with seconds L) = false /\
  lead (started_with seconds L) = SegA /\
  played (seg SegA (started_with seconds L)) = 0 /\
  writePos (started_with seconds L) = 0.
Proof. repeat split; reflexivity. Qed.

(** The first cycle, from the started state: [length xs1 = L - kFadeTime - 1]
    samples without handoff, the handoff sample, then the crossfade. *)
Lemma cycle_from_started xs1 xh xs2 :
  Z.of_nat (length xs1) = L - kFadeTime - 1 ->
  Z.of_nat (length xs2) <= kFadeTime ->
  exists e os ts1 th ts2,
    run (AudioCallback_with seconds) (xs1 ++ xh :: xs2) (started_with seconds L)
    = Some (e, os, ts1 ++ th :: ts2) /\
    length ts1 = length xs1 /\ length ts2 = length xs2 /\
    Forall (fun t => starts t = 0%nat /\ ~ has_handoff t) ts1 /\
    Forall (fun t => starts t = 0%nat /\ ~ has_handoff t) ts2 /\
    starts th = 1%nat /\
    In (EvStart AtHandoff SegB (Z.of_nat (length xs1) mod kBufferSize) L) th /\
    inv L e /\ startup e = false /\ fading e = true /\ aLag e = true /\
    fadeSwap e = false /\ fadeCount e = Z.of_nat (length xs2).
Proof.
  intros H1 H2.
  destruct started_facts as (Fs & Ff & Fl & Fw & Fd & Fp & Fc).
  destruct (run_quiet xs1 (started_with seconds L) inv_started Fs Ff)
    as (e1 & os1 & ts1 & R1 & I1 & S1 & G1 & A1 & W1 & P1 & C1 & N1 & Q1).
  { rewrite Fd, Fp. lia. }
  rewrite Fd, Fp in P1. rewrite Fl in A1. rewrite Fw in W1. rewrite Fc in C1.
  assert (Hl1 : lead e1 = SegA) by (unfold lead; rewrite A1; reflexivity).
  destruct (step_handoff xh e1 I1 S1 G1)
    as (e2 & o & th & R2 & I2 & S2 & G2 & A2 & W2 & K2 & C2 & N2 & E2).
  { rewrite Hl1, P1. lia. }
  rewrite Hl1 in E2. simpl in E2. rewrite C1 in E2.
  rewrite A1 in A2. rewrite W1 in W2. simpl in A2.
  destruct (run_fading xs2 e2 I2 S2 G2)
    as (e3 & os2 & ts2 & R3 & I3 & S3 & G3 & A3 & W3 & K3 & _ & N3 & Q3).
  { rewrite K2. lia. }
  exists e3, (os1 ++ o :: os2), ts1, th, ts2.
  split.
  { rewrite run_app, R1. simpl. rewrite R2. simpl. rewrite R3. reflexivity. }
  rewrite Z.add_0_l in E2.
  repeat (split; [first [assumption | congruence]|]).
  rewrite K3, K2. lia.
Qed.

End Tracking.

Lemma has_handoff_startup L e t :
  has_handoff (startup_events L e ++ t) <-> has_handoff t.
Proof.
  unfold has_handoff. split; intros (w & cw & n & H); exists w, cw, n.
  - apply in_app_or in H. destruct H as [H|H]; [|exact H].
    simpl in H. intuition discriminate.
  - apply in_or_app. right. exact H.
Qed.

Lemma prefix_first_lookup L e ts k t' :
  prefix_first (startup_events L e) ts !! k = Some t' ->
  exists t, ts !! k = Some t /\ (has_handoff t' <-> has_handoff t) /\
            (forall ev, In ev t -> In ev t').
Proof.
  destruct ts as [|t0 ts]; [discriminate|]. destruct k as [|k]; intros H.
  - change (Some (startup_events L e ++ t0) = Some t') in H. injection H as <-.
    exists t0. split; [reflexivity|].
    split; [exact (has_handoff_startup L e t0)|]. intros ev H. simpl. tauto.
  - exists t'. split; [exact H | tauto].
Qed.

Lemma starts_concat_none ts :
  Forall (fun t => starts t = 0%nat /\ ~ has_handoff t) ts ->
  starts (concat ts) = 0%nat.
Proof.
  induction 1 as [|t ts [Ht _] _ IH]; [reflexivity|].
  simpl. rewrite starts_app, Ht, IH. reflexivity.
Qed.

Lemma starts_prefix_first L e ts :
  ts <> [] ->
  starts (concat (prefix_first (startup_events L e) ts)) = S (starts (concat ts)).
Proof.
  destruct ts as [|t ts]; [congruence|]. intros _.
  change (starts ((startup_events L e ++ t) ++ concat ts)
          = S (starts (t ++ concat ts))).
  rewrite <- app_assoc, starts_app. reflexivity.
Qed.

Lemma length_prefix_first p ts : length (prefix_first p ts) = length ts.
Proof. destruct ts; reflexivity. Qed.

Lemma run_reach step xs : forall e0 e1 os ts,
  reach step e0 -> run step xs e0 = Some (e1, os, ts) -> reach step e1.
Proof.
  induction xs as [|x xs IH]; intros e0 e1 os1 ts Hr Hx; simpl in Hx.
  - injection Hx as <- _ _. exact Hr.
  - destruct (step x e0) as [[[e2 o2] t2]|] eqn:E2; [simpl in Hx|discriminate].
    destruct (run step xs e2) as [[[e3 os3] ts3]|] eqn:E3; [simpl in Hx|discriminate].
    injection Hx as <- _ _.
    exact (IH _ _ _ _ (reach_step _ _ _ _ _ _ Hr E2) E3).
Qed.

(** The state just before the first handoff. *)
Lemma quiet_from_init seconds L xs :
  f32_to_size (F32.mul seconds kSampleRate) = Some L -> kFadeTime < L ->
  xs <> [] -> Z.of_nat (length xs) + kFadeTime < L ->
  exists e os ts,
    run (AudioCallback_with seconds) xs init = Some (e, os, ts) /\
    reach (AudioCallback_with seconds) e /\ inv L e /\
    startup e = false /\ fading e = false /\ aLag e = false /\
    played (seg SegA e) = Z.of_nat (length xs) /\
    writePos e = Z.of_nat (length xs) mod kBufferSize.
Proof.
  intros HL HK Hne Hlen.
  destruct (started_facts seconds L) as (Fs & Ff & Fl & Fw & Fd & Fp & Fc).
  destruct (run_quiet seconds L HL HK xs (started_with seconds L)
              (inv_started seconds L HK) Fs Ff)
    as (e & os & ts & R & I1 & S1 & G1 & A1 & _ & P1 & C1 & _).
  { rewrite Fd, Fp. lia. }
  rewrite Fd, Fp in P1. rewrite Fl in A1. rewrite Fc in C1.
  assert (Hrun : run (AudioCallback_with seconds) xs init
                 = Some (e, os, prefix_first (startup_events L init) ts)).
  { destruct xs as [|x xs]; [congruence|].
    rewrite (run_init seconds L HL HK), R. reflexivity. }
  exists e, os, (prefix_first (startup_events L init) ts).
  split; [exact Hrun|].
  split; [exact (run_reach _ _ _ _ _ _ (reach_init _) Hrun)|].
  split; [exact I1|]. split; [exact S1|]. split; [exact G1|]. split; [exact A1|].
  split; [rewrite P1; lia | exact C1].
Qed.

(** The first cycle of a run from the initial state. *)
Lemma first_cycle seconds L xs1 xh xs2 :
  f32_to_size (F32.mul seconds kSampleRate) = Some L -> kFadeTime < L ->
  Z.of_nat (length xs1) = L - kFadeTime - 1 ->
  Z.of_nat (length xs2) <= kFadeTime ->
  exists e os ts,
    run (AudioCallback_with seconds) (xs1 ++ xh :: xs2) init = Some (e, os, ts) /\
    length ts = length (xs1 ++ xh :: xs2) /\
    (forall k t, ts !! k = Some t -> (has_handoff t <-> k = length xs1)) /\
    (exists t, ts !! length xs1 = Some t /\
               In (EvStart AtHandoff SegB (Z.of_nat (length xs1) mod kBufferSize) L) t) /\
    starts (concat ts) = 2%nat /\
    reach (AudioCallback_with seconds) e /\
    startup e = false /\ fading e = true /\ aLag e = true /\
    fadeSwap e = false /\ fadeCount e = Z.of_nat (length xs2) /\
    fade e = ramp false (length xs2).
Proof.
  intros HL HK H1 H2.
  destruct (cycle_from_started seconds L HL HK xs1 xh xs2 H1 H2)
    as (e & os & ts1 & th & ts2 & R & N1 & N2 & Q1 & Q2 & Sh & Eh & Hi & Hs & Hf & Hl & Hw & Hc).
  assert (Hrun : run (AudioCallback_with seconds) (xs1 ++ xh :: xs2) init
                 = Some (e, os, prefix_first (startup_events L init) (ts1 ++ th :: ts2))).
  { destruct (xs1 ++ xh :: xs2) as [|x xs] eqn:E.
    - destruct xs1; discriminate.
    - rewrite (run_init seconds L HL HK), R. reflexivity. }
  exists e, os, (prefix_first (startup_events L init) (ts1 ++ th :: ts2)).
  split; [exact Hrun|].
  assert (Hlook : forall k t, (ts1 ++ th :: ts2) !! k = Some t ->
                              (has_handoff t <-> k = length xs1)).
  { intros k t Hk. rewrite <- N1. apply lookup_app_Some in Hk.
    destruct Hk as [Hk | [Hge Hk]].
    - rewrite Forall_lookup in Q1. destruct (Q1 k t Hk) as [_ Hn].
      apply lookup_lt_Some in Hk. split; [tauto | lia].
    - destruct (k - length ts1)%nat as [|j] eqn:Ej; simpl in Hk.
      + injection Hk as <-. split; [lia|]. intros _. eexists _, _, _. exact Eh.
      + rewrite Forall_lookup in Q2. destruct (Q2 j t Hk) as [_ Hn].
        split; [tauto | lia]. }
  split.
  { rewrite length_prefix_first, !length_app. simpl. congruence. }
  split.
  { intros k t' Hk. apply prefix_first_lookup in Hk.
    destruct Hk as (t & Hk & Hh & _). rewrite Hh. exact (Hlook k t Hk). }
  split.
  { rewrite <- N1 in Eh |- *. destruct ts1 as [|t1 ts1].
    - exists (startup_events L init ++ th). split; [reflexivity|].
      apply in_or_app. right. exact Eh.
    - exists th. split; [|exact Eh].
      change ((ts1 ++ th :: ts2) !! length ts1 = Some th).
      apply list_lookup_middle. reflexivity. }
  split.
  { rewrite starts_prefix_first by (destruct ts1; discriminate).
    rewrite concat_app, starts_app. simpl. rewrite starts_app.
    rewrite (starts_concat_none _ Q1), (starts_concat_none _ Q2), Sh. reflexivity. }
  split; [exact (run_reach _ _ _ _ _ _ (reach_init _) Hrun)|].
  split; [exact Hs|]. split; [exact Hf|]. split; [exact Hl|]. split; [exact Hw|].
  split; [exact Hc|].
  destruct Hi as (_ & (_ & _ & Hr & _) & _).
  rewrite (Hr Hf), Hw, Hc, Nat2Z.id. reflexivity.
Qed.

(** ** The handoff rule *)

Lemma handoff_step seconds L e x e' o t :
  f32_to_size (F32.mul seconds kSampleRate) = Some L -> kFadeTime < L ->
  inv L e -> startup e = false ->
  AudioCallback_with seconds x e = Some (e', o, t) ->
  active (seg (lead e) e) = true /\ len (seg (lead e) e) = L /\
  (has_handoff t <->
   (fading e = false \/ fadeCount e = kFadeTime) /\
   L <= played (seg (lead e) e) + 1 + kFadeTime) /\
  (forall k w cw n,
      In (EvStart k w cw n) t ->
      k = AtHandoff /\ w = other_seg (lead e) /\ cw = writePos e /\ n = L /\
      active (seg w e) = false /\
      fading e' = true /\ fadeCount e' = 0 /\ fade e' = ramp_start (fadeSwap e') /\
      aLag e' = negb (aLag e) /\ lead e' = w /\
      seg w e' = mkSegment cw cw L 0 true).
Proof.
  intros HL HK Hi Hs H.
  pose proof (L_range seconds L HL HK) as HLr.
  pose proof (inv_with _ _ _ _ _ _ _ HL HK Hi H) as Hi'.
  pose proof (inv_set_delayTimeSec L seconds e Hi) as Hi0.
  pose proof (next_facts L x (set_delayTimeSec seconds e) HLr Hi0 Hs)
    as (Hc & Hl & Hld & Hf & Hfc & _ & _ & _ & (Ha & Hlen & Hp) & _ & Hoi & Hoa).
  cbv zeta in *.
  change (lead (set_delayTimeSec seconds e)) with (lead e) in *.
  change (seg (lead e) (set_delayTimeSec seconds e)) with (seg (lead e) e) in *.
  change (seg (other_seg (lead e)) (set_delayTimeSec seconds e))
    with (seg (other_seg (lead e)) e) in *.
  change (fading (set_delayTimeSec seconds e)) with (fading e) in *.
  change (fadeCount (set_delayTimeSec seconds e)) with (fadeCount e) in *.
  change (aLag (set_delayTimeSec seconds e)) with (aLag e) in *.
  change (writePos (set_delayTimeSec seconds e)) with (writePos e) in *.
  rewrite (with_steady seconds L x e HL (proj1 Hi) Hs) in H.
  injection H as <- _ <-.
  set (c := negb (fading e && (fadeCount e <? kFadeTime))
            && (L <=? played (seg (lead e) e) + 1 + kFadeTime)) in *.
  destruct Hi as (_ & (Hfc0 & Hf0 & _) & _).
  assert (Hciff : c = true <->
                  (fading e = false \/ fadeCount e = kFadeTime) /\
                  L <= played (seg (lead e) e) + 1 + kFadeTime).
  { unfold c. rewrite andb_true_iff, negb_true_iff, andb_false_iff,
      Z.leb_le, Z.ltb_ge. clear - Hfc0. intuition lia. }
  split; [exact Ha|]. split; [exact Hlen|]. split.
  - rewrite <- Hciff. unfold has_handoff. split.
    + intros (w & cw & n & Hin). apply next_events_start in Hin.
      rewrite Hc in Hin. tauto.
    + intros Hct. exists (other_seg (lead e)), (writePos e), L.
      apply next_events_start. rewrite Hc. auto.
  - intros k w cw n Hin. apply next_events_start in Hin.
    rewrite Hc in Hin. destruct Hin as (Hct & -> & -> & -> & ->).
    pose proof (proj1 Hciff Hct) as Hcond.
    rewrite Hct in Hoi, Hl, Hld, Hf.
    assert (Hin : active (seg (other_seg (lead e)) e) = false).
    { destruct (active (seg (other_seg (lead e)) e)) eqn:E; [|reflexivity].
      destruct (Hoa eq_refl) as [Hx _]. fold c in Hx. rewrite Hct in Hx.
      discriminate Hx. }
    rewrite orb_true_r in Hf.
    assert (Hfc' : fadeCount (next_state L x (set_delayTimeSec seconds e)) = 0).
    { rewrite Hfc. destruct Hcond as [[Hx | Hx] _].
      - rewrite Hx. auto.
      - destruct (fading e) eqn:Ef.
        + rewrite Hx, Z.ltb_irrefl. reflexivity.
        + exact (Hf0 eq_refl). }
    split; [reflexivity|]. split; [reflexivity|]. split; [reflexivity|].
    split; [reflexivity|]. split; [exact Hin|]. split; [exact Hf|].
    split; [exact Hfc'|]. split.
    { destruct Hi' as (_ & (_ & _ & Hr & _) & _).
      rewrite (Hr Hf), Hfc'. reflexivity. }
    split; [rewrite Hl, xorb_true_r; reflexivity|]. split; [exact Hld|].
    exact (Hoi Hin).
Qed.

(** C3: the handoff rule.  After Startup a new segment is started on a
    sample exactly when no crossfade is in progress once the fade logic of
    that sample has run (none was in progress, or the one in progress had
    counted kFadeTime samples) and the segment selected by the lead/lag flag,
    which is the segment most recently started and is active, has
    playedCount + kFadeTime >= length after its step of that sample.  The
    start sets the crossfade active with the position at the endpoint the
    ramp leaves from, starts the other segment (which is inactive) at the
    write cursor with the configured length, and toggles the flag.  In a run
    from the initial state the first handoff is on global sample
    length - kFadeTime - 1 (Startup on sample 0), no other sample up to the
    end of the first crossfade has one, and the flag has then been toggled
    exactly twice. *)
Theorem handoff_rule seconds L :
  f32_to_size (F32.mul seconds kSampleRate) = Some L -> kFadeTime < L ->
  (forall e x e' o t,
      reach (AudioCallback_with seconds) e -> startup e = false ->
      AudioCallback_with seconds x e = Some (e', o, t) ->
      active (seg (lead e) e) = true /\ len (seg (lead e) e) = L /\
      (has_handoff t <->
       (fading e = false \/ fadeCount e = kFadeTime) /\
       L <= played (seg (lead e) e) + 1 + kFadeTime) /\
      (forall k w cw n,
          In (EvStart k w cw n) t ->
          k = AtHandoff /\ w = other_seg (lead e) /\ cw = writePos e /\ n = L /\
          active (seg w e) = false /\
          fading e' = true /\ fadeCount e' = 0 /\
          fade e' = ramp_start (fadeSwap e') /\
          aLag e' = negb (aLag e) /\ lead e' = w /\
          seg w e' = mkSegment cw cw L 0 true)) /\
  (forall xs1 xh xs2,
      Z.of_nat (length xs1) = L - kFadeTime - 1 ->
      Z.of_nat (length xs2) <= kFadeTime ->
      exists e os ts,
        run (AudioCallback_with seconds) (xs1 ++ xh :: xs2) init = Some (e, os, ts) /\
        (forall k t, ts !! k = Some t -> (has_handoff t <-> k = length xs1)) /\
        (exists t, ts !! length xs1 = Some t /\
                   In (EvStart AtHandoff SegB
                         (Z.of_nat (length xs1) mod kBufferSize) L) t) /\
        starts (concat ts) = 2%nat /\ aLag e = true).
Proof.
  intros HL HK. split.
  - intros e x e' o t Hr Hs H.
    exact (handoff_step seconds L e x e' o t HL HK
             (reach_with_inv _ _ _ HL HK Hr) Hs H).
  - intros xs1 xh xs2 H1 H2.
    destruct (first_cycle seconds L xs1 xh xs2 HL HK H1 H2)
      as (e & os & ts & R & _ & Hk & Hh & Hst & _ & _ & _ & Hl & _).
    exists e, os, ts. auto.
Qed.

(** The loop of the program is the loop for the delay time of line 103. *)
Lemma AudioCallback_with_now xs e :
  AudioCallback xs e = run (AudioCallback_with delayTimeSec_now) xs e.
Proof. reflexivity. Qed.

(** The program itself: its delay length is 47760 samples, the first
    handoff is on global sample 47760 - 9600 - 1 = 38159. *)
Lemma handoff_rule_witness :
  exists e os ts,
    AudioCallback
      (replicate (Z.to_nat 38159) F32.zero ++ F32.zero
         :: replicate (Z.to_nat 2) F32.zero)
      init = Some (e, os, ts) /\
    (forall k t, ts !! k = Some t -> (has_handoff t <-> k = Z.to_nat 38159)) /\
    (exists t, ts !! Z.to_nat 38159 = Some t /\
               In (EvStart AtHandoff SegB 38159 47760) t) /\
    starts (concat ts) = 2%nat /\ aLag e = true.
Proof.
  assert (H1 : Z.of_nat (length (replicate (Z.to_nat 38159) F32.zero))
               = L_now - kFadeTime - 1)
    by (rewrite length_replicate, Z2Nat.id by lia; reflexivity).
  assert (H2 : Z.of_nat (length (replicate (Z.to_nat 2) F32.zero)) <= kFadeTime)
    by (rewrite length_replicate, Z2Nat.id, kFadeTime_val by lia; lia).
  destruct (proj2 (handoff_rule delayTimeSec_now L_now delayTimeSamp_now_size
                     L_now_bounds)
              (replicate (Z.to_nat 38159) F32.zero) F32.zero
              (replicate (Z.to_nat 2) F32.zero) H1 H2)
    as (e & os & ts & R & Hk & Hh & Hst & Hl).
  rewrite length_replicate in Hk, Hh.
  exists e, os, ts. split; [rewrite AudioCallback_with_now; exact R|].
  split; [exact Hk|].
  split; [|split; [exact Hst | exact Hl]].
  destruct Hh as (t & Ht & Hin). exists t. split; [exact Ht|].
  rewrite Z2Nat.id in Hin by lia.
  change (38159 mod kBufferSize) with 38159 in Hin.
  exact Hin.
Defined.

(** ** The crossfade ramp in binary32 *)

Lemma ramp_all_iter P sw n : forall x,
  ramp_all P sw n x = true ->
  forall k, (k <= n)%nat -> P (Nat.iter k (ramp_step sw) x) = true.
Proof.
  induction n as [|n IH]; intros x H k Hk; simpl in H;
    apply andb_true_iff in H; destruct H as [Hx Hn].
  - replace k with O by lia. exact Hx.
  - destruct k as [|k]; [exact Hx|].
    replace (Nat.iter (S k) (ramp_step sw) x)
      with (Nat.iter k (ramp_step sw) (ramp_step sw x)).
    + apply IH; [exact Hn | lia].
    + clear. induction k as [|k IH]; [reflexivity|]. simpl. rewrite IH. reflexivity.
Qed.

Lemma ramp_iter sw k : ramp sw k = Nat.iter k (ramp_step sw) (ramp_start sw).
Proof. induction k as [|k IH]; [reflexivity|]. simpl. rewrite IH. reflexivity. Qed.

Lemma ramp_all_spec P sw n :
  ramp_all P sw n (ramp_start sw) = true ->
  forall k, (k <= n)%nat -> P (ramp sw k) = true.
Proof. intros H k Hk. rewrite ramp_iter. exact (ramp_all_iter P sw n _ H k Hk). Qed.

Lemma ramp_up_end : ramp false (Z.to_nat kFadeTime) = up_end.
Proof. vm_compute. reflexivity. Qed.

Lemma ramp_down_end : ramp true (Z.to_nat kFadeTime) = down_end.
Proof. vm_compute. reflexivity. Qed.

Lemma ramp_rising_all :
  ramp_all ramp_rising false (Z.to_nat (kFadeTime - 1)) (ramp_start false) = true.
Proof. vm_compute. reflexivity. Qed.

Lemma ramp_falling_all :
  ramp_all ramp_falling true (Z.to_nat (kFadeTime - 1)) (ramp_start true) = true.
Proof. vm_compute. reflexivity. Qed.

(** C5 (the code misses the claim): the position of a crossfade does not
    reach the far endpoint.  The counting is as claimed: in every reachable
    state the elapsed count lies in 0..kFadeTime and, while a crossfade is
    active, the position is the start endpoint after that many binary32 steps
    of kFadeStep, each step strictly towards the far endpoint.  But when the
    count has reached kFadeTime the position is 1.0000974 after an upward
    ramp and -0.0000973 after a downward one, outside the range 0..1 the
    source gives for [fade]; every input of 47760 samples from the initial
    state leads to such a state, at the end of the first crossfade. *)
Theorem fade_misses_endpoint :
  (forall e, reach AudioCallback_sample e ->
             0 <= fadeCount e <= kFadeTime /\
             (fading e = true ->
              fade e = ramp (fadeSwap e) (Z.to_nat (fadeCount e)))) /\
  (forall k, (k < Z.to_nat kFadeTime)%nat ->
             F32.ltb (ramp false k) (ramp false (S k)) = true /\
             F32.ltb (ramp true (S k)) (ramp true k) = true) /\
  (forall e, reach AudioCallback_sample e ->
             fading e = true -> fadeCount e = kFadeTime ->
             fade e = if fadeSwap e then down_end else up_end) /\
  (F32.ltb F32.one up_end = true /\ F32.ltb down_end F32.zero = true) /\
  (forall xs1 xh xs2,
      Z.of_nat (length xs1) = L_now - kFadeTime - 1 ->
      Z.of_nat (length xs2) = kFadeTime ->
      exists e os ts,
        AudioCallback (xs1 ++ xh :: xs2) init = Some (e, os, ts) /\
        fading e = true /\ fadeCount e = kFadeTime /\ fadeSwap e = false /\
        fade e = up_end).
Proof.
  split; [|split; [|split; [|split]]].
  - intros e Hr.
    destruct (reachable_inv e Hr) as (_ & (Hc & _ & Hramp & _) & _).
    split; [exact Hc | exact Hramp].
  - intros k Hk.
    assert (Hk' : (k <= Z.to_nat (kFadeTime - 1))%nat)
      by (rewrite kFadeTime_val in *; lia).
    split.
    + exact (ramp_all_spec ramp_rising false _ ramp_rising_all k Hk').
    + exact (ramp_all_spec ramp_falling true _ ramp_falling_all k Hk').
  - intros e Hr Hf Hc.
    destruct (reachable_inv e Hr) as (_ & (_ & _ & Hramp & _) & _).
    rewrite (Hramp Hf), Hc.
    destruct (fadeSwap e); [exact ramp_down_end | exact ramp_up_end].
  - split; reflexivity.
  - intros xs1 xh xs2 H1 H2.
    destruct (first_cycle delayTimeSec_now L_now xs1 xh xs2
                delayTimeSamp_now_size L_now_bounds H1)
      as (e & os & ts & R & _ & _ & _ & _ & _ & _ & Hf & _ & Hw & Hc & Hfd).
    { rewrite H2. lia. }
    exists e, os, ts. split; [exact R|]. split; [exact Hf|].
    split; [rewrite Hc; exact H2|]. split; [exact Hw|].
    rewrite Hfd. rewrite <- ramp_up_end. f_equal.
    rewrite <- H2. rewrite Nat2Z.id. reflexivity.
Qed.

Lemma fade_misses_endpoint_witness :
  exists e os ts,
    AudioCallback
      (replicate (Z.to_nat 38159) F32.zero ++ F32.zero
         :: replicate (Z.to_nat 9600) F32.zero) init = Some (e, os, ts) /\
    fading e = true /\ fadeCount e = kFadeTime /\ fadeSwap e = false /\
    fade e = up_end.
Proof.
  apply (proj2 (proj2 (proj2 (proj2 fade_misses_endpoint)))).
  - rewrite length_replicate, kFadeTime_val. reflexivity.
  - rewrite length_replicate, kFadeTime_val. reflexivity.
Defined.

(** ** Silence *)

Lemma out_zero_up : ramp_all out_zero false (Z.to_nat kFadeTime) (ramp_start false) = true.
Proof. vm_compute. reflexivity. Qed.

Lemma out_zero_down : ramp_all out_zero true (Z.to_nat kFadeTime) (ramp_start true) = true.
Proof. vm_compute. reflexivity. Qed.

Lemma out_zero_ramp_value pos : ramp_value pos -> out_zero pos = true.
Proof.
  intros (sw & k & Hk & ->).
  destruct sw; [exact (ramp_all_spec _ _ _ out_zero_down k Hk)
               | exact (ramp_all_spec _ _ _ out_zero_up k Hk)].
Qed.

Lemma out_zero_init : out_zero xfade_Init_pos = true.
Proof. vm_compute. reflexivity. Qed.

Lemma buffer_next L x e :
  delayBuffer (next_state L x e) = <[Z.to_nat (writePos e) := x]> (delayBuffer e).
Proof.
  unfold next_state, advance_phase. simpl.
  transitivity (delayBuffer (trigger_state L (mixed_state x e))).
  { unfold retire_phase, retire.
    destruct (len (seg SegA _) <=? played (seg SegA _)); simpl;
      match goal with |- context [if ?c then _ else _] => destruct c end;
      reflexivity. }
  transitivity (delayBuffer (mixed_state x e)).
  { unfold trigger_state. destruct (trigger_cond _); [|reflexivity].
    unfold handoff, lead. destruct (aLag _); reflexivity. }
  unfold mixed_state, write_state. simpl.
  rewrite writePos_fade_read.
  pose proof (fade_phase_proj (read_state e)) as (_ & _ & _ & _ & Hb & _).
  rewrite Hb. reflexivity.
Qed.

Lemma zeros_behind_next L e k :
  idx_ok e -> 0 <= k ->
  zeros_behind k e -> zeros_behind (k + 1) (next_state L F32.zero e).
Proof.
  intros (Hl & Hw & _) Hk Hz j Hj.
  pose proof (next_proj L F32.zero e) as (_ & _ & _ & _ & _ & _ & Hp).
  rewrite Hp, buffer_next.
  assert (HN : 0 < kBufferSize) by (rewrite kBufferSize_val; lia).
  rewrite size_wrap_small
    by (rewrite kBufferSize_val in Hw; unfold size_bits; lia).
  replace ((writePos e + 1) mod kBufferSize - 1 - j)
    with ((writePos e + 1) mod kBufferSize - (1 + j)) by lia.
  rewrite Zminus_mod_idemp_l.
  replace (writePos e + 1 - (1 + j)) with (writePos e - j) by lia.
  destruct (Z.eq_dec j 0) as [-> | Hj0].
  - rewrite Z.sub_0_r, (Z.mod_small _ _ Hw).
    apply list_lookup_insert_eq. rewrite Hl. lia.
  - pose proof (Z.mod_pos_bound (writePos e - j) kBufferSize HN) as Hb.
    destruct (Z.eq_dec ((writePos e - j) mod kBufferSize) (writePos e)) as [-> | Hne].
    + apply list_lookup_insert_eq. rewrite Hl. lia.
    + rewrite list_lookup_insert_ne by (intros Heq; apply Z2Nat.inj in Heq; lia).
      replace (writePos e - j) with (writePos e - 1 - (j - 1)) by lia.
      apply Hz. lia.
Qed.

Lemma zeros_behind_all e :
  idx_ok e -> zeros_behind kBufferSize e -> all_zero e.
Proof.
  intros (_ & Hw & _) Hz i Hi.
  assert (HN : 0 < kBufferSize) by (rewrite kBufferSize_val; lia).
  pose proof (Z.mod_pos_bound (writePos e - 1 - i) kBufferSize HN) as Hb.
  specialize (Hz ((writePos e - 1 - i) mod kBufferSize) Hb).
  rewrite Zminus_mod_idemp_r in Hz.
  replace (writePos e - 1 - (writePos e - 1 - i)) with i in Hz by lia.
  rewrite (Z.mod_small _ _ Hi) in Hz. exact Hz.
Qed.

Lemma all_zero_next L e :
  idx_ok e -> all_zero e -> all_zero (next_state L F32.zero e).
Proof.
  intros (Hl & Hw & _) Hz i Hi. rewrite buffer_next.
  destruct (Z.eq_dec i (writePos e)) as [-> | Hne].
  - apply list_lookup_insert_eq. rewrite Hl. lia.
  - rewrite list_lookup_insert_ne by (intros Heq; apply Z2Nat.inj in Heq; lia).
    apply Hz, Hi.
Qed.

Lemma read_of_zero w e : idx_ok e -> all_zero e -> read_of w e = F32.zero.
Proof.
  intros (_ & _ & HA & HB) Hz. unfold read_of.
  destruct (active (seg w e)); [|reflexivity].
  unfold buf_read.
  assert (Hh : 0 <= head (seg w e) < kBufferSize) by (destruct w; assumption).
  destruct (Z.leb_spec 0 (head (seg w e))); [|lia].
  rewrite (Hz _ Hh). reflexivity.
Qed.

Lemma next_out_zero e :
  idx_ok e -> fade_inv e -> all_zero e -> next_out F32.zero e = F32.zero.
Proof.
  intros Hi (_ & _ & _ & _ & _ & Hv & Hp) Hz. unfold next_out.
  rewrite !read_of_zero by assumption.
  pose proof (fade_phase_proj (read_state e)) as (_ & _ & _ & _ & _ & _ & _ & _ & Hpos & _).
  rewrite Hpos.
  change (fading (read_state e)) with (fading e).
  change (fade (read_state e)) with (fade e).
  change (xfade_pos (read_state e)) with (xfade_pos e).
  assert (Hoz : out_zero (if fading e then fade e else xfade_pos e) = true).
  { destruct (fading e); [apply out_zero_ramp_value, Hv|].
    destruct Hp as [-> | Hp]; [exact out_zero_init | apply out_zero_ramp_value, Hp]. }
  unfold out_zero in Hoz.
  destruct (output_sample _ _) as [[]| | |]; try discriminate. reflexivity.
Qed.

Lemma zero_step e :
  inv L_now e ->
  exists e' o t,
    AudioCallback_sample F32.zero e = Some (e', o, t) /\ inv L_now e' /\
    (forall k, 0 <= k -> zeros_behind k e -> zeros_behind (k + 1) e') /\
    (all_zero e -> all_zero e' /\ o = F32.zero).
Proof.
  intros Hi.
  pose proof (inv_set_delayTimeSec L_now delayTimeSec_now e Hi) as Hi0.
  set (e0 := set_delayTimeSec delayTimeSec_now e) in *.
  set (e1 := if startup e0 then startup_state L_now e0 else e0).
  assert (Hi1 : idx_ok e1 /\ fade_inv e1).
  { unfold e1. destruct (startup e0) eqn:Es.
    - split; [apply idx_ok_startup, Hi0 | apply fade_inv_startup; [exact Es | apply Hi0]].
    - split; apply Hi0. }
  assert (Hb : delayBuffer e1 = delayBuffer e /\ writePos e1 = writePos e)
    by (unfold e1; destruct (startup e0); split; reflexivity).
  destruct Hb as [Hb Hw].
  assert (Hzb : forall k, zeros_behind k e -> zeros_behind k e1)
    by (intros k Hz j Hj; rewrite Hb, Hw; exact (Hz j Hj)).
  assert (Haz : all_zero e -> all_zero e1)
    by (intros Hz i Hx; rewrite Hb; exact (Hz i Hx)).
  pose proof (body_total delayTimeSamp_now L_now F32.zero e0
                delayTimeSamp_now_size (proj1 Hi0)) as H.
  cbv zeta in H. fold e1 in H.
  exists (next_state L_now F32.zero e1), (next_out F32.zero e1),
    ((if startup e0 then startup_events L_now e0 else [])
       ++ next_events L_now F32.zero e1).
  split; [rewrite sample_body; exact H|].
  split.
  { eapply (inv_with delayTimeSec_now L_now F32.zero e);
      [exact delayTimeSamp_now_size | exact L_now_bounds | exact Hi |].
    rewrite with_body. exact H. }
  split.
  - intros k Hk Hz. apply zeros_behind_next; [apply Hi1 | exact Hk | exact (Hzb k Hz)].
  - intros Hz. split.
    + apply all_zero_next; [apply Hi1 | exact (Haz Hz)].
    + apply next_out_zero; [apply Hi1 | apply Hi1 | exact (Haz Hz)].
Qed.

Lemma zero_run n : forall e,
  inv L_now e ->
  exists e' os ts,
    run AudioCallback_sample (replicate n F32.zero) e = Some (e', os, ts) /\
    inv L_now e' /\ length os = n /\
    (forall k, 0 <= k -> zeros_behind k e -> zeros_behind (k + Z.of_nat n) e') /\
    (all_zero e -> all_zero e' /\ os = replicate n F32.zero).
Proof.
  induction n as [|n IH]; intros e Hi.
  - exists e, [], []. split; [reflexivity|]. split; [exact Hi|].
    split; [reflexivity|]. split; [|auto].
    intros k _ Hz. rewrite Z.add_0_r. exact Hz.
  - destruct (zero_step e Hi) as (e1 & o & t & H1 & Hi1 & Hz1 & Ha1).
    destruct (IH e1 Hi1) as (e2 & os & ts & H2 & Hi2 & Hn & Hz2 & Ha2).
    exists e2, (o :: os), (t :: ts).
    split; [simpl; rewrite H1; simpl; rewrite H2; reflexivity|].
    split; [exact Hi2|]. split; [simpl; congruence|]. split.
    + intros k Hk Hz.
      replace (k + Z.of_nat (S n)) with (k + 1 + Z.of_nat n) by lia.
      apply Hz2; [lia|]. apply Hz1; assumption.
    + intros Hz. destruct (Ha1 Hz) as [Hz' ->].
      destruct (Ha2 Hz') as [Hz'' ->]. split; [exact Hz''|reflexivity].
Qed.

Lemma all_zero_init : all_zero init.
Proof.
  intros i Hi.
  change (replicate (Z.to_nat kBufferSize) F32.zero !! Z.to_nat i = Some F32.zero).
  apply lookup_replicate. split; [reflexivity | lia].
Qed.

(** C10: silence.  From every reachable state, once more than
    2 * kMaxDelaySamps zero samples have been fed, every further output
    sample of a continuing zero input is exactly zero; and from the initial
    state, whose history buffer is zero, a zero input gives a zero output
    from the first sample on. *)
Theorem zero_input_silence :
  (forall e n m,
      reach AudioCallback_sample e -> 2 * kMaxDelaySamps < Z.of_nat n ->
      exists e' os ts,
        AudioCallback (replicate (n + m) F32.zero) e = Some (e', os, ts) /\
        length os = (n + m)%nat /\
        drop n os = replicate m F32.zero) /\
  (forall m, exists e' ts,
      AudioCallback (replicate m F32.zero) init
      = Some (e', replicate m F32.zero, ts)).
Proof.
  split.
  - intros e n m Hr Hn. pose proof (reachable_inv e Hr) as Hi.
    destruct (zero_run n e Hi) as (e1 & os1 & ts1 & H1 & Hi1 & Hl1 & Hz1 & _).
    destruct (zero_run m e1 Hi1) as (e2 & os2 & ts2 & H2 & Hi2 & Hl2 & _ & Ha2).
    assert (Hall : all_zero e1).
    { apply zeros_behind_all; [apply Hi1|].
      assert (Hz : zeros_behind (0 + Z.of_nat n) e1)
        by (apply Hz1; [lia | intros j Hj; lia]).
      intros j Hj. apply Hz.
      assert (kMaxDelaySamps = kBufferSize - 480) by reflexivity.
      rewrite kBufferSize_val in *. lia. }
    destruct (Ha2 Hall) as [_ ->].
    exists e2, (os1 ++ replicate m F32.zero), (ts1 ++ ts2).
    split.
    { unfold AudioCallback. rewrite replicate_add, run_app, H1. simpl.
      rewrite H2. reflexivity. }
    split; [rewrite length_app, length_replicate; congruence|].
    rewrite <- Hl1. apply drop_app_length.
  - intros m.
    destruct (zero_run m init (inv_init L_now)) as (e' & os & ts & H & _ & _ & _ & Ha).
    destruct (Ha all_zero_init) as [_ ->]. exists e', ts. exact H.
Qed.

Lemma zero_input_silence_witness :
  exists e' os ts,
    AudioCallback (replicate (Z.to_nat 191041 + Z.to_nat 3) F32.zero) init
    = Some (e', os, ts) /\
    length os = (Z.to_nat 191041 + Z.to_nat 3)%nat /\
    drop (Z.to_nat 191041) os = replicate (Z.to_nat 3) F32.zero.
Proof.
  apply (proj1 zero_input_silence init (Z.to_nat 191041) (Z.to_nat 3)).
  - apply reach_init.
  - rewrite Z2Nat.id by lia. reflexivity.
Defined.
(** ** The index helpers *)

Lemma wrapDec_mod x :
  0 <= x < kBufferSize -> wrapDec x = (x - 1) mod kBufferSize.
Proof.
  intros H. unfold wrapDec. rewrite kBufferSize_val in *.
  destruct (Z.eqb_spec x 0) as [->|Hx]; [reflexivity|].
  rewrite Z.mod_small by lia. reflexivity.
Qed.

Lemma wrapAdd_small a b :
  0 <= a + b < 2 ^ size_bits -> wrapAdd a b = (a + b) mod kBufferSize.
Proof. intros H. unfold wrapAdd. rewrite size_wrap_small by exact H. reflexivity. Qed.

(** Stepping a head back and advancing it by one undo each other, and the
    step back is subtraction modulo the capacity. *)
Theorem wrapDec_wrapAdd_inverse x :
  0 <= x < kBufferSize ->
  0 <= wrapDec x < kBufferSize /\
  wrapDec x = (x - 1) mod kBufferSize /\
  wrapAdd (wrapDec x) 1 = x /\
  wrapDec (wrapAdd x 1) = x.
Proof.
  intros H.
  assert (H32 : 2 ^ size_bits = 4294967296) by reflexivity.
  pose proof kBufferSize_val as HN.
  split; [|split; [|split]].
  - rewrite wrapDec_mod by exact H. apply Z.mod_pos_bound. lia.
  - apply wrapDec_mod. exact H.
  - rewrite wrapAdd_small.
    + unfold wrapDec. destruct (Z.eqb_spec x 0) as [->|Hx].
      * rewrite HN. reflexivity.
      * replace (x - 1 + 1) with x by lia. apply Z.mod_small. exact H.
    + unfold wrapDec. destruct (Z.eqb_spec x 0); lia.
  - rewrite wrapAdd_small by lia.
    destruct (Z.eq_dec (x + 1) kBufferSize) as [He|Hne].
    + rewrite He, Z.mod_same by lia. unfold wrapDec. simpl. lia.
    + rewrite Z.mod_small by lia. unfold wrapDec.
      destruct (Z.eqb_spec (x + 1) 0); lia.
Qed.

Lemma wrapDec_wrapAdd_inverse_witness :
  0 <= wrapDec 0 < kBufferSize /\
  wrapDec 0 = (0 - 1) mod kBufferSize /\
  wrapAdd (wrapDec 0) 1 = 0 /\
  wrapDec (wrapAdd 0 1) = 0.
Proof. apply (wrapDec_wrapAdd_inverse 0). rewrite kBufferSize_val. lia. Defined.

(** [wrapAdd] always yields a valid index.  It is addition modulo the
    capacity as long as the sum fits [size_t]; when the sum overflows, the
    32-bit wrap comes first and the result is not the sum modulo the
    capacity, since 2^32 is not a multiple of the capacity. *)
Theorem wrapAdd_range_overflow a b :
  0 <= a < 2 ^ size_bits -> 0 <= b < 2 ^ size_bits ->
  0 <= wrapAdd a b < kBufferSize /\
  (a + b < 2 ^ size_bits -> wrapAdd a b = (a + b) mod kBufferSize) /\
  (2 ^ size_bits <= a + b ->
   wrapAdd a b = (a + b - 2 ^ size_bits) mod kBufferSize /\
   wrapAdd a b <> (a + b) mod kBufferSize).
Proof.
  intros Ha Hb.
  assert (H32 : 2 ^ size_bits = 4294967296) by reflexivity.
  pose proof kBufferSize_val as HN.
  split; [|split].
  - unfold wrapAdd. apply Z.mod_pos_bound. lia.
  - intros H. apply wrapAdd_small. lia.
  - intros H.
    assert (Hw : wrapAdd a b = (a + b - 2 ^ size_bits) mod kBufferSize).
    { unfold wrapAdd, size_wrap. f_equal.
      rewrite <- (Z.mod_small (a + b - 2 ^ size_bits) (2 ^ size_bits)) by lia.
      replace (a + b) with (a + b - 2 ^ size_bits + 1 * 2 ^ size_bits) at 1 by lia.
      apply Z.mod_add. lia. }
    split; [exact Hw|]. rewrite Hw, H32, HN. intros He.
    assert (Hd : (a + b - (a + b - 4294967296)) mod 96000 = 0).
    { rewrite Zminus_mod, He, Z.sub_diag. reflexivity. }
    replace (a + b - (a + b - 4294967296)) with 4294967296 in Hd by lia.
    discriminate Hd.
Qed.

Lemma wrapAdd_range_overflow_witness :
  0 <= wrapAdd 4294967295 1 < kBufferSize /\
  (4294967295 + 1 < 2 ^ size_bits ->
   wrapAdd 4294967295 1 = (4294967295 + 1) mod kBufferSize) /\
  (2 ^ size_bits <= 4294967295 + 1 ->
   wrapAdd 4294967295 1 = (4294967295 + 1 - 2 ^ size_bits) mod kBufferSize /\
   wrapAdd 4294967295 1 <> (4294967295 + 1) mod kBufferSize).
Proof.
  apply (wrapAdd_range_overflow 4294967295 1); unfold size_bits; lia.
Defined.

(** [clampSize] with ordered bounds: the result lies between the bounds, a
    value between the bounds is returned unchanged, clamping twice is
    clamping once, and the function is monotone. *)
Theorem clampSize_spec v lo hi :
  lo <= hi ->
  lo <= clampSize v lo hi <= hi /\
  (lo <= v <= hi -> clampSize v lo hi = v) /\
  (v < lo -> clampSize v lo hi = lo) /\
  (hi < v -> clampSize v lo hi = hi) /\
  clampSize (clampSize v lo hi) lo hi = clampSize v lo hi /\
  (forall v', v <= v' -> clampSize v lo hi <= clampSize v' lo hi).
Proof.
  intros H. unfold clampSize.
  split; [|split; [|split; [|split; [|split]]]]; intros;
    rewrite ?Z.gtb_ltb;
    repeat match goal with
           | |- context [?a <? ?b] => destruct (Z.ltb_spec a b)
           end; lia.
Qed.

Lemma clampSize_spec_witness :
  kMinDelaySamps <= clampSize 0 kMinDelaySamps kMaxDelaySamps <= kMaxDelaySamps /\
  (kMinDelaySamps <= 0 <= kMaxDelaySamps ->
   clampSize 0 kMinDelaySamps kMaxDelaySamps = 0) /\
  (0 < kMinDelaySamps -> clampSize 0 kMinDelaySamps kMaxDelaySamps = kMinDelaySamps) /\
  (kMaxDelaySamps < 0 -> clampSize 0 kMinDelaySamps kMaxDelaySamps = kMaxDelaySamps) /\
  clampSize (clampSize 0 kMinDelaySamps kMaxDelaySamps) kMinDelaySamps kMaxDelaySamps
  = clampSize 0 kMinDelaySamps kMaxDelaySamps /\
  (forall v', 0 <= v' ->
     clampSize 0 kMinDelaySamps kMaxDelaySamps
     <= clampSize v' kMinDelaySamps kMaxDelaySamps).
Proof. apply (clampSize_spec 0 kMinDelaySamps kMaxDelaySamps). vm_compute. discriminate. Defined.
(** ** A segment walks the buffer backwards *)

Lemma StepSegment_Some w e :
  0 <= head (seg w e) < Z.of_nat (length (delayBuffer e)) ->
  exists y,
    delayBuffer e !! Z.to_nat (head (seg w e)) = Some y /\
    StepSegment w e
    = Some (y, set_seg w (stepped (seg w e)) e).
Proof.
  intros H. unfold StepSegment, buf_read.
  destruct (Z.leb_spec 0 (head (seg w e))) as [_|]; [|lia].
  destruct (lookup_lt_is_Some_2 (delayBuffer e) (Z.to_nat (head (seg w e))))
    as [y Hy]; [lia|].
  exists y. split; [exact Hy|]. rewrite Hy. reflexivity.
Qed.

Lemma StepSegment_None w e :
  head (seg w e) < 0 \/ Z.of_nat (length (delayBuffer e)) <= head (seg w e) ->
  StepSegment w e = None.
Proof.
  intros H. unfold StepSegment, buf_read.
  destruct (Z.leb_spec 0 (head (seg w e))) as [H0|]; [|reflexivity].
  destruct H as [H|H]; [lia|].
  rewrite (lookup_ge_None_2 (delayBuffer e) (Z.to_nat (head (seg w e)))) by lia.
  reflexivity.
Qed.

Lemma seg_set_seg w s e : seg w (set_seg w s e) = s.
Proof. destruct w; reflexivity. Qed.

Lemma seg_set_seg_other w s e : seg (other_seg w) (set_seg w s e) = seg (other_seg w) e.
Proof. destruct w; reflexivity. Qed.

Lemma delayBuffer_set_seg w s e : delayBuffer (set_seg w s e) = delayBuffer e.
Proof. destruct w; reflexivity. Qed.

Lemma aLag_set_seg w s e : aLag (set_seg w s e) = aLag e.
Proof. destruct w; reflexivity. Qed.

Lemma writePos_set_seg w s e : writePos (set_seg w s e) = writePos e.
Proof. destruct w; reflexivity. Qed.

(** [k] steps of a segment whose head is a valid index: the samples are the
    buffer read backwards from the head, wrapping from slot 0 to the last
    slot; the head ends [k] slots back, the played count has grown by [k]
    (modulo 2^32); the buffer, the write cursor, the flag, the other segment
    and the remaining fields of the segment are untouched. *)
Theorem StepSegment_n_reverse k w e :
  length (delayBuffer e) = Z.to_nat kBufferSize ->
  0 <= head (seg w e) < kBufferSize ->
  0 <= played (seg w e) < 2 ^ size_bits ->
  exists ys e',
    StepSegment_n k w e = Some (ys, e') /\
    length ys = k /\
    (forall j, (j < k)%nat ->
       ys !! j
       = delayBuffer e !! Z.to_nat ((head (seg w e) - Z.of_nat j) mod kBufferSize)) /\
    head (seg w e') = (head (seg w e) - Z.of_nat k) mod kBufferSize /\
    played (seg w e') = size_wrap (played (seg w e) + Z.of_nat k) /\
    start (seg w e') = start (seg w e) /\ len (seg w e') = len (seg w e) /\
    active (seg w e') = active (seg w e) /\
    seg (other_seg w) e' = seg (other_seg w) e /\
    delayBuffer e' = delayBuffer e /\ writePos e' = writePos e /\
    aLag e' = aLag e.
Proof.
  pose proof kBufferSize_val as HN.
  revert e. induction k as [|k IH]; intros e Hlen Hh Hp.
  - exists [], e. simpl. split; [reflexivity|]. split; [reflexivity|].
    split; [intros j Hj; lia|].
    rewrite Z.sub_0_r, Z.add_0_r, Z.mod_small by exact Hh.
    rewrite size_wrap_small by exact Hp. repeat split; reflexivity.
  - destruct (StepSegment_Some w e) as (y & Hy & Hs); [rewrite Hlen; lia|].
    set (e1 := set_seg w (stepped (seg w e)) e) in *.
    assert (H1 : seg w e1 = stepped (seg w e)) by apply seg_set_seg.
    assert (Hh1 : head (seg w e1) = (head (seg w e) - 1) mod kBufferSize).
    { rewrite H1. simpl. apply wrapDec_mod. exact Hh. }
    assert (Hb1 : delayBuffer e1 = delayBuffer e) by apply delayBuffer_set_seg.
    destruct (IH e1) as (ys & e' & Hr & Hn & Hj & Hhd & Hpl & Hst & Hle & Hac & Hot & Hbf & Hwp & Hlg).
    { rewrite Hb1. exact Hlen. }
    { rewrite Hh1. apply Z.mod_pos_bound. lia. }
    { rewrite H1. simpl. unfold size_wrap. apply Z.mod_pos_bound. reflexivity. }
    exists (y :: ys), e'. simpl. rewrite Hs. simpl. rewrite Hr. simpl.
    split; [reflexivity|]. split; [rewrite Hn; reflexivity|].
    split.
    { intros [|j] Hlt; simpl.
      - rewrite Z.sub_0_r, Z.mod_small by exact Hh. symmetry. exact Hy.
      - rewrite Hj by lia. rewrite Hb1, Hh1, Zminus_mod_idemp_l.
        do 3 f_equal. lia. }
    split.
    { rewrite Hhd, Hh1, Zminus_mod_idemp_l. f_equal. lia. }
    split.
    { rewrite Hpl, H1. simpl. unfold size_wrap. rewrite Zplus_mod_idemp_l.
      f_equal. lia. }
    rewrite Hst, Hle, Hac, Hot, Hbf, Hwp, Hlg, H1, Hb1.
    split; [reflexivity|]. split; [reflexivity|]. split; [reflexivity|].
    split; [apply seg_set_seg_other|]. split; [reflexivity|].
    split; [apply writePos_set_seg | apply aLag_set_seg].
Qed.

Lemma StepSegment_n_reverse_witness :
  exists ys e',
    StepSegment_n 3 SegA init = Some (ys, e') /\
    length ys = 3%nat /\
    (forall j, (j < 3)%nat ->
       ys !! j
       = delayBuffer init
           !! Z.to_nat ((head (seg SegA init) - Z.of_nat j) mod kBufferSize)) /\
    head (seg SegA e') = (head (seg SegA init) - Z.of_nat 3) mod kBufferSize /\
    played (seg SegA e') = size_wrap (played (seg SegA init) + Z.of_nat 3) /\
    start (seg SegA e') = start (seg SegA init) /\
    len (seg SegA e') = len (seg SegA init) /\
    active (seg SegA e') = active (seg SegA init) /\
    seg (other_seg SegA) e' = seg (other_seg SegA) init /\
    delayBuffer e' = delayBuffer init /\ writePos e' = writePos init /\
    aLag e' = aLag init.
Proof.
  apply (StepSegment_n_reverse 3 SegA init).
  - exact (length_replicate _ _).
  - change (0 <= 0 < kBufferSize). rewrite kBufferSize_val. lia.
  - change (0 <= 0 < 2 ^ size_bits). unfold size_bits. lia.
Defined.
(** ** One sample of the program as a total function *)

Lemma sample_total x e :
  inv L_now e ->
  AudioCallback_sample x e
  = Some (next_state L_now x (entered e), next_out x (entered e),
          (if startup e
           then startup_events L_now (set_delayTimeSec delayTimeSec_now e)
           else []) ++ next_events L_now x (entered e)) /\
  inv L_now (entered e) /\ startup (entered e) = false /\
  inv L_now (next_state L_now x (entered e)) /\
  startup (next_state L_now x (entered e)) = false /\
  delayBuffer (entered e) = delayBuffer e /\ writePos (entered e) = writePos e.
Proof.
  intros Hi.
  pose proof (inv_set_delayTimeSec L_now delayTimeSec_now e Hi) as Hi0.
  pose proof (body_total delayTimeSamp_now L_now x
                (set_delayTimeSec delayTimeSec_now e)
                delayTimeSamp_now_size (proj1 Hi0)) as H.
  cbv zeta in H.
  change (startup (set_delayTimeSec delayTimeSec_now e)) with (startup e) in H.
  fold (entered e) in H.
  assert (HR : kFadeTime < L_now < 2 ^ size_bits).
  { pose proof (f32_to_size_range _ _ delayTimeSamp_now_size).
    pose proof L_now_bounds. lia. }
  assert (Hi1 : inv L_now (entered e) /\ startup (entered e) = false).
  { unfold entered. destruct (startup e) eqn:Es.
    - split; [|reflexivity]. apply inv_startup; [exact L_now_bounds | exact Es | exact Hi0].
    - split; [exact Hi0 | exact Es]. }
  destruct Hi1 as [Hi1 Hs1].
  split; [rewrite sample_body; exact H|].
  split; [exact Hi1|]. split; [exact Hs1|].
  split; [apply inv_next; assumption|].
  split.
  { pose proof (next_proj L_now x (entered e)) as (_ & _ & Hu & _). rewrite Hu. exact Hs1. }
  unfold entered. destruct (startup e); split; reflexivity.
Qed.

(** ** The history buffer as a ring of the latest inputs *)

Lemma behind_next L x e j :
  idx_ok e -> (j < Z.to_nat kBufferSize)%nat ->
  behind (next_state L x e) j
  = match j with O => Some x | S j' => behind e j' end.
Proof.
  intros (Hl & Hw & _) Hj. unfold behind.
  pose proof (next_proj L x e) as (_ & _ & _ & _ & _ & _ & Hp).
  rewrite Hp, buffer_next.
  assert (HN : 0 < kBufferSize) by (rewrite kBufferSize_val; lia).
  rewrite size_wrap_small
    by (rewrite kBufferSize_val in Hw; unfold size_bits; lia).
  replace ((writePos e + 1) mod kBufferSize - 1 - Z.of_nat j)
    with ((writePos e + 1) mod kBufferSize - (1 + Z.of_nat j)) by lia.
  rewrite Zminus_mod_idemp_l.
  replace (writePos e + 1 - (1 + Z.of_nat j)) with (writePos e - Z.of_nat j) by lia.
  destruct j as [|j'].
  - rewrite Z.sub_0_r, (Z.mod_small _ _ Hw).
    apply list_lookup_insert_eq. rewrite Hl. lia.
  - pose proof (Z.mod_pos_bound (writePos e - Z.of_nat (S j')) kBufferSize HN) as Hb.
    assert (Hne : (writePos e - Z.of_nat (S j')) mod kBufferSize <> writePos e).
    { intros Heq.
      assert (Hd : (writePos e - (writePos e - Z.of_nat (S j'))) mod kBufferSize = 0).
      { rewrite Zminus_mod, Heq, (Z.mod_small _ _ Hw), Z.sub_diag. reflexivity. }
      replace (writePos e - (writePos e - Z.of_nat (S j'))) with (Z.of_nat (S j')) in Hd by lia.
      rewrite Z.mod_small in Hd by lia. lia. }
    rewrite list_lookup_insert_ne by (intros Heq; apply Z2Nat.inj in Heq; lia).
    do 2 f_equal. f_equal. lia.
Qed.

Lemma history_run xs : forall e,
  inv L_now e ->
  exists e' os ts,
    run AudioCallback_sample xs e = Some (e', os, ts) /\
    inv L_now e' /\ (xs <> [] -> startup e' = false) /\
    length os = length xs /\ length ts = length xs /\
    writePos e' = (writePos e + Z.of_nat (length xs)) mod kBufferSize /\
    forall j, (j < Z.to_nat kBufferSize)%nat ->
      behind e' j
      = if (j <? length xs)%nat then rev xs !! j else behind e (j - length xs).
Proof.
  induction xs as [|x xs IH]; intros e Hi.
  - exists e, [], []. split; [reflexivity|]. split; [exact Hi|].
    split; [congruence|]. split; [reflexivity|]. split; [reflexivity|].
    split.
    { simpl. rewrite Z.add_0_r. symmetry. apply Z.mod_small, Hi. }
    intros j _. simpl. rewrite Nat.sub_0_r. reflexivity.
  - destruct (sample_total x e Hi) as (H1 & Hi0 & Hs0 & Hi1 & Hs1 & Hb0 & Hw0).
    set (e1 := next_state L_now x (entered e)) in *.
    destruct (IH e1 Hi1) as (e' & os & ts & Hr & Hi' & Hs' & Hno & Hnt & Hw' & Hb').
    eexists e', (_ :: os), (_ :: ts).
    split; [simpl; rewrite H1; simpl; rewrite Hr; reflexivity|].
    split; [exact Hi'|].
    split.
    { intros _. destruct xs as [|y ys]; [|apply Hs'; discriminate].
      simpl in Hr. injection Hr as <- _ _. exact Hs1. }
    split; [simpl; congruence|]. split; [simpl; congruence|].
    assert (Hw1 : writePos e1 = (writePos e + 1) mod kBufferSize).
    { pose proof (next_proj L_now x (entered e)) as (_ & _ & _ & _ & _ & _ & Hp).
      unfold e1. rewrite Hp, Hw0. rewrite size_wrap_small; [reflexivity|].
      pose proof (proj1 (proj2 (proj1 Hi))) as Hw. rewrite kBufferSize_val in Hw.
      unfold size_bits. lia. }
    split.
    { rewrite Hw', Hw1, Zplus_mod_idemp_l. f_equal. simpl length. lia. }
    intros j Hj. rewrite (Hb' j Hj). simpl length. simpl rev.
    destruct (Nat.ltb_spec j (length xs)) as [Hlt|Hge].
    + destruct (Nat.ltb_spec j (S (length xs))); [|lia].
      rewrite lookup_app_l by (rewrite length_rev; lia). reflexivity.
    + unfold e1. rewrite behind_next by (try apply Hi0; lia).
      assert (Hbe : forall i, behind (entered e) i = behind e i)
        by (intros i; unfold behind; rewrite Hb0, Hw0; reflexivity).
      destruct (Nat.ltb_spec j (S (length xs))) as [Hlt|Hge'].
      * replace (j - length xs)%nat with O by lia.
        rewrite lookup_app_r by (rewrite length_rev; lia).
        rewrite length_rev. replace (j - length xs)%nat with O by lia. reflexivity.
      * replace (j - length xs)%nat with (S (j - S (length xs))) by lia.
        apply Hbe.
Qed.

(** The history buffer holds the latest inputs.  After a block [xs] from a
    reachable state, the slot [j] places behind the last slot written holds
    the input of [j] samples before the last one, for every [j] below the
    length of the block and below the capacity; the slots further behind
    hold what they held before the block.  The write cursor has advanced by
    the length of the block, modulo the capacity. *)
Theorem history_buffer e xs :
  reach AudioCallback_sample e ->
  exists e' os ts,
    AudioCallback xs e = Some (e', os, ts) /\
    length os = length xs /\
    writePos e' = (writePos e + Z.of_nat (length xs)) mod kBufferSize /\
    forall j, (j < Z.to_nat kBufferSize)%nat ->
      behind e' j
      = if (j <? length xs)%nat then rev xs !! j else behind e (j - length xs).
Proof.
  intros Hr.
  destruct (history_run xs e (reachable_inv e Hr))
    as (e' & os & ts & H & _ & _ & Hn & _ & Hw & Hb).
  exists e', os, ts. auto.
Qed.

Lemma history_buffer_witness :
  exists e' os ts,
    AudioCallback [F32.one; F32.half] init = Some (e', os, ts) /\
    length os = length [F32.one; F32.half] /\
    writePos e'
    = (writePos init + Z.of_nat (length [F32.one; F32.half])) mod kBufferSize /\
    forall j, (j < Z.to_nat kBufferSize)%nat ->
      behind e' j
      = if (j <? length [F32.one; F32.half])%nat
        then rev [F32.one; F32.half] !! j
        else behind init (j - length [F32.one; F32.half]).
Proof. apply (history_buffer init [F32.one; F32.half]). apply reach_init. Defined.
(** ** Reverse playback *)

Lemma active_played L e w :
  kFadeTime < L -> inv L e -> startup e = false -> active (seg w e) = true ->
  len (seg w e) = L /\ 0 <= played (seg w e) < L.
Proof.
  intros HL (_ & (Hc & _) & Hs) Hu Ha. specialize (Hs Hu).
  destruct Hs as (_ & Hlen & Hp & Hf & Hnf & Ho).
  destruct (lead_or_other e w) as [-> | ->].
  - split; [exact Hlen|]. split; [exact Hp|].
    destruct (fading e); [rewrite (Hf eq_refl) | specialize (Hnf eq_refl)]; lia.
  - destruct Ho as [Ho | (_ & _ & Hol & Hop)].
    + rewrite Ho in Ha. discriminate Ha.
    + split; [exact Hol | lia].
Qed.

Lemma head_inv_next L n x e :
  kFadeTime < L < 2 ^ size_bits -> 0 <= n ->
  inv L e -> startup e = false ->
  head_inv n e -> head_inv (n + 1) (next_state L x e).
Proof.
  intros HL Hn Hi Hu Hh w Ha.
  pose proof kBufferSize_val as HN. pose proof kFadeTime_val as HK.
  destruct Hi as (Hidx & Hrest). pose proof Hidx as (_ & Hw & HhA & HhB).
  assert (Hhw : 0 <= head (seg w e) < kBufferSize) by (destruct w; assumption).
  pose proof (next_proj L x e) as (Ns & _ & _ & _ & _ & _ & Np).
  cbv zeta in Ns. rewrite Ns in Ha |- *. rewrite Np.
  rewrite size_wrap_small by (unfold size_bits; lia).
  destruct (trigger_cond (mixed_state x e) && seg_id_eqb w (other_seg (lead e))).
  - right. unfold retire_seg. simpl.
    destruct (Z.leb_spec L 0); [lia|]. simpl. split; [lia|].
    replace ((writePos e + 1) mod kBufferSize - 1 - 2 * 0)
      with ((writePos e + 1) mod kBufferSize - 1) by lia.
    rewrite Zminus_mod_idemp_l. replace (writePos e + 1 - 1) with (writePos e) by lia.
    symmetry. apply Z.mod_small. exact Hw.
  - destruct (active (seg w e)) eqn:Es.
    + destruct (active_played L e w (proj1 HL) (conj Hidx Hrest) Hu Es) as (Hl & Hp).
      rewrite (step_active (seg w e) L Es Hl Hp (proj2 HL)) in Ha |- *.
      unfold retire_seg in *. cbn [len played] in *.
      destruct (L <=? played (seg w e) + 1); [discriminate Ha|].
      cbn [head played]. rewrite wrapDec_mod by exact Hhw.
      destruct (Hh w Es) as [(Hpn & Hhd) | (Hpn & Hhd)]; [left | right];
        (split; [lia|]); rewrite Hhd, Zminus_mod_idemp_l.
      * rewrite Zminus_mod_idemp_l. f_equal. lia.
      * replace ((writePos e + 1) mod kBufferSize - 1 - 2 * (played (seg w e) + 1))
          with ((writePos e + 1) mod kBufferSize - (1 + 2 * (played (seg w e) + 1)))
          by lia.
        rewrite Zminus_mod_idemp_l. f_equal. lia.
    + unfold step_if_active in Ha. rewrite Es in Ha. unfold retire_seg in Ha.
      destruct (len (seg w e) <=? played (seg w e)); simpl in Ha; congruence.
Qed.

Lemma L_now_range : kFadeTime < L_now < 2 ^ size_bits.
Proof. rewrite kFadeTime_val. unfold L_now, size_bits. lia. Qed.

Lemma head_inv_entered n e :
  startup e = false -> head_inv n e -> head_inv n (entered e).
Proof. intros Hu Hh. unfold entered. rewrite Hu. exact Hh. Qed.

Lemma head_inv_started : head_inv 0 (entered init).
Proof.
  intros w Ha. left. destruct w.
  - split; reflexivity.
  - discriminate Ha.
Qed.

Lemma head_run xs : forall e n e' os ts,
  inv L_now e -> startup e = false -> 0 <= n -> head_inv n e ->
  run AudioCallback_sample xs e = Some (e', os, ts) ->
  head_inv (n + Z.of_nat (length xs)) e'.
Proof.
  induction xs as [|x xs IH]; intros e n e' os ts Hi Hu Hn Hh Hr.
  - simpl in Hr. injection Hr as <- _ _. simpl. rewrite Z.add_0_r. exact Hh.
  - destruct (sample_total x e Hi) as (H1 & Hi0 & Hs0 & Hi1 & Hs1 & _).
    simpl in Hr. rewrite H1 in Hr. simpl in Hr.
    destruct (run AudioCallback_sample xs _) as [[[e2 os2] ts2]|] eqn:E2;
      [|discriminate Hr].
    simpl in Hr. injection Hr as <- _ _.
    replace (n + Z.of_nat (length (x :: xs))) with (n + 1 + Z.of_nat (length xs))
      by (simpl length; lia).
    eapply (IH _ (n + 1)); [exact Hi1 | exact Hs1 | lia | | exact E2].
    apply head_inv_next; [exact L_now_range | exact Hn | exact Hi0 | exact Hs0 |].
    apply head_inv_entered; assumption.
Qed.

Lemma run_cons_inv step x xs e e' os ts :
  run step (x :: xs) e = Some (e', os, ts) ->
  exists e1 o t os' ts',
    step x e = Some (e1, o, t) /\ run step xs e1 = Some (e', os', ts').
Proof.
  simpl. intros H.
  destruct (step x e) as [[[e1 o] t]|]; [simpl in H|discriminate H].
  destruct (run step xs e1) as [[[e2 os2] ts2]|] eqn:E2; [simpl in H|discriminate H].
  exists e1, o, t, os2, ts2. split; [reflexivity|].
  rewrite E2. congruence.
Qed.

Lemma Some_state_eq (e1 e2 : engine) (o1 o2 : f32) (t1 t2 : list event) :
  Some (e1, o1, t1) = Some (e2, o2, t2) -> e1 = e2.
Proof. congruence. Qed.

Lemma head_first x : head_inv 1 (next_state L_now x (entered init)).
Proof.
  destruct (sample_total x init (inv_init L_now)) as (H1 & Hi0 & Hs0 & Hi1 & Hs1 & _).
  apply (head_inv_next L_now 0 x (entered init) L_now_range (Z.le_refl 0) Hi0 Hs0).
  exact head_inv_started.
Qed.

Lemma head_run_init xs e os ts :
  run AudioCallback_sample xs init = Some (e, os, ts) ->
  head_inv (Z.of_nat (length xs)) e.
Proof.
  destruct xs as [|x xs]; intros Hr.
  - injection Hr as <- _ _. intros w Ha. destruct w; discriminate Ha.
  - apply run_cons_inv in Hr. destruct Hr as (e1 & o & t & os' & ts' & Hs & Hr).
    destruct (sample_total x init (inv_init L_now)) as (H1 & Hi0 & Hs0 & Hi1 & Hs1 & _).
    pose proof (Some_state_eq _ _ _ _ _ _ (eq_trans (eq_sym Hs) H1)) as He.
    rewrite He in Hr. clear He Hs H1.
    assert (Hlen : Z.of_nat (length (x :: xs)) = 1 + Z.of_nat (length xs))
      by (simpl length; lia).
    rewrite Hlen.
    exact (head_run xs _ 1 _ _ _ Hi1 Hs1 Z.le_0_1 (head_first x) Hr).
Qed.

Lemma behind_init j : (j < Z.to_nat kBufferSize)%nat -> behind init j = Some F32.zero.
Proof.
  intros Hj. unfold behind. apply all_zero_init.
  apply Z.mod_pos_bound. rewrite kBufferSize_val. lia.
Qed.

Lemma read_of_behind w e j :
  active (seg w e) = true -> 0 <= j ->
  head (seg w e) = (writePos e - 1 - j) mod kBufferSize ->
  read_of w e = default F32.zero (behind e (Z.to_nat j)).
Proof.
  intros Ha Hj Hh. unfold read_of, behind, buf_read. rewrite Ha, Hh.
  rewrite Z2Nat.id by exact Hj.
  destruct (Z.leb_spec 0 ((writePos e - 1 - j) mod kBufferSize)) as [_|H];
    [reflexivity|].
  pose proof (Z.mod_pos_bound (writePos e - 1 - j) kBufferSize) as Hb.
  rewrite kBufferSize_val in *. lia.
Qed.

Lemma next_output x e :
  inv L_now e -> startup e = false ->
  exists e' t,
    AudioCallback_sample x e
    = Some (e', output_sample x
                  (xfade_Process (mix_pos e) (read_of SegA e) (read_of SegB e)), t).
Proof.
  intros Hi Hu.
  destruct (sample_total x e Hi) as (H1 & _).
  eexists _, _. rewrite H1. do 3 f_equal.
  unfold entered. rewrite Hu. unfold next_out, mix_pos.
  pose proof (fade_phase_proj (read_state (set_delayTimeSec delayTimeSec_now e)))
    as (_ & _ & _ & _ & _ & _ & _ & _ & Hpos & _).
  rewrite Hpos. reflexivity.
Qed.

Lemma run_result_eq (e1 e2 : engine) (os1 os2 : list f32)
    (ts1 ts2 : list (list event)) :
  Some (e1, os1, ts1) = Some (e2, os2, ts2) -> e1 = e2.
Proof. congruence. Qed.

Lemma reverse_reads xs e os ts :
  run AudioCallback_sample xs init = Some (e, os, ts) ->
  forall w, active (seg w e) = true ->
    0 <= played (seg w e) <= Z.of_nat (length xs) /\
    (played (seg w e) < Z.of_nat (length xs) ->
     read_of w e = nth (Z.to_nat (2 * played (seg w e))) (rev xs) F32.zero) /\
    (played (seg w e) = Z.of_nat (length xs) -> read_of w e = F32.zero).
Proof.
  intros Hr w Ha.
  destruct (history_run xs init (inv_init L_now))
    as (e2 & os2 & ts2 & Hr2 & Hi & Hu & _ & _ & Hw & Hb).
  assert (He : e2 = e) by exact (run_result_eq _ _ _ _ _ _ (eq_trans (eq_sym Hr2) Hr)).
  subst e2. clear Hr2.
  pose proof (head_run_init xs e os ts Hr) as Hh.
  pose proof kBufferSize_val as HN.
  assert (Hne : xs <> []).
  { intros ->. injection Hr as <- _ _. destruct w; discriminate Ha. }
  destruct (active_played L_now e w L_now_bounds Hi (Hu Hne) Ha) as (_ & Hp).
  unfold L_now in Hp.
  assert (Hbz : forall j, 0 <= j < kBufferSize ->
            default F32.zero (behind e (Z.to_nat j))
            = nth (Z.to_nat j) (rev xs) F32.zero).
  { intros j Hj. rewrite Hb by lia. rewrite nth_lookup.
    destruct (Nat.ltb_spec (Z.to_nat j) (length xs)) as [Hlt|Hge]; [reflexivity|].
    rewrite behind_init by lia.
    rewrite (lookup_ge_None_2 (rev xs)) by (rewrite length_rev; lia).
    reflexivity. }
  destruct (Hh w Ha) as [(Hpn & Hhd) | (Hpn & Hhd)].
  - split; [lia|]. split; [lia|]. intros _.
    assert (Hn1 : 1 <= played (seg w e)).
    { destruct xs; [congruence|]. rewrite Hpn. simpl length. lia. }
    rewrite (read_of_behind w e (2 * played (seg w e) - 1) Ha) by
      (try lia; rewrite Hhd; f_equal; lia).
    rewrite Hbz by lia. rewrite nth_overflow; [reflexivity|].
    rewrite length_rev. lia.
  - split; [lia|]. split; [|lia]. intros _.
    rewrite (read_of_behind w e (2 * played (seg w e)) Ha) by
      (try lia; rewrite Hhd; f_equal; lia).
    apply Hbz. lia.
Qed.

(** Reverse playback.  After any block [xs] from the initial state, an
    active segment that has played [p] samples is about to read the input
    of [2 * p] samples before the latest one: each sample later it reads one
    sample earlier, so the segment plays the input backwards, starting with
    the sample written when it was started.  Where the input stream does not
    reach back that far the segment reads the zero the buffer was
    initialised with, and so does the segment started by Startup during its
    whole life.  The two values are what the next sample mixes, at the
    position [mix_pos]. *)
Theorem reverse_playback xs :
  exists e os ts,
    AudioCallback xs init = Some (e, os, ts) /\
    (forall w, active (seg w e) = true ->
       0 <= played (seg w e) <= Z.of_nat (length xs) /\
       (played (seg w e) < Z.of_nat (length xs) ->
        read_of w e = nth (Z.to_nat (2 * played (seg w e))) (rev xs) F32.zero) /\
       (played (seg w e) = Z.of_nat (length xs) -> read_of w e = F32.zero)) /\
    (xs <> [] ->
     forall x, exists e' t,
       AudioCallback_sample x e
       = Some (e', output_sample x
                     (xfade_Process (mix_pos e) (read_of SegA e) (read_of SegB e)),
               t)).
Proof.
  destruct (history_run xs init (inv_init L_now))
    as (e & os & ts & Hr & Hi & Hu & _).
  exists e, os, ts. split; [exact Hr|].
  split.
  - exact (reverse_reads xs e os ts Hr).
  - intros Hne x. exact (next_output x e Hi (Hu Hne)).
Qed.
(** ** The schedule of handoffs *)

Lemma other_seg_other w : other_seg (other_seg w) = w.
Proof. destruct w; reflexivity. Qed.

Lemma xfade_next L x e :
  xfade_pos (next_state L x e) = if fading e then fade e else xfade_pos e.
Proof.
  unfold next_state, advance_phase. simpl.
  transitivity (xfade_pos (trigger_state L (mixed_state x e))).
  { unfold retire_phase, retire.
    destruct (len (seg SegA _) <=? played (seg SegA _)); simpl;
      match goal with |- context [if ?c then _ else _] => destruct c end;
      reflexivity. }
  transitivity (xfade_pos (mixed_state x e)).
  { unfold trigger_state. destruct (trigger_cond _); [|reflexivity].
    unfold handoff, lead. destruct (aLag _); reflexivity. }
  unfold mixed_state, write_state. simpl.
  pose proof (fade_phase_proj (read_state e)) as (_ & _ & _ & _ & _ & _ & _ & _ & Hp & _).
  rewrite Hp. reflexivity.
Qed.

Lemma phase_next L q m x e :
  kFadeTime < L < 2 ^ size_bits -> 2 * kFadeTime + 1 < L ->
  inv L e -> startup e = false -> phase L q m e ->
  let c := m + 1 =? L - kFadeTime in
  trigger_cond (mixed_state x e) = c /\
  phase L (if c then q + 1 else q) (if c then 0 else m + 1) (next_state L x e).
Proof.
  intros HL H2 Hi Hu (Hq & Hm & Hld & Hla & Hpl & Hfg & Hfc & Hoa & Hop & Hsw & Hxp) c.
  pose proof kFadeTime_val as HK.
  pose proof (next_facts L x e HL Hi Hu)
    as (Nc & _ & Nl & Nf & Nfc & Nsw & _ & _ & _ & Nw & Noi & Noa).
  pose proof (xfade_next L x e) as Nxp.
  pose proof (proj1 (proj2 (proj2 (proj1 (proj2 Hi))))) as Hramp.
  cbv zeta in *.
  set (w := lead e) in *.
  rewrite Hpl in *. rewrite Hfc in *.
  assert (Hc0 : negb (fading e && ((if fading e then m else 0) <? kFadeTime))
                && (L <=? m + 1 + kFadeTime) = c).
  { unfold c. rewrite Hfg.
    destruct (Z.eqb_spec (m + 1) (L - kFadeTime)) as [He|Hne].
    - replace (m <=? kFadeTime) with false by (symmetry; apply Z.leb_gt; lia).
      rewrite andb_false_r. simpl. apply Z.leb_le. lia.
    - replace (L <=? m + 1 + kFadeTime) with false by (symmetry; apply Z.leb_gt; lia).
      apply andb_false_r. }
  rewrite Hc0 in *. split; [exact Nc|].
  unfold phase. rewrite Nl, Nf, Nfc.
  destruct (Z.eqb_spec (m + 1) (L - kFadeTime)) as [He|Hne]; subst c; cbv iota.
  - (* the handoff sample *)
    assert (Hfg0 : fading e = false).
    { rewrite Hfg. replace (m <=? kFadeTime) with false
        by (symmetry; apply Z.leb_gt; lia). apply andb_false_r. }
    assert (Hoi : active (seg (other_seg w) e) = false).
    { rewrite Hoa. replace (m <? kFadeTime) with false
        by (symmetry; apply Z.ltb_ge; lia). apply andb_false_r. }
    rewrite (Noi Hoi), other_seg_other, Nw, Hfg0.
    replace (m + 1 <? L) with true by (symmetry; apply Z.ltb_lt; lia).
    cbn [active played]. rewrite orb_true_r.
    split; [lia|]. split; [lia|].
    split. { rewrite Hld. replace (q + 1) with (Z.succ q) by lia.
             rewrite Z.even_succ, <- Z.negb_even.
             destruct (Z.even q); reflexivity. }
    split; [reflexivity|]. split; [reflexivity|].
    split. { symmetry. apply andb_true_iff. split; [apply Z.ltb_lt | apply Z.leb_le]; lia. }
    split; [reflexivity|].
    split. { symmetry. apply andb_true_iff. split; apply Z.ltb_lt; lia. }
    split; [intros _; lia|].
    split; [|discriminate].
    rewrite Nsw, Hfg0, Hsw. simpl.
    replace (kFadeTime <? m) with true by (symmetry; apply Z.ltb_lt; lia).
    replace (kFadeTime <? 0) with false by (symmetry; apply Z.ltb_ge; lia).
    replace (0 <? q + 1) with true by (symmetry; apply Z.ltb_lt; lia).
    replace (q + 1) with (Z.succ q) by lia.
    rewrite Z.even_succ, <- Z.negb_even, xorb_true_r, xorb_false_r. simpl.
    destruct (Z.ltb_spec 0 q) as [_|Hq0]; [reflexivity|].
    replace q with 0 by lia. reflexivity.
  - (* no handoff *)
    rewrite orb_false_r, Nw.
    replace (m + 1 <? L) with true by (symmetry; apply Z.ltb_lt; lia).
    cbn [active played].
    split; [lia|]. split; [lia|]. split; [exact Hld|].
    split; [reflexivity|]. split; [reflexivity|].
    assert (Hfg' : fading e && ((if fading e then m else 0) <? kFadeTime)
                   = (0 <? q) && (m + 1 <=? kFadeTime)).
    { rewrite Hfg. destruct (0 <? q); [|reflexivity]. simpl.
      destruct (Z.leb_spec m kFadeTime); simpl.
      - destruct (Z.ltb_spec m kFadeTime), (Z.leb_spec (m + 1) kFadeTime); (reflexivity || lia).
      - destruct (Z.leb_spec (m + 1) kFadeTime); (reflexivity || lia). }
    split; [exact Hfg'|].
    split.
    { rewrite Hfg'. rewrite Hfg.
      destruct (0 <? q); [|reflexivity]. simpl.
      destruct (Z.leb_spec m kFadeTime); simpl.
      - destruct (Z.ltb_spec m kFadeTime), (Z.leb_spec (m + 1) kFadeTime); (reflexivity || lia).
      - destruct (Z.leb_spec (m + 1) kFadeTime); (reflexivity || lia). }
    assert (Hmix :
      (if fading e && negb ((if fading e then m else 0) <? kFadeTime)
       then negb (fadeSwap e) else fadeSwap e)
      = (0 <? q) && xorb (Z.even q) (kFadeTime <? m + 1) /\
      (fading e && ((if fading e then m else 0) <? kFadeTime) = false ->
       xfade_pos (next_state L x e)
       = if 0 <? q then ramp (Z.even q) (Z.to_nat kFadeTime) else xfade_Init_pos)).
    { rewrite Nxp, Hsw. clear Nxp.
      destruct (fading e) eqn:Efg; cbv iota; cbn [andb].
      - specialize (Hramp eq_refl). rewrite Hsw in Hramp. cbv iota in Hramp.
        symmetry in Hfg. apply andb_true_iff in Hfg. destruct Hfg as [Hq0 Hmk].
        apply Z.leb_le in Hmk. rewrite Hq0 in Hramp |- *. cbn [andb] in Hramp |- *.
        destruct (Z.ltb_spec m kFadeTime) as [Hlt|Hge]; cbn [negb].
        + replace (kFadeTime <? m) with false by (symmetry; apply Z.ltb_ge; lia).
          replace (kFadeTime <? m + 1) with false by (symmetry; apply Z.ltb_ge; lia).
          split; [reflexivity | discriminate].
        + assert (Hmk' : m = kFadeTime) by lia.
          replace (kFadeTime <? m) with false in Hramp |- *
            by (symmetry; apply Z.ltb_ge; lia).
          replace (kFadeTime <? m + 1) with true by (symmetry; apply Z.ltb_lt; lia).
          rewrite xorb_false_r in Hramp |- *. rewrite xorb_true_r.
          split; [reflexivity|]. intros _. rewrite Hramp, Hmk'. reflexivity.
      - split; [|intros _; exact (Hxp eq_refl)].
        symmetry in Hfg. apply andb_false_iff in Hfg.
        destruct Hfg as [Hq0 | Hmk]; [rewrite Hq0; reflexivity|].
        apply Z.leb_gt in Hmk.
        replace (kFadeTime <? m) with true by (symmetry; apply Z.ltb_lt; lia).
        replace (kFadeTime <? m + 1) with true by (symmetry; apply Z.ltb_lt; lia).
        reflexivity. }
    destruct Hmix as [Hmsw Hmxp]. rewrite Nsw.
    destruct (active (seg (other_seg w) e)) eqn:Eo.
    + destruct (Noa eq_refl) as (_ & _ & _ & Hn). rewrite Hn.
      rewrite (Hop eq_refl).
      symmetry in Hoa. apply andb_true_iff in Hoa. destruct Hoa as [Hq0 Hmk].
      apply Z.ltb_lt in Hmk. rewrite Hq0 in Hmsw, Hmxp |- *.
      cbn [andb] in Hmsw, Hmxp |- *.
      destruct (Z.ltb_spec (L - kFadeTime + m + 1) L), (Z.ltb_spec (m + 1) kFadeTime);
        try lia; cbn [active played];
        (split; [reflexivity|]); (split; [intros; (discriminate || lia)|]);
        (split; [exact Hmsw | exact Hmxp]).
    + rewrite (Noi eq_refl). cbn [active].
      split.
      { symmetry in Hoa. apply andb_false_iff in Hoa. symmetry. apply andb_false_iff.
        destruct Hoa as [Hq0 | Hmk]; [left; exact Hq0 | right].
        apply Z.ltb_ge in Hmk. apply Z.ltb_ge. lia. }
      split; [discriminate|]. split; [exact Hmsw | exact Hmxp].
Qed.

Lemma period_val : L_now - kFadeTime = 38160.
Proof. reflexivity. Qed.

Lemma phase_entered q m e :
  startup e = false -> phase L_now q m e -> phase L_now q m (entered e).
Proof. intros Hu Hp. unfold entered. rewrite Hu. exact Hp. Qed.

Lemma phase_started : phase L_now 0 0 (entered init).
Proof.
  unfold phase. rewrite period_val.
  split; [lia|]. split; [lia|].
  do 6 (split; [reflexivity|]).
  split; [discriminate|]. split; [reflexivity|]. intros _. reflexivity.
Qed.

Lemma In_handoff_startup L e0 t w cw n :
  In (EvStart AtHandoff w cw n) (startup_events L e0 ++ t) <->
  In (EvStart AtHandoff w cw n) t.
Proof.
  split; intros H.
  - apply in_app_or in H. destruct H as [H|H]; [|exact H].
    simpl in H. destruct H as [H|[H|[H|[]]]]; discriminate.
  - apply in_or_app. right. exact H.
Qed.

Lemma sched_step x e g :
  0 <= g -> inv L_now e ->
  phase L_now (g / (L_now - kFadeTime)) (g mod (L_now - kFadeTime)) (entered e) ->
  exists e' o t,
    AudioCallback_sample x e = Some (e', o, t) /\
    inv L_now e' /\ startup e' = false /\
    writePos e' = (writePos e + 1) mod kBufferSize /\
    phase L_now ((g + 1) / (L_now - kFadeTime)) ((g + 1) mod (L_now - kFadeTime)) e' /\
    (has_handoff t <-> (g + 1) mod (L_now - kFadeTime) = 0) /\
    (forall w cw n, In (EvStart AtHandoff w cw n) t ->
       w = (if Z.even ((g + 1) / (L_now - kFadeTime)) then SegA else SegB) /\
       cw = writePos e /\ n = L_now).
Proof.
  intros Hg Hi Hp.
  destruct (sample_total x e Hi) as (H1 & Hi0 & Hs0 & Hi1 & Hs1 & _ & Hw0).
  pose proof kFadeTime_val as HK.
  assert (H2 : 2 * kFadeTime + 1 < L_now) by (rewrite HK; unfold L_now; lia).
  destruct (phase_next L_now _ _ x (entered e) L_now_range H2 Hi0 Hs0 Hp) as (Hc & Hp').
  cbv zeta in Hc, Hp'.
  pose proof (next_proj L_now x (entered e)) as (_ & _ & _ & _ & _ & _ & Np).
  rewrite period_val in *.
  assert (Hdm : if g mod 38160 + 1 =? 38160
                then (g + 1) / 38160 = g / 38160 + 1 /\ (g + 1) mod 38160 = 0
                else (g + 1) / 38160 = g / 38160 /\ (g + 1) mod 38160 = g mod 38160 + 1).
  { destruct (Z.eqb_spec (g mod 38160 + 1) 38160);
      Z.to_euclidean_division_equations; lia. }
  assert (Hcm : (g mod 38160 + 1 =? 38160) = true <-> (g + 1) mod 38160 = 0).
  { destruct (Z.eqb_spec (g mod 38160 + 1) 38160); split; intros; try discriminate;
      try reflexivity; Z.to_euclidean_division_equations; lia. }
  assert (Hlead : other_seg (lead (entered e))
                  = if Z.even (g / 38160 + 1) then SegA else SegB).
  { destruct Hp as (_ & _ & -> & _).
    replace (g / 38160 + 1) with (Z.succ (g / 38160)) by lia.
    rewrite Z.even_succ, <- Z.negb_even. destruct (Z.even _); reflexivity. }
  eexists _, _, _. split; [exact H1|].
  split; [exact Hi1|]. split; [exact Hs1|].
  split.
  { rewrite Np, Hw0. rewrite size_wrap_small; [reflexivity|].
    pose proof (proj1 (proj2 (proj1 Hi))) as Hw. rewrite kBufferSize_val in Hw.
    unfold size_bits. lia. }
  split.
  { destruct (g mod 38160 + 1 =? 38160); destruct Hdm as [-> ->]; exact Hp'. }
  assert (Hev : forall w cw n,
            In (EvStart AtHandoff w cw n)
              ((if startup e
                then startup_events L_now (set_delayTimeSec delayTimeSec_now e)
                else []) ++ next_events L_now x (entered e)) <->
            (g mod 38160 + 1 =? 38160) = true /\
            w = other_seg (lead (entered e)) /\ cw = writePos e /\ n = L_now).
  { intros w cw n.
    assert (Hpre : In (EvStart AtHandoff w cw n)
              ((if startup e
                then startup_events L_now (set_delayTimeSec delayTimeSec_now e)
                else []) ++ next_events L_now x (entered e)) <->
            In (EvStart AtHandoff w cw n) (next_events L_now x (entered e))).
    { destruct (startup e); [apply In_handoff_startup | reflexivity]. }
    rewrite Hpre, next_events_start, Hc, Hw0. tauto. }
  split.
  - rewrite <- Hcm. split.
    + intros (w & cw & n & Hin). apply Hev in Hin. tauto.
    + intros Hct. eexists _, _, _. apply Hev. split; [exact Hct|]. repeat split.
  - intros w cw n Hin. apply Hev in Hin. destruct Hin as (Hct & -> & -> & ->).
    rewrite Hct in Hdm. destruct Hdm as [-> _]. rewrite Hlead. auto.
Qed.

Lemma sched_run xs : forall e g,
  0 <= g -> inv L_now e ->
  phase L_now (g / (L_now - kFadeTime)) (g mod (L_now - kFadeTime)) (entered e) ->
  exists e' os ts,
    run AudioCallback_sample xs e = Some (e', os, ts) /\
    length ts = length xs /\ inv L_now e' /\
    (xs <> [] ->
     startup e' = false /\
     phase L_now ((g + Z.of_nat (length xs)) / (L_now - kFadeTime))
       ((g + Z.of_nat (length xs)) mod (L_now - kFadeTime)) e') /\
    (forall k t, ts !! k = Some t ->
       (has_handoff t <-> (g + Z.of_nat k + 1) mod (L_now - kFadeTime) = 0) /\
       (forall w cw n, In (EvStart AtHandoff w cw n) t ->
          w = (if Z.even ((g + Z.of_nat k + 1) / (L_now - kFadeTime))
               then SegA else SegB) /\
          cw = (writePos e + Z.of_nat k) mod kBufferSize /\ n = L_now)).
Proof.
  induction xs as [|x xs IH]; intros e g Hg Hi Hp.
  - exists e, [], []. split; [reflexivity|]. split; [reflexivity|].
    split; [exact Hi|].
    split; [congruence|]. intros k t Hk. discriminate Hk.
  - destruct (sched_step x e g Hg Hi Hp)
      as (e1 & o & t & H1 & Hi1 & Hs1 & Hw1 & Hp1 & Hh1 & Hin1).
    destruct (IH e1 (g + 1)) as (e' & os & ts & Hr & Hn & Hi' & Hfin & Hev);
      [lia | exact Hi1 | apply phase_entered; assumption |].
    exists e', (o :: os), (t :: ts).
    split; [simpl; rewrite H1; simpl; rewrite Hr; reflexivity|].
    split; [simpl; congruence|]. split; [exact Hi'|].
    split.
    { intros _. replace (g + Z.of_nat (length (x :: xs)))
        with (g + 1 + Z.of_nat (length xs)) by (simpl length; lia).
      destruct xs as [|y ys]; [|apply Hfin; discriminate].
      simpl in Hr. assert (He : e' = e1) by congruence. subst e'.
      simpl length. rewrite Z.add_0_r. split; assumption. }
    intros [|k] t' Hk; simpl in Hk.
    + assert (Ht : t' = t) by congruence. subst t'. rewrite Z.add_0_r.
      split; [exact Hh1|]. intros w cw n Hin.
      destruct (Hin1 w cw n Hin) as (-> & -> & ->).
      split; [reflexivity|]. split; [|reflexivity].
      simpl Z.of_nat. rewrite Z.add_0_r. symmetry. apply Z.mod_small, Hi.
    + destruct (Hev k t' Hk) as (Hh & Hin).
      replace (g + Z.of_nat (S k) + 1) with (g + 1 + Z.of_nat k + 1) by lia.
      split; [exact Hh|]. intros w cw n Hx.
      destruct (Hin w cw n Hx) as (-> & -> & ->).
      split; [reflexivity|]. split; [|reflexivity].
      rewrite Hw1, Zplus_mod_idemp_l. f_equal. lia.
Qed.

(** The schedule of the program.  On any input from the initial state a
    handoff is made on the global samples 38159, 76319, ...: sample [k]
    (counted from 0) starts a segment exactly when [k + 1] is a multiple of
    L_now - kFadeTime = 38160.  The segment started is B on the first
    handoff and alternates from then on, its head is placed at the write
    cursor [k mod kBufferSize] and its length is L_now.  After [n >= 1]
    samples the state is at the place [n mod 38160] of cycle [n / 38160]:
    the flag-selected segment has played [n mod 38160] samples; from the
    first handoff on, a crossfade is active while that count is at most
    kFadeTime and the segment started before is still active while it is
    below kFadeTime ([phase] gives the details). *)
Theorem handoff_schedule xs :
  exists e os ts,
    AudioCallback xs init = Some (e, os, ts) /\
    length ts = length xs /\
    (xs <> [] ->
     startup e = false /\
     phase L_now (Z.of_nat (length xs) / (L_now - kFadeTime))
       (Z.of_nat (length xs) mod (L_now - kFadeTime)) e) /\
    (forall k t, ts !! k = Some t ->
       (has_handoff t <-> (Z.of_nat k + 1) mod (L_now - kFadeTime) = 0) /\
       (forall w cw n, In (EvStart AtHandoff w cw n) t ->
          w = (if Z.even ((Z.of_nat k + 1) / (L_now - kFadeTime))
               then SegA else SegB) /\
          cw = Z.of_nat k mod kBufferSize /\ n = L_now)).
Proof.
  destruct (sched_run xs init 0 (Z.le_refl 0) (inv_init L_now) phase_started)
    as (e & os & ts & Hr & Hn & _ & Hfin & Hev).
  exists e, os, ts. split; [exact Hr|]. split; [exact Hn|].
  split; [exact Hfin | exact Hev].
Qed.
(** ** The schedule does not depend on the audio data *)

Lemma control_read e : control_state (read_state e) = read_state (control_state e).
Proof. destruct_engine e. reflexivity. Qed.

Lemma control_fade e : control_state (fade_phase e) = fade_phase (control_state e).
Proof.
  destruct_engine e. unfold fade_phase, control_state. simpl.
  destruct fg; [|reflexivity]. destruct (fc <? kFadeTime); [|reflexivity].
  destruct fs; reflexivity.
Qed.

Lemma control_write x e : control_state (write_state x e) = control_state e.
Proof. destruct_engine e. reflexivity. Qed.

Lemma control_trigger L e :
  control_state (trigger_state L e) = trigger_state L (control_state e).
Proof.
  destruct_engine e. unfold trigger_state, trigger_cond, handoff, lead, control_state.
  simpl. destruct lag; simpl;
    match goal with |- context [if ?c then _ else _] => destruct c end; reflexivity.
Qed.

Lemma control_retire e :
  control_state (fst (retire_phase e)) = fst (retire_phase (control_state e)) /\
  snd (retire_phase e) = snd (retire_phase (control_state e)).
Proof.
  destruct_engine e. unfold retire_phase, retire, control_state. simpl.
  destruct (lA <=? pA); simpl; destruct (lB <=? pB); simpl; split; reflexivity.
Qed.

Lemma control_advance e :
  control_state (advance_phase e) = advance_phase (control_state e).
Proof. destruct_engine e. reflexivity. Qed.

Lemma control_mixed x e :
  control_state (mixed_state x e) = fade_phase (read_state (control_state e)).
Proof. unfold mixed_state. rewrite control_write, control_fade, control_read. reflexivity. Qed.

Lemma control_next L x e :
  control_state (next_state L x e)
  = advance_phase (fst (retire_phase (trigger_state L
      (fade_phase (read_state (control_state e)))))).
Proof.
  unfold next_state.
  rewrite control_advance, (proj1 (control_retire _)), control_trigger, control_mixed.
  reflexivity.
Qed.

Lemma trigger_events_control L e :
  trigger_events L e = trigger_events L (control_state e).
Proof. destruct_engine e. reflexivity. Qed.

Lemma control_next_events L x e :
  next_events L x e
  = read_events (control_state e) ++ [EvWrite (writePos (control_state e))] ++
    trigger_events L (fade_phase (read_state (control_state e))) ++
    snd (retire_phase (trigger_state L (fade_phase (read_state (control_state e))))).
Proof.
  unfold next_events.
  rewrite (proj2 (control_retire _)), control_trigger, control_mixed.
  rewrite (trigger_events_control L (mixed_state x e)), control_mixed.
  destruct_engine e. reflexivity.
Qed.

Lemma control_entered e : control_state (entered e) = entered (control_state e).
Proof. destruct_engine e. unfold entered. simpl. destruct su; reflexivity. Qed.

Lemma control_sample x y e1 e2 :
  inv L_now e1 -> inv L_now e2 -> control_state e1 = control_state e2 ->
  exists e1' o1 e2' o2 t,
    AudioCallback_sample x e1 = Some (e1', o1, t) /\
    AudioCallback_sample y e2 = Some (e2', o2, t) /\
    inv L_now e1' /\ inv L_now e2' /\ control_state e1' = control_state e2'.
Proof.
  intros Hi1 Hi2 Hc.
  destruct (sample_total x e1 Hi1) as (H1 & _ & _ & Hn1 & _).
  destruct (sample_total y e2 Hi2) as (H2 & _ & _ & Hn2 & _).
  assert (Hce : control_state (entered e1) = control_state (entered e2))
    by (rewrite !control_entered, Hc; reflexivity).
  assert (Hs : startup e1 = startup e2)
    by (change (startup (control_state e1) = startup (control_state e2));
        rewrite Hc; reflexivity).
  assert (Hw : writePos e1 = writePos e2)
    by (change (writePos (control_state e1) = writePos (control_state e2));
        rewrite Hc; reflexivity).
  eexists _, _, _, _, _. split; [exact H1|].
  split.
  { rewrite H2. do 2 f_equal. f_equal.
    - rewrite Hs. destruct (startup e2); [|reflexivity].
      unfold startup_events. change (writePos (set_delayTimeSec delayTimeSec_now e2))
        with (writePos e2).
      change (writePos (set_delayTimeSec delayTimeSec_now e1)) with (writePos e1).
      rewrite Hw. reflexivity.
    - rewrite (control_next_events L_now y), (control_next_events L_now x), Hce.
      reflexivity. }
  split; [exact Hn1|]. split; [exact Hn2|].
  rewrite !control_next, Hce. reflexivity.
Qed.

Lemma control_run xs : forall ys e1 e2,
  length xs = length ys ->
  inv L_now e1 -> inv L_now e2 -> control_state e1 = control_state e2 ->
  exists e1' os1 e2' os2 ts,
    run AudioCallback_sample xs e1 = Some (e1', os1, ts) /\
    run AudioCallback_sample ys e2 = Some (e2', os2, ts) /\
    control_state e1' = control_state e2'.
Proof.
  induction xs as [|x xs IH]; intros [|y ys] e1 e2 Hl Hi1 Hi2 Hc; try discriminate Hl.
  - exists e1, [], e2, [], []. auto.
  - destruct (control_sample x y e1 e2 Hi1 Hi2 Hc)
      as (e1' & o1 & e2' & o2 & t & H1 & H2 & Hn1 & Hn2 & Hc').
    destruct (IH ys e1' e2') as (e1'' & os1 & e2'' & os2 & ts & R1 & R2 & Hc'');
      [simpl in Hl; congruence | assumption | assumption | assumption |].
    exists e1'', (o1 :: os1), e2'', (o2 :: os2), (t :: ts).
    simpl. rewrite H1, H2. simpl. rewrite R1, R2. auto.
Qed.

(** The audio data never reaches the scheduler.  Two runs of the callback
    on input blocks of the same length, from reachable states that differ
    at most in the content of the history buffer, perform the same events
    (the same reads, writes, segment starts and deactivations, at the same
    indices) and end in states that again differ at most in the content of
    the history buffer. *)
Theorem schedule_data_independent xs ys e1 e2 :
  reach AudioCallback_sample e1 -> reach AudioCallback_sample e2 ->
  control_state e1 = control_state e2 -> length xs = length ys ->
  exists e1' os1 e2' os2 ts,
    AudioCallback xs e1 = Some (e1', os1, ts) /\
    AudioCallback ys e2 = Some (e2', os2, ts) /\
    control_state e1' = control_state e2'.
Proof.
  intros Hr1 Hr2 Hc Hl.
  exact (control_run xs ys e1 e2 Hl (reachable_inv e1 Hr1) (reachable_inv e2 Hr2) Hc).
Qed.

Lemma schedule_data_independent_witness :
  exists e1' os1 e2' os2 ts,
    AudioCallback [F32.one; F32.half] init = Some (e1', os1, ts) /\
    AudioCallback [F32.zero; F32.zero] init = Some (e2', os2, ts) /\
    control_state e1' = control_state e2'.
Proof.
  apply (schedule_data_independent [F32.one; F32.half] [F32.zero; F32.zero] init init).
  - apply reach_init.
  - apply reach_init.
  - reflexivity.
  - reflexivity.
Defined.
(** ** The mix position *)

(** The position at which the two segment samples are mixed.  On the global
    sample [n >= 1] (the sample that follows a block of [n] samples from the
    initial state) the crossfader applies the centre position 0.5 that
    [xfade.Init] selects as long as no handoff has been made ([n < 38160]);
    in cycle [q = n / 38160 >= 1], with [m = n mod 38160], it applies the
    start endpoint moved by [m] binary32 steps of kFadeStep during the
    crossfade ([m <= kFadeTime]), upwards in odd cycles and downwards in
    even ones, and then rests at the last value of the ramp: 1.0000974 in
    odd cycles, -0.0000973 in even ones. *)
Theorem mix_position_schedule xs :
  exists e os ts,
    AudioCallback xs init = Some (e, os, ts) /\
    (xs <> [] ->
     mix_pos e
     = (if Z.of_nat (length xs) / (L_now - kFadeTime) =? 0 then xfade_Init_pos
        else if Z.of_nat (length xs) mod (L_now - kFadeTime) <=? kFadeTime
        then ramp (Z.even (Z.of_nat (length xs) / (L_now - kFadeTime)))
               (Z.to_nat (Z.of_nat (length xs) mod (L_now - kFadeTime)))
        else if Z.even (Z.of_nat (length xs) / (L_now - kFadeTime))
        then down_end else up_end) /\
     forall x, exists e' t,
       AudioCallback_sample x e
       = Some (e', output_sample x
                     (xfade_Process (mix_pos e) (read_of SegA e) (read_of SegB e)),
               t)).
Proof.
  destruct (sched_run xs init 0 (Z.le_refl 0) (inv_init L_now) phase_started)
    as (e & os & ts & Hr & _ & Hi & Hfin & _).
  exists e, os, ts. split; [exact Hr|]. intros Hne.
  destruct (Hfin Hne) as (Hu & Hp).
  split; [|intros x; exact (next_output x e Hi Hu)].
  rewrite Z.add_0_l in Hp.
  set (q := Z.of_nat (length xs) / (L_now - kFadeTime)) in *.
  set (m := Z.of_nat (length xs) mod (L_now - kFadeTime)) in *.
  destruct Hp as (Hq & Hm & _ & _ & _ & Hfg & Hfc & _ & _ & Hsw & Hxp).
  pose proof (proj1 (proj2 (proj2 (proj1 (proj2 Hi))))) as Hramp.
  unfold mix_pos.
  destruct (Z.eqb_spec q 0) as [Hq0|Hq0].
  - rewrite Hq0 in Hfg, Hxp. cbn [andb] in Hfg. rewrite Hfg. exact (Hxp Hfg).
  - replace (0 <? q) with true in * by (symmetry; apply Z.ltb_lt; lia).
    cbn [andb] in Hfg, Hsw. rewrite Hfg.
    destruct (Z.leb_spec m kFadeTime) as [Hle|Hgt].
    + assert (Hf : fading e = true)
        by (rewrite Hfg; reflexivity).
      rewrite (Hramp Hf), Hfc, Hf, Hsw.
      replace (kFadeTime <? m) with false by (symmetry; apply Z.ltb_ge; lia).
      rewrite xorb_false_r. reflexivity.
    + assert (Hf : fading e = false)
        by (rewrite Hfg; reflexivity).
      rewrite (Hxp Hf).
      destruct (Z.even q); [exact ramp_down_end | exact ramp_up_end].
Qed.
(** ** The segment records *)

Lemma start_inv_next L x e :
  kFadeTime < L < 2 ^ size_bits -> inv L e -> startup e = false ->
  start_inv e -> start_inv (next_state L x e).
Proof.
  intros HL Hi Hu Hh w Ha.
  pose proof kBufferSize_val as HN. pose proof kFadeTime_val as HK.
  pose proof (proj1 Hi) as (_ & Hw & HhA & HhB).
  assert (Hhw : 0 <= head (seg w e) < kBufferSize) by (destruct w; assumption).
  pose proof (next_proj L x e) as (Ns & _).
  cbv zeta in Ns. rewrite Ns in Ha |- *.
  destruct (trigger_cond (mixed_state x e) && seg_id_eqb w (other_seg (lead e))).
  - unfold retire_seg. cbn [len played].
    destruct (Z.leb_spec L 0); [lia|]. cbn [start head played].
    split; [exact Hw|]. rewrite Z.sub_0_r. symmetry. apply Z.mod_small. exact Hw.
  - destruct (active (seg w e)) eqn:Es.
    + destruct (active_played L e w (proj1 HL) Hi Hu Es) as (Hl & Hp).
      rewrite (step_active (seg w e) L Es Hl Hp (proj2 HL)) in Ha |- *.
      unfold retire_seg in *. cbn [len played] in *.
      destruct (L <=? played (seg w e) + 1); [discriminate Ha|].
      cbn [start head played]. destruct (Hh w Es) as (Hst & Hhd).
      split; [exact Hst|].
      rewrite wrapDec_mod by exact Hhw. rewrite Hhd, Zminus_mod_idemp_l.
      f_equal. lia.
    + unfold step_if_active in Ha. rewrite Es in Ha. unfold retire_seg in Ha.
      destruct (len (seg w e) <=? played (seg w e)); simpl in Ha; congruence.
Qed.

Lemma start_inv_entered e : idx_ok e -> start_inv e -> start_inv (entered e).
Proof.
  intros (_ & Hw & _) Hh. unfold entered.
  destruct (startup e); [|exact Hh].
  intros w Ha. destruct w; [|discriminate Ha].
  change (0 <= writePos e < kBufferSize /\
          writePos e = (writePos e - 0) mod kBufferSize).
  split; [exact Hw|]. rewrite Z.sub_0_r. symmetry. apply Z.mod_small. exact Hw.
Qed.

Lemma reachable_start_inv e : reach AudioCallback_sample e -> start_inv e.
Proof.
  intros Hr. induction Hr as [|e a0 a1 a2 Hr IH|e x e' o t Hr IH Hs].
  - intros w Ha. destruct w; discriminate Ha.
  - exact IH.
  - pose proof (reachable_inv e Hr) as Hi.
    destruct (sample_total x e Hi) as (H1 & Hi0 & Hs0 & _).
    rewrite <- (Some_state_eq _ _ _ _ _ _ (eq_trans (eq_sym H1) Hs)).
    apply start_inv_next; [exact L_now_range | exact Hi0 | exact Hs0 |].
    apply start_inv_entered; [apply Hi | exact IH].
Qed.

Lemma reachable_startup_idle e w :
  reach AudioCallback_sample e -> startup e = true -> active (seg w e) = false.
Proof.
  intros Hr. induction Hr as [|e a0 a1 a2 Hr IH|e x e' o t Hr IH Hs].
  - intros _. destruct w; reflexivity.
  - exact IH.
  - intros Hu. exfalso.
    destruct (sample_total x e (reachable_inv e Hr)) as (H1 & _ & _ & _ & Hs1 & _).
    rewrite (Some_state_eq _ _ _ _ _ _ (eq_trans (eq_sym H1) Hs)) in Hs1.
    congruence.
Qed.

(** In every reachable state the record of an active segment is
    consistent: its length is the delay length of the program, its played
    count lies below the length, the index it started at is a valid index
    and its head stands [played] slots behind it, modulo the capacity. *)
Theorem segment_record_consistent e w :
  reach AudioCallback_sample e -> active (seg w e) = true ->
  len (seg w e) = L_now /\
  0 <= played (seg w e) < len (seg w e) /\
  0 <= start (seg w e) < kBufferSize /\
  head (seg w e) = (start (seg w e) - played (seg w e)) mod kBufferSize.
Proof.
  intros Hr Ha. pose proof (reachable_inv e Hr) as Hi.
  assert (Hu : startup e = false).
  { destruct (startup e) eqn:Es; [|reflexivity].
    rewrite (reachable_startup_idle e w Hr Es) in Ha. discriminate Ha. }
  destruct (active_played L_now e w L_now_bounds Hi Hu Ha) as (Hl & Hp).
  destruct (reachable_start_inv e Hr w Ha) as (Hst & Hhd).
  rewrite Hl. auto.
Qed.

Lemma segment_record_consistent_witness :
  len (seg SegA after_first) = L_now /\
  0 <= played (seg SegA after_first) < len (seg SegA after_first) /\
  0 <= start (seg SegA after_first) < kBufferSize /\
  head (seg SegA after_first)
  = (start (seg SegA after_first) - played (seg SegA after_first)) mod kBufferSize.
Proof.
  apply (segment_record_consistent after_first SegA).
  - exact first_state_reach.
  - exact first_state_segA.
Defined.

(** ** Retiring an idle segment *)

Lemma inactive_is_zero e w :
  inv L_now e -> startup e = false -> active (seg w e) = false ->
  seg w e = zero_segment.
Proof.
  intros (_ & _ & Hs) Hu Ha. specialize (Hs Hu).
  destruct Hs as (Hla & _ & _ & _ & _ & Ho).
  destruct (lead_or_other e w) as [-> | ->]; [congruence|].
  destruct Ho as [Ho | (_ & Hoa & _)]; [exact Ho | congruence].
Qed.

(** The retire test also holds of an idle segment, whose length and played
    count are both 0: on every sample after Startup the callback calls
    DeactivateSegment again on a segment that is idle, unless the handoff
    test of that sample has just started it; the two cases exclude each
    other, and in the first the segment stays the zero record. *)
Theorem idle_segment_retired_again e x w :
  reach AudioCallback_sample e -> startup e = false ->
  active (seg w e) = false ->
  exists e' o t,
    AudioCallback_sample x e = Some (e', o, t) /\
    (In (EvDeactivate AtRetire w) t <-> ~ has_handoff t) /\
    (has_handoff t <-> In (EvStart AtHandoff w (writePos e) L_now) t) /\
    (In (EvDeactivate AtRetire w) t -> seg w e' = zero_segment).
Proof.
  intros Hr Hu Ha. pose proof (reachable_inv e Hr) as Hi.
  destruct (sample_total x e Hi) as (H1 & Hi0 & Hs0 & _ & _ & _ & Hw0).
  assert (He : entered e = set_delayTimeSec delayTimeSec_now e)
    by (unfold entered; rewrite Hu; reflexivity).
  rewrite Hu in H1. cbn [app] in H1.
  set (e0 := entered e) in *.
  assert (Ha0 : active (seg w e0) = false) by (rewrite He; exact Ha).
  pose proof (inactive_is_zero e0 w Hi0 Hs0 Ha0) as Hz.
  assert (Hw : w = other_seg (lead e0)).
  { destruct (lead_or_other e0 w) as [Hl|Hl]; [|exact Hl].
    destruct Hi0 as (_ & _ & Hs). destruct (Hs Hs0) as (Hla & _).
    rewrite <- Hl in Hla. congruence. }
  pose proof (trigger_proj L_now (mixed_state x e0)) as (Ts & _).
  pose proof (mixed_proj x e0) as (Ms & Ml & _).
  assert (Hlm : lead (mixed_state x e0) = lead e0)
    by (unfold lead; rewrite Ml; reflexivity).
  pose proof (next_proj L_now x e0) as (Ns & _). cbv zeta in Ns.
  assert (Hseg : seg w (trigger_state L_now (mixed_state x e0))
                 = if trigger_cond (mixed_state x e0)
                   then mkSegment (writePos e0) (writePos e0) L_now 0 true
                   else zero_segment).
  { rewrite Ts, Ms, Hlm, writePos_mixed, Hz, <- Hw.
    replace (seg_id_eqb w w) with true by (destruct w; reflexivity).
    rewrite andb_true_r. reflexivity. }
  assert (Hd : In (EvDeactivate AtRetire w) (next_events L_now x e0)
               <-> trigger_cond (mixed_state x e0) = false).
  { rewrite next_events_deactivate, Hseg.
    destruct (trigger_cond (mixed_state x e0)); cbn [len played].
    - split; [intros [_ H]; discriminate H | discriminate].
    - split; [reflexivity | intros _; split; reflexivity]. }
  assert (Hh : has_handoff (next_events L_now x e0)
               <-> trigger_cond (mixed_state x e0) = true).
  { split.
    - intros (w' & cw & n & Hin). apply next_events_start in Hin. tauto.
    - intros Hc. exists w, (writePos e0), L_now. apply next_events_start.
      repeat split; assumption. }
  eexists _, _, _. split; [exact H1|].
  split; [rewrite Hd, Hh; destruct (trigger_cond _); split; congruence|].
  split.
  { rewrite Hh, next_events_start. split; [|tauto].
    intros Hc. split; [exact Hc|]. split; [reflexivity|]. split; [exact Hw|].
    split; [symmetry; exact Hw0 | reflexivity]. }
  intros Hin. apply Hd in Hin.
  rewrite Ns, Hin, Hz. reflexivity.
Qed.

Lemma idle_segment_retired_again_witness :
  exists e' o t,
    AudioCallback_sample F32.zero after_first = Some (e', o, t) /\
    (In (EvDeactivate AtRetire SegB) t <-> ~ has_handoff t) /\
    (has_handoff t <->
     In (EvStart AtHandoff SegB (writePos after_first) L_now) t) /\
    (In (EvDeactivate AtRetire SegB) t -> seg SegB e' = zero_segment).
Proof.
  apply (idle_segment_retired_again after_first F32.zero SegB).
  - exact first_state_reach.
  - exact first_state_startup.
  - reflexivity.
Defined.
(** ** The wet signal in closed form *)

(** What the two segments contribute to the global sample [n >= 1], in
    terms of the input alone.  With [q = n / 38160] and [m = n mod 38160],
    the segment started last (A for even [q], B for odd [q]) contributes
    the input of [2 * m] samples before the latest one from the first
    handoff on, and silence before it; the segment started before
    contributes the input of [2 * (38160 + m)] samples before the latest
    one during the first kFadeTime samples of a cycle, and nothing
    afterwards.  An input that lies before the beginning of the stream
    counts as zero.  The output is the dry input plus half the mix of the
    two at [mix_pos]. *)
Theorem wet_signal_closed_form xs :
  exists e os ts,
    AudioCallback xs init = Some (e, os, ts) /\
    (xs <> [] ->
     read_of (if Z.even (Z.of_nat (length xs) / (L_now - kFadeTime))
              then SegA else SegB) e
     = (if Z.of_nat (length xs) / (L_now - kFadeTime) =? 0 then F32.zero
        else nth (Z.to_nat (2 * (Z.of_nat (length xs) mod (L_now - kFadeTime))))
               (rev xs) F32.zero) /\
     read_of (if Z.even (Z.of_nat (length xs) / (L_now - kFadeTime))
              then SegB else SegA) e
     = (if (0 <? Z.of_nat (length xs) / (L_now - kFadeTime))
           && (Z.of_nat (length xs) mod (L_now - kFadeTime) <? kFadeTime)
        then nth (Z.to_nat (2 * (L_now - kFadeTime
                                 + Z.of_nat (length xs) mod (L_now - kFadeTime))))
               (rev xs) F32.zero
        else F32.zero) /\
     forall x, exists e' t,
       AudioCallback_sample x e
       = Some (e', output_sample x
                     (xfade_Process (mix_pos e) (read_of SegA e) (read_of SegB e)),
               t)).
Proof.
  destruct (sched_run xs init 0 (Z.le_refl 0) (inv_init L_now) phase_started)
    as (e & os & ts & Hr & _ & Hi & Hfin & _).
  pose proof (reverse_reads xs e os ts Hr) as Hrd.
  exists e, os, ts. split; [exact Hr|]. intros Hne.
  destruct (Hfin Hne) as (Hu & Hp).
  rewrite Z.add_0_l in Hp.
  assert (Hn : 1 <= Z.of_nat (length xs)) by (destruct xs; [congruence | simpl length; lia]).
  pose proof kFadeTime_val as HK.
  rewrite period_val in *. pose proof period_val as HP.
  set (n := Z.of_nat (length xs)) in *.
  assert (Hdm : n = 38160 * (n / 38160) + n mod 38160 /\ 0 <= n mod 38160 < 38160)
    by (split; [apply Z.div_mod; lia | apply Z.mod_pos_bound; lia]).
  set (q := n / 38160) in *. set (m := n mod 38160) in *.
  destruct Hp as (Hq & Hm & Hld & Hla & Hpl & _ & _ & Hoa & Hop & _).
  assert (Hot : other_seg (lead e) = if Z.even q then SegB else SegA)
    by (rewrite Hld; destruct (Z.even q); reflexivity).
  rewrite Hot in Hoa, Hop. rewrite Hld in Hla, Hpl.
  split; [|split; [|intros x; exact (next_output x e Hi Hu)]].
  - destruct (Hrd _ Hla) as (_ & Hlt & Heq). rewrite Hpl in Hlt, Heq.
    destruct (Z.eqb_spec q 0) as [Hq0|Hq0].
    + apply Heq. lia.
    + apply Hlt. nia.
  - destruct (active (seg (if Z.even q then SegB else SegA) e)) eqn:Ea.
    + rewrite <- Hoa. specialize (Hop eq_refl).
      destruct (Hrd _ Ea) as (Hrg & Hlt & Heq). rewrite Hop in Hrg, Hlt, Heq.
      symmetry in Hoa. apply andb_true_iff in Hoa. destruct Hoa as [Hq0 _].
      apply Z.ltb_lt in Hq0.
      destruct (Z.eq_dec (38160 + m) n) as [Hen|Hnn].
      * rewrite (Heq Hen). symmetry. apply nth_overflow. rewrite length_rev.
        fold n in Hn. lia.
      * apply Hlt. lia.
    + rewrite <- Hoa. unfold read_of. rewrite Ea. reflexivity.
Qed.
(** ** The first handoff of the program *)

Lemma before_first_handoff xs :
  Z.of_nat (length xs) = L_now - kFadeTime - 1 ->
  exists e1 os1 ts1 e2 o t,
    AudioCallback xs init = Some (e1, os1, ts1) /\
    fading e1 = false /\ lead e1 = SegA /\
    active (seg (other_seg (lead e1)) e1) = false /\
    AudioCallback_sample F32.zero e1 = Some (e2, o, t) /\
    In (EvStart AtHandoff SegB (Z.of_nat (length xs) mod kBufferSize) L_now) t.
Proof.
  intros Hlen.
  assert (Hne : xs <> []).
  { intros ->. rewrite period_val in Hlen. discriminate Hlen. }
  destruct (quiet_from_init delayTimeSec_now L_now xs delayTimeSamp_now_size
              L_now_bounds Hne)
    as (e1 & os1 & ts1 & R & Hr & Hi & Hs & Hf & Hl & Hp & Hw); [lia|].
  assert (Hld : lead e1 = SegA) by (unfold lead; rewrite Hl; reflexivity).
  destruct (step_handoff delayTimeSec_now L_now delayTimeSamp_now_size L_now_bounds
              F32.zero e1 Hi Hs Hf)
    as (e2 & o & t & H2 & _ & _ & _ & _ & _ & _ & _ & _ & Hin).
  { rewrite Hld, Hp. lia. }
  rewrite Hld, Hw in Hin.
  exists e1, os1, ts1, e2, o, t.
  split; [exact R|]. split; [exact Hf|]. split; [exact Hld|].
  split; [|split; [exact H2 | exact Hin]].
  destruct Hi as (_ & _ & Hsi). destruct (Hsi Hs) as (_ & _ & _ & _ & _ & Ho).
  destruct Ho as [-> | (Hx & _)]; [reflexivity | congruence].
Qed.

Lemma no_handoff_before xs :
  0 < Z.of_nat (length xs) < L_now - kFadeTime ->
  exists e os ts,
    AudioCallback xs init = Some (e, os, ts) /\ length ts = length xs /\
    (forall k t, ts !! k = Some t -> ~ has_handoff t) /\
    aLag e = false.
Proof.
  intros Hlen.
  assert (Hne : xs <> []) by (intros ->; simpl in Hlen; lia).
  destruct (sched_run xs init 0 (Z.le_refl 0) (inv_init L_now) phase_started)
    as (e & os & ts & Hr & Hn & _ & Hfin & Hev).
  exists e, os, ts. split; [exact Hr|]. split; [exact Hn|].
  rewrite period_val in *.
  split.
  - intros k t Hk Hh.
    pose proof (lookup_lt_Some _ _ _ Hk) as Hlt. rewrite Hn in Hlt.
    apply (proj1 (Hev k t Hk)) in Hh.
    rewrite Z.add_0_l, Z.mod_small in Hh by lia. lia.
  - destruct (Hfin Hne) as (_ & Hp). rewrite Z.add_0_l in Hp.
    destruct Hp as (_ & _ & Hld & _).
    rewrite Z.div_small in Hld by lia.
    unfold lead in Hld. destruct (aLag e); [discriminate Hld | reflexivity].
Qed.

(** The delay time the program is configured with, 0.25 s, is 12000
    samples. *)
Lemma quarter_second_size :
  f32_to_size (F32.mul (F32.lit 1 (-2)) kSampleRate) = Some 12000.
Proof. vm_compute. reflexivity. Qed.

(** The claim as stated fails on the program.  After 38159 samples (global
    samples 0 to 38158) no crossfade is in progress, segment A is the
    segment most recently started and segment B, the one not most recently
    started, is inactive, so the test of the claim does not hold; yet sample
    38159 starts segment B.  And although the delay time is configured to
    12000 samples, nothing is started on sample 2400: no sample up to sample
    2401 has a handoff, and the flag has by then been toggled by Startup
    only. *)
Lemma handoff_claim_counterexample :
  (exists e1 os1 ts1 e2 o t,
      AudioCallback (replicate (Z.to_nat 38159) F32.zero) init
      = Some (e1, os1, ts1) /\
      fading e1 = false /\ lead e1 = SegA /\
      active (seg (other_seg (lead e1)) e1) = false /\
      AudioCallback_sample F32.zero e1 = Some (e2, o, t) /\
      In (EvStart AtHandoff SegB 38159 47760) t) /\
  f32_to_size (F32.mul (delayTimeSec init) kSampleRate) = Some 12000 /\
  (exists e os ts,
      AudioCallback (replicate (Z.to_nat 2402) F32.zero) init = Some (e, os, ts) /\
      length ts = Z.to_nat 2402 /\
      (forall k t, ts !! k = Some t -> ~ has_handoff t) /\
      aLag init = true /\ aLag e = false).
Proof.
  split; [|split].
  - destruct (before_first_handoff (replicate (Z.to_nat 38159) F32.zero))
      as (e1 & os1 & ts1 & e2 & o & t & R & Hf & Hl & Ho & H2 & Hin).
    { rewrite length_replicate, Z2Nat.id by lia. reflexivity. }
    rewrite length_replicate, Z2Nat.id in Hin by lia.
    change (38159 mod kBufferSize) with 38159 in Hin.
    exists e1, os1, ts1, e2, o, t.
    split; [exact R|]. split; [exact Hf|]. split; [exact Hl|].
    split; [exact Ho|]. split; [exact H2 | exact Hin].
  - exact quarter_second_size.
  - destruct (no_handoff_before (replicate (Z.to_nat 2402) F32.zero))
      as (e & os & ts & R & Hn & Hk & Hl).
    { rewrite length_replicate, Z2Nat.id, period_val by lia. lia. }
    rewrite length_replicate in Hn.
    exists e, os, ts. split; [exact R|]. split; [exact Hn|].
    split; [exact Hk|]. split; [reflexivity | exact Hl].
Qed.
